(** * LinkedIn employee extractor: record reconciliation, page enumeration
      and company attribution

    A shallow embedding of the pure core of [utils.py] and of the page
    enumeration of [linkedin_scraper.py], with the properties of the
    specification stated and proved over it.

    Python values are modelled as follows.
    - [str] is Rocq's [string]; a character is a code point below 256, and
      [str.strip], [str.lower], [str.isdigit] are modelled on that range.
    - a record dict with the keys ['Profile_URL'], ['Description'],
      ['Company'] is the record [employee]; [d.get(k, '')] of a missing key
      and of an empty value both read as the empty string, which is how every
      use in the source treats them.
    - the dataset [Dict[str, Dict[str, str]]] is a [gmap string employee]
      where only values matter, and a [gmap string loc] over a store of
      record objects where the sharing made by [dict.copy()] matters.
    - Python's [int] is unbounded: page numbers are [N]. *)

From Stdlib Require Import Ascii String NArith Lia DecimalString.
From stdpp Require Import gmap strings list sorting.

Local Open Scope N_scope.
Local Open Scope nat_scope.

(** ** Python string operations *)

Module PyStr.

(** [bool(s)]: a string is truthy when it is not empty. *)
Definition truthy (s : string) : bool :=
  match s with EmptyString => false | String _ _ => true end.

(** [c.isspace()] on the code points below 256: TAB..CR, FS..US, SPACE,
    NEL (0x85) and NBSP (0xA0). *)
Definition isspace (c : ascii) : bool :=
  let n := nat_of_ascii c in
  ((9 <=? n) && (n <=? 13)) || ((28 <=? n) && (n <=? 32))
  || (n =? 133) || (n =? 160).

Fixpoint lstrip (s : string) : string :=
  match s with
  | EmptyString => EmptyString
  | String c s' => if isspace c then lstrip s' else s
  end.

Fixpoint rstrip (s : string) : string :=
  match s with
  | EmptyString => EmptyString
  | String c s' =>
      match rstrip s' with
      | EmptyString => if isspace c then EmptyString else String c EmptyString
      | r => String c r
      end
  end.

(** [s.strip()] *)
Definition strip (s : string) : string := rstrip (lstrip s).

(** [c.lower()] on the code points below 256: A..Z and the Latin-1 capitals
    0xC0..0xDE except the multiplication sign 0xD7 move up by 32. *)
Definition lower_char (c : ascii) : ascii :=
  let n := nat_of_ascii c in
  if ((65 <=? n) && (n <=? 90))
     || ((192 <=? n) && (n <=? 222) && negb (n =? 215))
  then ascii_of_nat (n + 32) else c.

(** [s.lower()] *)
Fixpoint lower (s : string) : string :=
  match s with
  | EmptyString => EmptyString
  | String c s' => String (lower_char c) (lower s')
  end.

(** [s.startswith(p)] *)
Fixpoint startswith (p s : string) : bool :=
  match p, s with
  | EmptyString, _ => true
  | String _ _, EmptyString => false
  | String a p', String b s' => if decide (a = b) then startswith p' s' else false
  end.

(** [sub in s] *)
Fixpoint contains (sub s : string) : bool :=
  startswith sub s
  || match s with
     | EmptyString => false
     | String _ s' => contains sub s'
     end.

(** [s.replace(c, '')] for a one-character [c] *)
Fixpoint remove_char (c : ascii) (s : string) : string :=
  match s with
  | EmptyString => EmptyString
  | String a s' => if decide (a = c) then remove_char c s' else String a (remove_char c s')
  end.

(** [s.replace(c, d)] for one-character [c] and [d] *)
Fixpoint replace_char (c d : ascii) (s : string) : string :=
  match s with
  | EmptyString => EmptyString
  | String a s' => String (if decide (a = c) then d else a) (replace_char c d s')
  end.

(** [s.split(sep)[0]] for a non-empty [sep]: the part of [s] before the
    first occurrence of [sep], the whole of [s] when there is none. *)
Fixpoint before_first (sep s : string) : string :=
  if startswith sep s then EmptyString
  else match s with
       | EmptyString => EmptyString
       | String c s' => String c (before_first sep s')
       end.

(** The decimal digits 0..9, the only code points below 256 that [\d] and
    [int()] accept. *)
Definition digit_value (c : ascii) : option N :=
  let n := nat_of_ascii c in
  if (48 <=? n) && (n <=? 57) then Some (N.of_nat (n - 48)) else None.

(** [c.isdigit()] on the code points below 256: 0..9 and the superscripts
    two, three (0xB2, 0xB3) and one (0xB9). *)
Definition isdigit_char (c : ascii) : bool :=
  let n := nat_of_ascii c in
  ((48 <=? n) && (n <=? 57)) || (n =? 178) || (n =? 179) || (n =? 185).

Fixpoint all_chars (p : ascii → bool) (s : string) : bool :=
  match s with
  | EmptyString => true
  | String c s' => p c && all_chars p s'
  end.

(** [s.isdigit()]: non-empty and every character a digit. *)
Definition isdigit (s : string) : bool := truthy s && all_chars isdigit_char s.

(** Horner evaluation of a run of decimal digits; [None] at the first
    character that is not one. *)
Fixpoint int_digits (acc : N) (s : string) : option N :=
  match s with
  | EmptyString => Some acc
  | String c s' =>
      match digit_value c with
      | Some d => int_digits (10 * acc + d)%N s'
      | None => None
      end
  end.

(** [int(s)] for a string that passed [isdigit]: [None] stands for the
    [ValueError] raised on a superscript digit. *)
Definition int (s : string) : option N :=
  if truthy s then int_digits 0%N s else None.

(** [str(n)] for a non-negative [int]. *)
Definition str (n : N) : string := NilZero.string_of_uint (N.to_uint n).

End PyStr.

(** ** Records and the pure merge loop of [save_employee_data] *)

Record employee := Employee {
  Profile_URL : string;
  Description : string;
  Company : string
}.

Global Instance employee_eq_dec : EqDecision employee.
Proof. solve_decision. Defined.

(** Lines 140-144: the in-place enrichment of an existing record by an
    incoming one, in update mode. *)
Definition enrich (existing e : employee) : employee :=
  let existing1 :=
    if PyStr.truthy (Description e)
       && (negb (PyStr.truthy (Description existing))
           || (String.length (Description existing) <? String.length (Description e)))
    then Employee (Profile_URL existing) (Description e) (Company existing)
    else existing in
  if PyStr.truthy (Company e) && negb (PyStr.truthy (Company existing1))
  then Employee (Profile_URL existing1) (Description existing1) (Company e)
  else existing1.

(** The loop variables of lines 127-129. *)
Record merge_state := MergeState {
  all_data : gmap string employee;
  new_count : nat;
  updated_count : nat
}.

(** One iteration of the loop of lines 131-154. *)
Definition merge_step (update_mode : bool) (st : merge_state) (e : employee)
  : merge_state :=
  let url := PyStr.strip (Profile_URL e) in
  if PyStr.truthy url then
    match all_data st !! url with
    | Some existing =>
        if update_mode then
          MergeState (<[url := enrich existing e]> (all_data st))
                     (new_count st) (S (updated_count st))
        else st
    | None =>
        MergeState (<[url := Employee url (Description e) (Company e)]> (all_data st))
                   (S (new_count st)) (updated_count st)
    end
  else st.

(** Lines 127-154: [all_data] starts as the existing data and the batch is
    folded into it from left to right. *)
Definition merge_loop (update_mode : bool) (existing_data : gmap string employee)
    (employees : list employee) : merge_state :=
  fold_left (merge_step update_mode) employees (MergeState existing_data 0 0).

(** The dataset that the loop leaves in [all_data]: the specification's
    [merge(dataset, batch, mode)], with [update_mode = false] for fresh
    mode. *)
Definition merge (update_mode : bool) (D : gmap string employee)
    (B : list employee) : gmap string employee :=
  all_data (merge_loop update_mode D B).

(** ** The persisted store

    The [csv] module and the text layer belong to Python's library, not to
    the repository.  The store is modelled by the rows of fields that
    [csv.DictWriter] is given and [csv.reader] yields, the quoting in between
    taken to be lossless.  Two effects of reading are kept.  The file is
    written with [newline=''] and read with the default [newline=None], so
    on reading every [\r\n] and every lone [\r] inside a field has become
    [\n].  And the reader refuses a field of more than
    [csv.field_size_limit()] characters: reading the row that holds it
    raises [_csv.Error]; the writer has no such limit. *)

Definition csv_row := list string.
Definition csv_file := list csv_row.

Definition CR : ascii := ascii_of_nat 13.
Definition LF : ascii := ascii_of_nat 10.

(** Universal-newlines translation of the text read from a file. *)
Fixpoint universal_newlines (s : string) : string :=
  match s with
  | EmptyString => EmptyString
  | String c s' =>
      if decide (c = CR) then
        String LF
          match s' with
          | EmptyString => EmptyString
          | String c' s'' =>
              if decide (c' = LF) then universal_newlines s''
              else universal_newlines s'
          end
      else String c (universal_newlines s')
  end.

(** The text that [open(OUTPUT_CSV, 'r')] hands to [csv.reader] for a file
    holding the rows [f], row by row. *)
Definition read_text (f : csv_file) : csv_file :=
  map (map universal_newlines) f.

(** [csv.field_size_limit()], never changed by the program. *)
Definition field_size_limit : N := 131072%N.

Definition within_limit (field : string) : bool :=
  (N.of_nat (String.length field) <=? field_size_limit)%N.

(** Line 159: [fieldnames]. *)
Definition fieldnames : csv_row := ["Profile_URL"; "Description"; "Company"].

(** [writer.writerow(data)] for a record with exactly the three keys. *)
Definition writerow (data : employee) : csv_row :=
  [Profile_URL data; Description data; Company data].

(** A stable sort ([sorted] is stable): insertion from the right. *)
Fixpoint insert_sorted {A} (le : A → A → bool) (x : A) (l : list A) : list A :=
  match l with
  | [] => [x]
  | y :: l' => if le x y then x :: l else y :: insert_sorted le x l'
  end.

Definition sorted {A} (le : A → A → bool) (l : list A) : list A :=
  foldr (insert_sorted le) [] l.

(** Order of the [(url, data)] tuples of [all_data.items()]: the keys are
    pairwise distinct, so the comparison never reaches the second
    component. *)
Definition item_le (x y : string * employee) : bool := String.leb x.1 y.1.

(** Lines 161-164: the header and one row per record, by ascending key. *)
Definition csv_rows_of (all_data : gmap string employee) : csv_file :=
  fieldnames :: map (λ item, writerow item.2) (sorted item_le (map_to_list all_data)).

(** Exceptions that the modelled code can meet. *)
Inductive exn :=
  | OSError (msg : string)
  | AttributeError (msg : string)
  | CsvError (msg : string).

Definition exn_str (e : exn) : string :=
  match e with
  | OSError msg => msg
  | AttributeError msg => msg
  | CsvError msg => msg
  end.

(** [next(reader)] on a row of the text read: the row, or the [_csv.Error]
    that a field over the limit raises while the row is parsed. *)
Definition reader_next (row : csv_row) : exn + csv_row :=
  if forallb within_limit row then inr row
  else inl (CsvError "field larger than field limit (131072)").

(** A row as [csv.DictReader] presents it: [dict(zip(fieldnames, row))], the
    field names beyond the end of a short row mapped to [None] (the
    [restval]).  Python's [None] is [None] here, a string is [Some]. *)
Fixpoint zip_restval (names row : csv_row) : list (string * option string) :=
  match names, row with
  | [], _ => []
  | k :: names', [] => (k, None) :: zip_restval names' []
  | k :: names', v :: row' => (k, Some v) :: zip_restval names' row'
  end.

Definition DictReader_row (names row : csv_row) : gmap string (option string) :=
  fold_left (λ d kv, <[kv.1 := kv.2]> d) (zip_restval names row) ∅.

(** [row.get(key, '').strip()]: the default covers a missing key only; on
    [None] the call of [strip] raises. *)
Definition get_strip (row : gmap string (option string)) (key : string)
  : exn + string :=
  match default (Some EmptyString) (row !! key) with
  | Some s => inr (PyStr.strip s)
  | None => inl (AttributeError "'NoneType' object has no attribute 'strip'")
  end.

(** Lines 70-77: the body of the loop of [load_existing_data]. *)
Definition load_row (names : csv_row) (acc : exn + gmap string employee)
    (row : csv_row) : exn + gmap string employee :=
  match acc with
  | inl e => inl e
  | inr existing_data =>
      match reader_next row with
      | inl e => inl e
      | inr [] => inr existing_data   (* DictReader skips empty rows *)
      | inr _ =>
          let d := DictReader_row names row in
          match get_strip d "Profile_URL" with
          | inl e => inl e
          | inr url =>
              if PyStr.truthy url then
                match get_strip d "Description" with
                | inl e => inl e
                | inr description =>
                    match get_strip d "Company" with
                    | inl e => inl e
                    | inr company =>
                        inr (<[url := Employee url description company]> existing_data)
                    end
                end
              else inr existing_data
          end
      end
  end.

(** Lines 68-77 on the rows read: the first row names the fields, and is
    read, like the others, inside the [try]. *)
Definition load_rows (f : csv_file) : exn + gmap string employee :=
  match f with
  | [] => inr ∅
  | names :: rows =>
      match reader_next names with
      | inl e => inl e
      | inr names => fold_left (load_row names) rows (inr ∅)
      end
  end.

(** ** The store of record objects and the whole of [save_employee_data]

    [existing_data.copy()] is a shallow copy: [all_data] is a new dict whose
    values are the same record objects.  A dict of records is therefore a
    map from keys to locations, and the records live in a heap.  The batch
    is only read; its records are taken by value. *)

Definition loc := positive.

Inductive level := INFO | ERROR.
Definition log_record : Type := level * string.

Record pystate := PyState {
  heap : gmap loc employee;        (* the record dicts *)
  output_csv : option csv_file;    (* OUTPUT_CSV; [None] while it does not exist *)
  logs : list log_record           (* what [logger] has emitted, oldest first *)
}.

(** How the file system answers the calls.  A failed write either fails in
    [open], before the file is touched, or after [rows_done] rows reached the
    truncated file. *)
Inductive write_fault :=
  | OpenFails (msg : string)
  | WriteFails (rows_done : nat) (msg : string).

Record io_env := IoEnv {
  on_read : option string;           (* [Some msg]: reading raises [OSError msg] *)
  on_write : option write_fault
}.

(** The records that a dict of references denotes. *)
Definition deref (h : gmap loc employee) (d : gmap string loc)
  : gmap string employee :=
  omap (λ l, h !! l) d.

(** A freshly created record dict. *)
Definition alloc_record (st : gmap string loc * gmap loc employee)
    (item : string * employee) : gmap string loc * gmap loc employee :=
  let l := fresh (dom st.2) in
  (<[item.1 := l]> st.1, <[l := item.2]> st.2).

Definition alloc_dataset (m : gmap string employee) (h : gmap loc employee)
  : gmap string loc * gmap loc employee :=
  fold_left alloc_record (map_to_list m) (∅, h).

(** Lines 56-82. *)
Definition load_existing_data (env : io_env) (s : pystate)
  : gmap string loc * pystate :=
  match output_csv s with
  | None => (∅, s)
  | Some f =>
      let loaded :=
        match on_read env with
        | Some msg => inl (OSError msg)
        | None => load_rows (read_text f)
        end in
      match loaded with
      | inr m =>
          let '(existing_data, h) := alloc_dataset m (heap s) in
          (existing_data,
           PyState h (output_csv s)
             (logs s ++ [(INFO, "Loaded " +:+ PyStr.str (N.of_nat (size m))
                                +:+ " existing records")]))
      | inl e =>
          (∅, PyState (heap s) (output_csv s)
                (logs s ++ [(ERROR, "Error loading existing data: " +:+ exn_str e)]))
      end
  end.

(** The loop variables of lines 127-129, with [all_data] a dict of
    references. *)
Record store_state := StoreState {
  refs : gmap string loc;
  store : gmap loc employee;
  st_new_count : nat;
  st_updated_count : nat
}.

(** One iteration of the loop of lines 131-154 over the heap: an existing
    record is enriched in place, a new one is a new object. *)
Definition store_step (update_mode : bool) (st : store_state) (e : employee)
  : store_state :=
  let url := PyStr.strip (Profile_URL e) in
  if PyStr.truthy url then
    match refs st !! url with
    | Some l =>
        if update_mode then
          match store st !! l with
          | Some existing =>
              StoreState (refs st) (<[l := enrich existing e]> (store st))
                         (st_new_count st) (S (st_updated_count st))
          | None => st
          end
        else st
    | None =>
        let l := fresh (dom (store st)) in
        StoreState (<[url := l]> (refs st))
                   (<[l := Employee url (Description e) (Company e)]> (store st))
                   (S (st_new_count st)) (st_updated_count st)
    end
  else st.

Definition store_loop (update_mode : bool) (existing_data : gmap string loc)
    (h : gmap loc employee) (employees : list employee) : store_state :=
  fold_left (store_step update_mode) employees (StoreState existing_data h 0 0).

(** Line 166: [page_info]; [page_num] is falsy when absent or zero. *)
Definition page_info (page_num : option nat) : string :=
  match page_num with
  | Some (S n) => " (page " +:+ PyStr.str (N.of_nat (S n)) +:+ ")"
  | _ => EmptyString
  end.

(** What a failed write leaves on disk. *)
Definition disk_after_fault (wf : write_fault) (rows : csv_file)
    (before : option csv_file) : option csv_file :=
  match wf with
  | OpenFails _ => before
  | WriteFails rows_done _ => Some (take rows_done rows)
  end.

Definition fault_exn (wf : write_fault) : exn :=
  match wf with
  | OpenFails msg => OSError msg
  | WriteFails _ msg => OSError msg
  end.

(** Lines 158-170: the body of the [try].  On the left, the exception and
    the state in which it is raised. *)
Definition write_and_report (update_mode : bool) (page_num : option nat)
    (env : io_env) (st : store_state) (s : pystate)
  : exn * pystate + pystate :=
  let rows := csv_rows_of (deref (store st) (refs st)) in
  match on_write env with
  | Some wf =>
      inl (fault_exn wf,
           PyState (store st) (disk_after_fault wf rows (output_csv s)) (logs s))
  | None =>
      inr (PyState (store st) (Some rows)
             (logs s ++
              [(INFO,
                if update_mode then
                  "Updated " +:+ PyStr.str (N.of_nat (st_updated_count st))
                  +:+ " records, added " +:+ PyStr.str (N.of_nat (st_new_count st))
                  +:+ " new" +:+ page_info page_num
                else
                  "Saved " +:+ PyStr.str (N.of_nat (st_new_count st))
                  +:+ " new records" +:+ page_info page_num)]))
  end.

(** How a call ends. *)
Inductive outcome := Returned | Raised (e : exn).

(** Lines 102-172.  [company_name] is accepted by the source and never
    used; it is left out. *)
Definition save_employee_data (employees : list employee)
    (page_num : option nat) (update_mode : bool)
    (all_existing_data : option (gmap string loc)) (env : io_env)
    (s : pystate) : outcome * pystate :=
  match employees with
  | [] => (Returned, s)
  | _ =>
      let '(existing_data, s1) :=
        match all_existing_data with
        | Some d => (d, s)
        | None => load_existing_data env s
        end in
      let st := store_loop update_mode existing_data (heap s1) employees in
      match write_and_report update_mode page_num env st s1 with
      | inr s2 => (Returned, s2)
      | inl (e, s2) =>
          (* except Exception as e: logger.error(...) *)
          (Returned,
           PyState (heap s2) (output_csv s2)
             (logs s2 ++ [(ERROR, "Error saving data to CSV: " +:+ exn_str e)]))
      end
  end.

(** ** Company attribution: [assign_company_from_description] *)

(** Line 325: [company_clean], dots deleted, hyphens and underscores turned
    into spaces. *)
Definition company_clean (company_lower : string) : string :=
  PyStr.replace_char "_" " "
    (PyStr.replace_char "-" " " (PyStr.remove_char "." company_lower)).

(** Lines 320-327: the test that makes the loop return [company]. *)
Definition company_matches (description_lower company : string) : bool :=
  let company_lower := PyStr.lower company in
  PyStr.contains company_lower description_lower
  || PyStr.contains (company_clean company_lower) description_lower.

(** Lines 319-329: the loop over the companies. *)
Fixpoint first_company (description_lower : string) (companies : list string)
  : string :=
  match companies with
  | [] => EmptyString
  | company :: companies' =>
      if company_matches description_lower company then company
      else first_company description_lower companies'
  end.

(** Lines 302-329. *)
Definition assign_company_from_description (description : string)
    (companies : list string) : string :=
  if PyStr.truthy description
  then first_company (PyStr.lower description) companies
  else EmptyString.

(** The normalisation as the specification words it: each of [.], [-] and
    [_] becomes a space. *)
Definition spec_company_clean (company_lower : string) : string :=
  PyStr.replace_char "_" " "
    (PyStr.replace_char "-" " " (PyStr.replace_char "." " " company_lower)).

(** The match as the specification words it. *)
Definition spec_company_matches (description_lower company : string) : bool :=
  let company_lower := PyStr.lower company in
  PyStr.contains company_lower description_lower
  || PyStr.contains (spec_company_clean company_lower) description_lower.

(** ** Page enumeration: [extract_employees] and [update_existing_profiles] *)

(** An [<li>] of the pagination list as the loop sees it. *)
Inductive li_element :=
  | LiPlain                              (* no [<button>] and no [<a>]: [clickable] stays [None] *)
  | LiClickable (href text : string)     (* [href || ''] and the text content of the control *)
  | LiStale.                             (* a driver call raises: the element is skipped *)

(** Lines 330-336: the current address without its page parameter. *)
Definition base_url_of (current_url : string) : string :=
  if PyStr.contains "&page=" current_url
  then PyStr.before_first "&page=" current_url
  else if PyStr.contains "?page=" current_url
       then PyStr.before_first "?page=" current_url
       else current_url.

(** Lines 355-371: the address that one pagination control contributes, if
    any. *)
Definition li_page_url (base_url : string) (li : li_element) : option string :=
  match li with
  | LiClickable href text0 =>
      let text := PyStr.strip text0 in
      if PyStr.truthy href && PyStr.contains "/search/results/people/" href
      then Some href
      else if PyStr.truthy text && PyStr.isdigit text then
        match PyStr.int text with
        | Some page_num =>
            if PyStr.contains "?" base_url
            then Some (base_url +:+ "&page=" +:+ PyStr.str page_num)
            else Some (base_url +:+ "?page=" +:+ PyStr.str page_num)
        | None => None   (* ValueError, swallowed by the [except] of the loop *)
        end
      else None
  | LiPlain | LiStale => None
  end.

(** The value of the longest run of decimal digits that starts [s], when
    there is at least one: [int(match.group(1))] for a match of [(\d+)] at the
    start of [s]. *)
Fixpoint digits_value (acc : N) (s : string) : N :=
  match s with
  | EmptyString => acc
  | String c s' =>
      match PyStr.digit_value c with
      | Some d => digits_value (10 * acc + d)%N s'
      | None => acc
      end
  end.

Definition leading_int (s : string) : option N :=
  match s with
  | EmptyString => None
  | String c _ =>
      match PyStr.digit_value c with
      | Some _ => Some (digits_value 0%N s)
      | None => None
      end
  end.

(** [s[n:]] *)
Fixpoint drop_chars (n : nat) (s : string) : string :=
  match n, s with
  | O, _ => s
  | S n', String _ s' => drop_chars n' s'
  | S _, EmptyString => EmptyString
  end.

(** [re.search(r'page=(\d+)', url)]: the leftmost position where [page=] is
    followed by a digit; the result is the number captured there. *)
Fixpoint search_page (url : string) : option N :=
  let here :=
    if PyStr.startswith "page=" url then leading_int (drop_chars 5 url)
    else None in
  match here with
  | Some n => Some n
  | None =>
      match url with
      | EmptyString => None
      | String _ url' => search_page url'
      end
  end.

(** Lines 377-379 and 826-828: [get_page_num]. *)
Definition get_page_num (url : string) : N :=
  match search_page url with
  | Some n => n
  | None => 999%N
  end.

(** The iteration order of a Python [set] of strings is not specified by the
    language: it may be any duplicate-free arrangement of the elements.  The
    enumerator is stated for every such order. *)
Class SetOrder := {
  set_iter : list string → list string;
  set_iter_NoDup : ∀ xs, NoDup (set_iter xs);
  set_iter_elem : ∀ xs x, x ∈ set_iter xs ↔ x ∈ xs
}.

(** One order: each element where it first occurs. *)
Program Instance first_seen_order : SetOrder := {|
  set_iter := remove_dups
|}.
Next Obligation. apply NoDup_remove_dups. Qed.
Next Obligation. intros. apply elem_of_remove_dups. Qed.

(** Another one: each element where it last occurs, the whole reversed. *)
Program Instance last_seen_order : SetOrder := {|
  set_iter := λ xs, remove_dups (reverse xs)
|}.
Next Obligation. intros. apply NoDup_remove_dups. Qed.
Next Obligation. intros. rewrite elem_of_remove_dups. apply elem_of_reverse. Qed.

Definition page_le (a b : string) : bool := (get_page_num a <=? get_page_num b)%N.

(** Lines 337-387 and 794-835 when no driver call fails outside the loop:
    [pagination_list] is [None] when the list element was not found, and
    otherwise holds its [<li>] elements. *)
Definition page_urls `{SetOrder} (current_url : string)
    (pagination_list : option (list li_element)) : list string :=
  match pagination_list with
  | Some li_elements =>
      sorted page_le (set_iter (omap (li_page_url (base_url_of current_url)) li_elements))
  | None => [current_url]
  end.

(** ** Notions used to state the properties *)

(** The key under which the merge loop files a batch record. *)
Definition key_of (e : employee) : string := PyStr.strip (Profile_URL e).

(** The record that the loop inserts for a batch record with a new key. *)
Definition inserted (e : employee) : employee :=
  Employee (key_of e) (Description e) (Company e).

(** The effect of one iteration on [all_data] alone. *)
Definition step_data (update_mode : bool) (D : gmap string employee)
    (e : employee) : gmap string employee :=
  if PyStr.truthy (key_of e) then
    match D !! key_of e with
    | Some existing => if update_mode then <[key_of e := enrich existing e]> D else D
    | None => <[key_of e := inserted e]> D
    end
  else D.

(** The non-empty keys of a batch. *)
Definition batch_keys (B : list employee) : gset string :=
  list_to_set (filter (λ k, PyStr.truthy k = true) (key_of <$> B)).

(** The records of a batch filed under the key [k], in batch order. *)
Definition filed_under (k : string) (B : list employee) : list employee :=
  filter (λ e, key_of e = k) B.

(** What one record filed under a key does to the entry of that key. *)
Definition key_step (update_mode : bool) (entry : option employee)
    (e : employee) : option employee :=
  match entry with
  | Some existing => Some (if update_mode then enrich existing e else existing)
  | None => Some (inserted e)
  end.

(** Line 141: the condition under which the description is replaced. *)
Definition wants_description (existing e : employee) : bool :=
  PyStr.truthy (Description e)
  && (negb (PyStr.truthy (Description existing))
      || (String.length (Description existing) <? String.length (Description e))).

(** Line 143: the condition under which the company is replaced. *)
Definition wants_company (existing e : employee) : bool :=
  PyStr.truthy (Company e) && negb (PyStr.truthy (Company existing)).

(** What a run of enrichments can have done to a record. *)
Record enriched_from (es : list employee) (r r' : employee) : Prop := {
  enriched_url : Profile_URL r' = Profile_URL r;
  enriched_length :
    String.length (Description r) ≤ String.length (Description r');
  enriched_description :
    Description r' ≠ Description r →
    ∃ e, e ∈ es ∧ Description e = Description r'
         ∧ Description e ≠ EmptyString
         ∧ (Description r = EmptyString
            ∨ String.length (Description r) < String.length (Description e));
  enriched_company :
    Company r' ≠ Company r →
    Company r = EmptyString
    ∧ ∃ e, e ∈ es ∧ Company e = Company r' ∧ Company e ≠ EmptyString
}.

(** A record that has nothing more to take from [e]: neither condition of
    lines 141 and 143 holds. *)
Definition absorbed (r e : employee) : Prop :=
  wants_description r e = false ∧ wants_company r e = false.

(** A dict of references is well formed over a heap when every reference is
    to a live record and no record is shared by two keys. *)
Definition wf_refs (h : gmap loc employee) (d : gmap string loc) : Prop :=
  (∀ k l, d !! k = Some l → is_Some (h !! l))
  ∧ (∀ k1 k2 l, d !! k1 = Some l → d !! k2 = Some l → k1 = k2).

(** Writing a dataset to the store and loading the store again: lines
    158-164 followed by lines 68-77. *)
Definition reload (D : gmap string employee) : exn + gmap string employee :=
  load_rows (read_text (csv_rows_of D)).

(** A field that loading gives back as it was written: no leading or
    trailing whitespace, no carriage return, and no more characters than the
    reader accepts. *)
Definition clean_field (s : string) : Prop :=
  PyStr.strip s = s ∧ PyStr.contains (String CR EmptyString) s = false
  ∧ within_limit s = true.

(** A dataset as the program builds it, every record under its own non-empty
    url, with clean fields. *)
Definition clean_dataset (D : gmap string employee) : Prop :=
  ∀ k r, D !! k = Some r →
    Profile_URL r = k ∧ k ≠ EmptyString
    ∧ clean_field k ∧ clean_field (Description r) ∧ clean_field (Company r).

(** [sub] occurs in [s]. *)
Definition occurs_in (sub s : string) : Prop :=
  ∃ pre post, s = pre +:+ sub +:+ post.

(** The description names the company: its lower-cased name, or that name
    cleaned as on line 325, occurs in the lower-cased description. *)
Definition names_company (description company : string) : Prop :=
  occurs_in (PyStr.lower company) (PyStr.lower description)
  ∨ occurs_in (company_clean (PyStr.lower company)) (PyStr.lower description).

(** The addresses that the controls of a pagination list contribute, in the
    order of the controls, duplicates included. *)
Definition collected (current_url : string) (li_elements : list li_element)
  : list string :=
  omap (li_page_url (base_url_of current_url)) li_elements.

(** The order that [sorted(..., key=get_page_num)] establishes. *)
Definition page_order (a b : string) : Prop :=
  (get_page_num a ≤ get_page_num b)%N.

(** The dataset that a call of [save_employee_data] starts from: the records
    of the dict handed in, or what the store holds when none is (empty when
    the file is missing or cannot be loaded). *)
Definition starting_dataset (all_existing_data : option (gmap string loc))
    (env : io_env) (s : pystate) : gmap string employee :=
  match all_existing_data with
  | Some d => deref (heap s) d
  | None =>
      match output_csv s, on_read env with
      | Some f, None =>
          match load_rows (read_text f) with
          | inr m => m
          | inl _ => ∅
          end
      | _, _ => ∅
      end
  end.

(** ** Notions used to state further properties *)

From Stdlib Require DecimalN.

(** A dataset whose records are stored under their own url, the url
    non-empty and stripped: what lines 73-77 and 149-153 build. *)
Definition keyed_dataset (D : gmap string employee) : Prop :=
  ∀ k r, D !! k = Some r →
    Profile_URL r = k ∧ k ≠ EmptyString ∧ PyStr.strip k = k.

(** A batch whose fields come back from the store as they are written:
    the url, which is filed stripped, has no carriage return and fits the
    reader's limit once stripped; the other fields are clean. *)
Definition clean_batch (B : list employee) : Prop :=
  ∀ e, e ∈ B →
    PyStr.contains (String CR EmptyString) (Profile_URL e) = false
    ∧ within_limit (key_of e) = true
    ∧ clean_field (Description e) ∧ clean_field (Company e).

(** The batch records that the merge loop does not skip. *)
Definition filed (B : list employee) : list employee :=
  filter (λ e, PyStr.truthy (key_of e) = true) B.

(** Line 168 and line 170: the message of a flush that succeeded. *)
Definition flush_message (update_mode : bool) (page_num : option nat)
    (new updated : nat) : string :=
  if update_mode then
    "Updated " +:+ PyStr.str (N.of_nat updated)
    +:+ " records, added " +:+ PyStr.str (N.of_nat new)
    +:+ " new" +:+ page_info page_num
  else
    "Saved " +:+ PyStr.str (N.of_nat new)
    +:+ " new records" +:+ page_info page_num.

(** The order of the rows of the store: strictly ascending keys. *)
Definition item_lt (x y : string * employee) : Prop := String.ltb x.1 y.1 = true.

(** ** The list of companies: [read_companies] *)

(** Lines 42-45: the body of the loop of [read_companies]. *)
Definition company_row (names : csv_row) (acc : exn + list string)
    (row : csv_row) : exn + list string :=
  match acc with
  | inl e => inl e
  | inr companies =>
      match reader_next row with
      | inl e => inl e
      | inr [] => inr companies   (* DictReader skips empty rows *)
      | inr _ =>
          match get_strip (DictReader_row names row) "Name" with
          | inl e => inl e
          | inr company_name =>
              if PyStr.truthy company_name
              then inr (companies ++ [company_name])
              else inr companies
          end
      end
  end.

(** Lines 40-45 on the rows read. *)
Definition company_rows (f : csv_file) : exn + list string :=
  match f with
  | [] => inr []
  | names :: rows =>
      match reader_next names with
      | inl e => inl e
      | inr names => fold_left (company_row names) rows (inr [])
      end
  end.

(** Lines 31-53.  [companies_csv] is the content of [COMPANIES_CSV], [None]
    when the file does not exist; [path] is how the path prints; the result
    is the list returned and what is logged. *)
Definition read_companies (path : string) (companies_csv : option csv_file)
    (on_read : option string) : list string * list log_record :=
  match companies_csv with
  | None => ([], [(ERROR, "File " +:+ path +:+ " not found")])
  | Some f =>
      let read :=
        match on_read with
        | Some msg => inl (OSError msg)
        | None => company_rows (read_text f)
        end in
      match read with
      | inr companies =>
          (companies,
           [(INFO, "Loaded " +:+ PyStr.str (N.of_nat (length companies))
                   +:+ " companies from CSV file")])
      | inl e => ([], [(ERROR, "Error reading CSV file: " +:+ exn_str e)])
      end
  end.

(** ** Validation: [validate_employee_data] *)

(** [d.get(key, '')] on a dict of strings. *)
Definition py_get (d : gmap string string) (key : string) : string :=
  default EmptyString (d !! key).

(** Lines 85-99. *)
Definition validate_employee_data (employee : gmap string string) : bool :=
  let has_name :=
    PyStr.truthy (PyStr.strip (py_get employee "First_Name"))
    || PyStr.truthy (PyStr.strip (py_get employee "Last_Name")) in
  let has_url :=
    PyStr.truthy (PyStr.strip (py_get employee "Profile_URL"))
    && PyStr.contains "/in/" (py_get employee "Profile_URL") in
  has_name && has_url.

(** The dict that the scraper builds for a record (lines 653-657 of
    [linkedin_scraper.py], lines 149-153 of [utils.py]). *)
Definition record_dict (e : employee) : gmap string string :=
  {[ "Profile_URL" := Profile_URL e;
     "Description" := Description e;
     "Company" := Company e ]}.

(** ** The company of the records of a page:
    [extract_employees_from_current_page] *)

(** [emp['Company'] = company] *)
Definition with_company (emp : employee) (company : string) : employee :=
  Employee (Profile_URL emp) (Description emp) company.

(** Lines 466-483 of [linkedin_scraper.py]: the body of the loop. *)
Definition assign_page_company (company_name : string)
    (companies_list : list string) (emp : employee) : employee :=
  if negb (PyStr.truthy (Company emp)) || bool_decide (Company emp = company_name)
  then
    let description := Description emp in
    if PyStr.truthy description then
      let assigned_company :=
        assign_company_from_description description companies_list in
      if PyStr.truthy assigned_company then with_company emp assigned_company
      else if PyStr.truthy company_name then with_company emp company_name
           else emp
    else if PyStr.truthy company_name then with_company emp company_name
         else emp
  else if negb (PyStr.truthy (Company emp)) then with_company emp company_name
       else emp.

(** Lines 462-485, from the records that [_extract_visible_employees]
    returned for the page; an absent [companies_list] is the empty list. *)
Definition extract_employees_from_current_page (company_name : string)
    (companies_list : list string) (visible : list employee) : list employee :=
  match companies_list with
  | [] => visible
  | _ => map (assign_page_company company_name companies_list) visible
  end.

(** How the company of a record after the pass relates to the record
    before it. *)
Definition company_provenance (company_name : string)
    (companies_list : list string) (before after : employee) : Prop :=
  Profile_URL after = Profile_URL before
  ∧ Description after = Description before
  ∧ (Company after = Company before
     ∨ (Company after = company_name ∧ company_name ≠ EmptyString)
     ∨ (Company after ∈ companies_list
        ∧ Company after ≠ EmptyString
        ∧ names_company (Description before) (Company after))).

(** ** Filling in existing profiles: the loop of [update_existing_profiles] *)

(** Lines 868-874 of [linkedin_scraper.py]: the record after the two
    assignments, and [needs_update]. *)
Definition fill (data emp : employee) : employee * bool :=
  let fill_description :=
    negb (PyStr.truthy (Description data)) && PyStr.truthy (Description emp) in
  let data1 :=
    if fill_description
    then Employee (Profile_URL data) (Description emp) (Company data)
    else data in
  let fill_company :=
    negb (PyStr.truthy (Company data1)) && PyStr.truthy (Company emp) in
  let data2 :=
    if fill_company
    then Employee (Profile_URL data1) (Description data1) (Company emp)
    else data1 in
  (data2, fill_description || fill_company).

(** The variables that the loop updates: [existing_data], [updated_count],
    [skipped_count] and [company_updated]. *)
Record fill_state := FillState {
  fill_existing_data : gmap string employee;
  fill_updated_count : nat;
  fill_skipped_count : nat;
  fill_company_updated : nat
}.

(** Lines 858-882: one iteration. *)
Definition fill_step (st : fill_state) (emp : employee) : fill_state :=
  let url := Profile_URL emp in
  if PyStr.truthy url then
    match fill_existing_data st !! url with
    | Some data =>
        let '(data', needs_update) := fill data emp in
        if needs_update then
          FillState (<[url := data']> (fill_existing_data st))
                    (S (fill_updated_count st)) (fill_skipped_count st)
                    (S (fill_company_updated st))
        else
          FillState (<[url := data']> (fill_existing_data st))
                    (fill_updated_count st) (S (fill_skipped_count st))
                    (fill_company_updated st)
    | None => st
    end
  else st.

(** Lines 857-882: the loop over the records of a page. *)
Definition fill_page (st : fill_state) (page_employees : list employee)
  : fill_state :=
  fold_left fill_step page_employees st.

(** A record with a description and a company: lines 739-740 count the
    others. *)
Definition complete (data : employee) : bool :=
  PyStr.truthy (Description data) && PyStr.truthy (Company data).

(** Lines 739-740: [profiles_needing_update]. *)
Definition profiles_needing_update (existing_data : gmap string employee) : nat :=
  size (filter (λ kv, complete kv.2 = false) existing_data).

(** The page records that the loop finds in the dataset. *)
Definition known (D : gmap string employee) (page : list employee)
  : list employee :=
  filter (λ emp, PyStr.truthy (Profile_URL emp) = true
                 ∧ is_Some (D !! Profile_URL emp)) page.

(** What the loop can have done to a record. *)
Record filled_from (es : list employee) (r r' : employee) : Prop := {
  filled_url : Profile_URL r' = Profile_URL r;
  filled_description_kept :
    Description r ≠ EmptyString → Description r' = Description r;
  filled_company_kept : Company r ≠ EmptyString → Company r' = Company r;
  filled_description :
    Description r' ≠ Description r →
    ∃ e, e ∈ es ∧ Description e = Description r' ∧ Description e ≠ EmptyString;
  filled_company :
    Company r' ≠ Company r →
    ∃ e, e ∈ es ∧ Company e = Company r' ∧ Company e ≠ EmptyString
}.

(** ** Collecting the records of a company: the loops of
    [extract_employees] and the end of [process_company] *)

(** An element of [all_employees]: a dict of a page, or, after
    [emp = existing], the dict that [existing_data] holds under a url. *)
Inductive member :=
  | Own (emp : employee)
  | Existing (url : string).

(** The record that an element stands for. *)
Definition member_value (existing_data : gmap string employee) (m : member)
  : option employee :=
  match m with
  | Own emp => Some emp
  | Existing url => existing_data !! url
  end.

Record collect_state := CollectState {
  collect_existing_data : gmap string employee;
  all_employees : list member
}.

(** The values of a list, each where it first occurs. *)
Definition first_occurrences {A} `{EqDecision A} (l : list A) : list A :=
  reverse (remove_dups (reverse l)).

(** The records of [all_employees], as a batch. *)
Definition collected_employees (st : collect_state) : list employee :=
  omap (member_value (collect_existing_data st)) (all_employees st).

(** Lines 414-436 of [linkedin_scraper.py]: one iteration.  [x not in l]
    compares dicts by value. *)
Definition collect_step (update_mode : bool) (st : collect_state)
    (emp : employee) : collect_state :=
  let url := Profile_URL emp in
  if PyStr.truthy url then
    match (if update_mode then collect_existing_data st !! url else None) with
    | Some existing =>
        if complete existing then st
        else
          let st1 :=
            CollectState (<[url := (fill existing emp).1]> (collect_existing_data st))
                         (all_employees st) in
          if bool_decide ((fill existing emp).1 ∈ collected_employees st1)
          then st1
          else CollectState (collect_existing_data st1)
                            (all_employees st1 ++ [Existing url])
    | None =>
        if bool_decide (emp ∈ collected_employees st) then st
        else CollectState (collect_existing_data st)
                          (all_employees st ++ [Own emp])
    end
  else st.

(** Lines 413-436 over the pages of a company, in the order of the visit. *)
Definition collect_pages (update_mode : bool) (st : collect_state)
    (pages : list (nat * list employee)) : collect_state :=
  fold_left (λ st page, fold_left (collect_step update_mode) page.2 st) pages st.

(** Lines 440-441: the flush of the page numbered [idx]. *)
Definition flush_page (update_mode : bool) (env : io_env) (s : pystate)
    (page : nat * list employee) : pystate :=
  match page.2 with
  | [] => s
  | page_employees =>
      (save_employee_data page_employees (Some page.1) update_mode None env s).2
  end.

(** Lines 709-711: the flush at the end of [process_company], which is
    reached in fresh mode only (lines 693-695). *)
Definition final_flush (env : io_env) (s : pystate) (employees : list employee)
  : pystate :=
  match employees with
  | [] => s
  | _ => (save_employee_data employees None false None env s).2
  end.

(** The records of the pages, one page after the other. *)
Definition page_records (pages : list (nat * list employee)) : list employee :=
  concat (map snd pages).

(** What [re.search] finds at the very start of [url]: the number captured
    by [page=(\d+)] when the pattern matches there. *)
Definition page_match_at (url : string) : option N :=
  if PyStr.startswith "page=" url then leading_int (drop_chars 5 url)
  else None.

(** The value of a decimal numeral, most significant digit first, on top of
    [acc]. *)
Fixpoint uint_value (acc : N) (d : Decimal.uint) : N :=
  match d with
  | Decimal.Nil => acc
  | Decimal.D0 d => uint_value (10 * acc)%N d
  | Decimal.D1 d => uint_value (10 * acc + 1)%N d
  | Decimal.D2 d => uint_value (10 * acc + 2)%N d
  | Decimal.D3 d => uint_value (10 * acc + 3)%N d
  | Decimal.D4 d => uint_value (10 * acc + 4)%N d
  | Decimal.D5 d => uint_value (10 * acc + 5)%N d
  | Decimal.D6 d => uint_value (10 * acc + 6)%N d
  | Decimal.D7 d => uint_value (10 * acc + 7)%N d
  | Decimal.D8 d => uint_value (10 * acc + 8)%N d
  | Decimal.D9 d => uint_value (10 * acc + 9)%N d
  end.

(** Lines 366-369: the address built for the page number [page_num]. *)
Definition numbered_page_url (base_url : string) (page_num : N) : string :=
  if PyStr.contains "?" base_url
  then base_url +:+ "&page=" +:+ PyStr.str page_num
  else base_url +:+ "?page=" +:+ PyStr.str page_num.

#[local] Set Warnings "-clear-no-such-hyp".

(** * Properties *)

(** ** Strings *)

Lemma truthy_true (s : string) : PyStr.truthy s = true ↔ s ≠ EmptyString.
Proof. destruct s; simpl; split; congruence. Qed.

Lemma truthy_false (s : string) : PyStr.truthy s = false ↔ s = EmptyString.
Proof. destruct s; simpl; split; congruence. Qed.

Lemma truthy_length (s : string) : PyStr.truthy s = true ↔ 0 < String.length s.
Proof. destruct s; simpl; split; (congruence || lia). Qed.

(** ** The merge loop *)

Section Merge.
Implicit Types (D : gmap string employee) (B : list employee) (e r : employee).

Lemma merge_step_data m st e :
  all_data (merge_step m st e) = step_data m (all_data st) e.
Proof.
  unfold merge_step, step_data, key_of, inserted.
  destruct (PyStr.truthy _); [|done].
  destruct (all_data st !! _); [|done]. by destruct m.
Qed.

Lemma fold_merge_step m B st :
  all_data (fold_left (merge_step m) B st) = fold_left (step_data m) B (all_data st).
Proof.
  revert st. induction B as [|e B IH]; intros st; simpl; [done|].
  by rewrite IH, merge_step_data.
Qed.

Lemma merge_fold m D B : merge m D B = fold_left (step_data m) B D.
Proof. unfold merge, merge_loop. by rewrite fold_merge_step. Qed.

Lemma merge_nil m D : merge m D [] = D.
Proof. by rewrite merge_fold. Qed.

Lemma merge_cons m D e B : merge m D (e :: B) = merge m (step_data m D e) B.
Proof. by rewrite !merge_fold. Qed.

Lemma merge_snoc m D B e : merge m D (B ++ [e]) = step_data m (merge m D B) e.
Proof. rewrite !merge_fold. by rewrite fold_left_app. Qed.

Lemma dom_step_data m D e :
  dom (step_data m D e)
  = dom D ∪ (if PyStr.truthy (key_of e) then {[key_of e]} else ∅).
Proof.
  unfold step_data. destruct (PyStr.truthy (key_of e)); [|set_solver].
  destruct (D !! key_of e) as [r|] eqn:Hk.
  - assert (key_of e ∈ dom D) by (apply elem_of_dom; eauto).
    destruct m; [rewrite dom_insert_L|]; set_solver.
  - rewrite dom_insert_L. set_solver.
Qed.

Lemma dom_merge m D B : dom (merge m D B) = dom D ∪ batch_keys B.
Proof.
  revert D. induction B as [|e B IH]; intros D.
  - rewrite merge_nil. unfold batch_keys. set_solver.
  - rewrite merge_cons, IH, dom_step_data. unfold batch_keys.
    rewrite fmap_cons, filter_cons.
    destruct (PyStr.truthy (key_of e)) eqn:Ht.
    + rewrite decide_True by done. set_solver.
    + rewrite decide_False by congruence. set_solver.
Qed.

(** The entry of a key after the merge is decided by the records filed
    under that key alone, taken in batch order. *)
Lemma step_data_lookup m D e k :
  step_data m D e !! k
  = if decide (key_of e = k ∧ PyStr.truthy k = true)
    then key_step m (D !! k) e else D !! k.
Proof.
  unfold step_data. case_decide as Hk.
  - destruct Hk as [<- Ht]. rewrite Ht. unfold key_step.
    destruct (D !! key_of e) as [r|] eqn:Hr.
    + destruct m; [by rewrite lookup_insert_eq | done].
    + by rewrite lookup_insert_eq.
  - destruct (PyStr.truthy (key_of e)) eqn:Ht; [|done].
    assert (key_of e ≠ k) by (intros <-; tauto).
    destruct (D !! key_of e); [destruct m|]; by rewrite ?lookup_insert_ne.
Qed.

Lemma merge_lookup m D B k :
  PyStr.truthy k = true →
  merge m D B !! k = fold_left (key_step m) (filed_under k B) (D !! k).
Proof.
  intros Ht. revert D. induction B as [|e B IH]; intros D.
  - by rewrite merge_nil.
  - rewrite merge_cons, IH, step_data_lookup. unfold filed_under.
    rewrite filter_cons. destruct (decide (key_of e = k)) as [Hk|Hk].
    + by rewrite decide_True.
    + rewrite decide_False by tauto. done.
Qed.

Lemma merge_lookup_blank m D B k :
  PyStr.truthy k = false → merge m D B !! k = D !! k.
Proof.
  intros Ht. revert D. induction B as [|e B IH]; intros D.
  - by rewrite merge_nil.
  - rewrite merge_cons, IH, step_data_lookup.
    rewrite decide_False; [done|]. intros [_ ?]. congruence.
Qed.

Lemma fold_key_step_Some m es r :
  fold_left (key_step m) es (Some r)
  = Some (if m then fold_left enrich es r else r).
Proof.
  revert r. induction es as [|e es IH]; intros r; simpl.
  - by destruct m.
  - rewrite IH. by destruct m.
Qed.
End Merge.

(** ** Update mode and new keys (C1) *)

(** C1, as stated, fails: merging a one-record batch into the empty dataset
    in update mode yields a dataset that has the record's key. *)
Lemma update_merge_adds_key :
  dom (merge true ∅ [Employee "u1" "" ""]) ≠ dom (∅ : gmap string employee).
Proof.
  intros Heq.
  assert (Hin : "u1" ∈ dom (merge true ∅ [Employee "u1" "" ""])).
  { apply elem_of_dom. vm_compute. eauto. }
  rewrite Heq, dom_empty_L in Hin. by apply not_elem_of_empty in Hin.
Qed.

(** C1, amended: in update mode the key set of the merged dataset is the key
    set of [D] together with the non-empty stripped urls of the batch.  A key
    absent from [D] is not ignored: its entry is the first record filed under
    it, inserted with its description and company, then enriched by the later
    records filed under the same key. *)
Theorem update_merge_keys (D : gmap string employee) (B : list employee) :
  dom (merge true D B) = dom D ∪ batch_keys B
  ∧ ∀ k, PyStr.truthy k = true → D !! k = None →
      merge true D B !! k
      = match filed_under k B with
        | [] => None
        | e :: es => Some (fold_left enrich es (inserted e))
        end.
Proof.
  split; [apply dom_merge|].
  intros k Ht Hnone. rewrite merge_lookup, Hnone by done.
  destruct (filed_under k B) as [|e es]; [done|].
  simpl. by rewrite fold_key_step_Some.
Qed.

(** ** Fresh mode leaves existing entries alone (C2) *)

Lemma fold_key_step_fresh es :
  fold_left (key_step false) es None = inserted <$> head es.
Proof.
  destruct es as [|e es]; [done|]. simpl. by rewrite fold_key_step_Some.
Qed.

(** C2, as stated, fails: a batch record is not inserted as it is under
    its own url.  When the url is padded with spaces nothing is stored under
    that url; the record is filed under the stripped url, and what is stored
    there is not the batch record. *)
Lemma fresh_merge_strips_url :
  let e := Employee " u1 " "d1" "Acme" in
  merge false ∅ [e] !! Profile_URL e = None
  ∧ merge false ∅ [e] !! "u1" = Some (Employee "u1" "d1" "Acme")
  ∧ Employee "u1" "d1" "Acme" ≠ e.
Proof.
  intros e. split; [by vm_compute|]. split; [by vm_compute|]. by intros [=].
Qed.

(** C2, amended: in fresh mode every entry of [D] is in the merged dataset
    unchanged, and the entry of a key absent from [D] is made from the first
    batch record whose stripped url is that key: it is stored under the
    stripped url, with the stripped url as its url and with its description
    and company as they are; nothing is filed under the empty key. *)
Theorem fresh_merge_frame (D : gmap string employee) (B : list employee)
    (k : string) :
  merge false D B !! k
  = match D !! k with
    | Some r => Some r
    | None => if PyStr.truthy k then inserted <$> head (filed_under k B) else None
    end.
Proof.
  destruct (PyStr.truthy k) eqn:Ht.
  - rewrite merge_lookup by done.
    destruct (D !! k) as [r|].
    + by rewrite fold_key_step_Some.
    + apply fold_key_step_fresh.
  - rewrite merge_lookup_blank by done. by destruct (D !! k).
Qed.

(** ** The completeness-preferring rule of update mode (C3) *)

Lemma enrich_fields existing e :
  enrich existing e
  = Employee (Profile_URL existing)
      (if wants_description existing e then Description e else Description existing)
      (if wants_company existing e then Company e else Company existing).
Proof.
  unfold enrich, wants_description, wants_company.
  destruct existing as [u d c], e as [u' d' c']; simpl.
  destruct (PyStr.truthy d' && _); simpl; by destruct (PyStr.truthy c' && _).
Qed.

Lemma wants_description_spec existing e :
  wants_description existing e = true
  ↔ Description e ≠ EmptyString
    ∧ (Description existing = EmptyString
       ∨ String.length (Description existing) < String.length (Description e)).
Proof.
  unfold wants_description.
  rewrite andb_true_iff, orb_true_iff, negb_true_iff, Nat.ltb_lt.
  by rewrite truthy_true, truthy_false.
Qed.

Lemma wants_company_spec existing e :
  wants_company existing e = true
  ↔ Company e ≠ EmptyString ∧ Company existing = EmptyString.
Proof.
  unfold wants_company.
  by rewrite andb_true_iff, negb_true_iff, truthy_true, truthy_false.
Qed.

(** A replaced description is strictly longer than the one it replaces. *)
Lemma wants_description_longer existing e :
  wants_description existing e = true →
  String.length (Description existing) < String.length (Description e).
Proof.
  rewrite wants_description_spec. intros [Hne [Hex|Hlt]]; [|done].
  rewrite Hex. simpl. apply truthy_length. by apply truthy_true.
Qed.

Lemma enriched_from_fold es r : enriched_from es r (fold_left enrich es r).
Proof.
  induction es as [|e es IH] using rev_ind.
  - split; simpl; [done|lia|done|done].
  - rewrite fold_left_app. simpl.
    set (r1 := fold_left enrich es r) in *.
    destruct IH as [Hu Hl Hd Hc].
    rewrite enrich_fields. split; simpl.
    + done.
    + destruct (wants_description r1 e) eqn:Hw; [|done].
      apply wants_description_longer in Hw. lia.
    + destruct (wants_description r1 e) eqn:Hw.
      * intros _. exists e. split; [set_solver|]. split; [done|].
        pose proof (wants_description_longer _ _ Hw).
        apply wants_description_spec in Hw as [Hne _].
        split; [done|]. right. lia.
      * intros Hne. destruct (Hd Hne) as (e0 & ? & ? & ? & ?).
        exists e0. split; [set_solver|]. done.
    + destruct (wants_company r1 e) eqn:Hw.
      * intros _. apply wants_company_spec in Hw as [Hne Hempty].
        destruct (decide (Company r1 = Company r)) as [Heq|Hneq].
        -- split; [congruence|]. exists e. split; [set_solver|]. done.
        -- destruct (Hc Hneq) as [_ (e0 & _ & He0 & Hne0)]. congruence.
      * intros Hne. destruct (Hc Hne) as [? (e0 & ? & ? & ?)].
        split; [done|]. exists e0. split; [set_solver|]. done.
Qed.

(** C3: in update mode the entry of a key of [D] stays under its url and is
    the old entry enriched by the batch records filed under the key.  Its
    description is never shorter than the old one; it differs from the old
    one only by being the non-empty description of such a record, with the
    old one empty or strictly shorter; its company differs from the old one
    only if the old one was empty, and is then the non-empty company of such
    a record.  For a single incoming record the two conditions are also
    sufficient. *)
Theorem update_merge_rule (D : gmap string employee) (B : list employee)
    (k : string) (r : employee) :
  D !! k = Some r →
  (∃ r', merge true D B !! k = Some r'
         ∧ enriched_from (filed_under k B) r r')
  ∧ ∀ e, key_of e = k → PyStr.truthy k = true →
      merge true D [e] !! k = Some (enrich r e)
      ∧ (Description e ≠ EmptyString
         ∧ (Description r = EmptyString
            ∨ String.length (Description r) < String.length (Description e)) →
         Description (enrich r e) = Description e)
      ∧ (Company e ≠ EmptyString ∧ Company r = EmptyString →
         Company (enrich r e) = Company e).
Proof.
  intros Hr. split.
  - destruct (PyStr.truthy k) eqn:Ht.
    + exists (fold_left enrich (filed_under k B) r). split.
      * by rewrite merge_lookup, Hr, fold_key_step_Some.
      * apply enriched_from_fold.
    + exists r. split; [by rewrite merge_lookup_blank|].
      split; [done|lia|done|done].
  - intros e Hk Ht. split; [|split].
    + rewrite merge_lookup, Hr by done. unfold filed_under.
      rewrite filter_cons, decide_True by done. done.
    + intros Hw. apply wants_description_spec in Hw.
      rewrite enrich_fields. simpl. by rewrite Hw.
    + intros Hw. apply wants_company_spec in Hw.
      rewrite enrich_fields. simpl. by rewrite Hw.
Qed.

(** The rule at the second scenario of the specification. *)
Lemma update_merge_rule_witness :
  let D := {["u1" := Employee "u1" "short" ""]} : gmap string employee in
  let B := [Employee "u1" "much longer text" "Acme"] in
  D !! "u1" = Some (Employee "u1" "short" "")
  ∧ merge true D B !! "u1" = Some (Employee "u1" "much longer text" "Acme")
  ∧ ∃ r', merge true D B !! "u1" = Some r'
          ∧ enriched_from (filed_under "u1" B) (Employee "u1" "short" "") r'.
Proof.
  intros D B.
  assert (HD : D !! "u1" = Some (Employee "u1" "short" "")) by reflexivity.
  split; [exact HD|]. split; [vm_compute; reflexivity|].
  exact (proj1 (update_merge_rule D B "u1" _ HD)).
Defined.

(** ** Idempotence of update mode (C4) *)

Lemma wants_description_enrich r e2 e :
  wants_description r e = false → wants_description (enrich r e2) e = false.
Proof.
  intros Hw. apply not_true_iff_false. intros Hw'.
  apply not_true_iff_false in Hw. apply Hw.
  apply wants_description_spec in Hw' as [Hne Hlen].
  apply wants_description_spec. split; [done|].
  rewrite enrich_fields in Hlen. simpl in Hlen.
  destruct (wants_description r e2) eqn:H2; [|done].
  pose proof (wants_description_longer _ _ H2) as Hlt.
  destruct Hlen as [Hempty|Hlen].
  - rewrite Hempty in Hlt. simpl in Hlt. lia.
  - right. lia.
Qed.

Lemma wants_company_enrich r e2 e :
  wants_company r e = false → wants_company (enrich r e2) e = false.
Proof.
  intros Hw. apply not_true_iff_false. intros Hw'.
  apply not_true_iff_false in Hw. apply Hw.
  apply wants_company_spec in Hw' as [Hne Hc].
  apply wants_company_spec. split; [done|].
  rewrite enrich_fields in Hc. simpl in Hc.
  destruct (wants_company r e2) eqn:H2; [|done].
  apply wants_company_spec in H2 as [? ?]. done.
Qed.

Lemma wants_description_after r e : wants_description (enrich r e) e = false.
Proof.
  apply not_true_iff_false. intros Hw.
  pose proof (wants_description_longer _ _ Hw) as Hlt.
  rewrite enrich_fields in Hlt. simpl in Hlt.
  destruct (wants_description r e) eqn:H1; [lia|].
  apply not_true_iff_false in H1. apply H1.
  apply wants_description_spec in Hw as [Hne _].
  apply wants_description_spec. split; [done|]. right. done.
Qed.

Lemma wants_company_after r e : wants_company (enrich r e) e = false.
Proof.
  apply not_true_iff_false. intros Hw.
  apply wants_company_spec in Hw as [Hne Hc].
  rewrite enrich_fields in Hc. simpl in Hc.
  destruct (wants_company r e) eqn:H1; [done|].
  apply not_true_iff_false in H1. apply H1.
  by apply wants_company_spec.
Qed.

Lemma wants_description_inserted e : wants_description (inserted e) e = false.
Proof.
  apply not_true_iff_false. intros Hw.
  apply wants_description_longer in Hw. simpl in Hw. lia.
Qed.

Lemma wants_company_inserted e : wants_company (inserted e) e = false.
Proof.
  apply not_true_iff_false. intros Hw.
  apply wants_company_spec in Hw as [? ?]. done.
Qed.

(** A record that has nothing more to take from [e]. *)
Lemma enrich_absorbed r e :
  absorbed r e → enrich r e = r.
Proof.
  intros [Hd Hc]. rewrite enrich_fields, Hd, Hc. by destruct r.
Qed.

Lemma absorbed_enrich r e2 e : absorbed r e → absorbed (enrich r e2) e.
Proof.
  intros [Hd Hc]. split;
    [by apply wants_description_enrich | by apply wants_company_enrich].
Qed.

Lemma absorbed_fold es r e : absorbed r e → absorbed (fold_left enrich es r) e.
Proof.
  revert r. induction es as [|e2 es IH]; intros r Ha; simpl; [done|].
  apply IH. by apply absorbed_enrich.
Qed.

Lemma fold_enrich_absorbs es r e :
  e ∈ es → absorbed (fold_left enrich es r) e.
Proof.
  revert r. induction es as [|e2 es IH]; intros r Hin; [by inversion Hin|].
  simpl. apply elem_of_cons in Hin as [->|Hin].
  - apply absorbed_fold. split;
      [apply wants_description_after | apply wants_company_after].
  - by apply IH.
Qed.

Lemma fold_enrich_fixed es r :
  (∀ e, e ∈ es → absorbed r e) → fold_left enrich es r = r.
Proof.
  induction es as [|e es IH]; intros Ha; simpl; [done|].
  rewrite enrich_absorbed by (apply Ha; set_solver).
  apply IH. intros e' ?. apply Ha. set_solver.
Qed.

Lemma key_step_idempotent es entry :
  fold_left (key_step true) es (fold_left (key_step true) es entry)
  = fold_left (key_step true) es entry.
Proof.
  destruct es as [|e0 es]; [done|].
  assert (∃ r, fold_left (key_step true) (e0 :: es) entry = Some r
               ∧ ∀ e, e ∈ e0 :: es → absorbed r e) as (r & -> & Ha).
  { destruct entry as [r0|].
    - rewrite fold_key_step_Some. eexists. split; [done|].
      intros e He. by apply fold_enrich_absorbs.
    - simpl. rewrite fold_key_step_Some. eexists. split; [done|].
      intros e He. apply elem_of_cons in He as [->|He].
      + apply absorbed_fold. split;
          [apply wants_description_inserted | apply wants_company_inserted].
      + by apply fold_enrich_absorbs. }
  rewrite fold_key_step_Some. f_equal. by apply fold_enrich_fixed.
Qed.

(** C4: merging the same batch a second time in update mode changes
    nothing. *)
Theorem update_merge_idempotent (D : gmap string employee) (B : list employee) :
  merge true (merge true D B) B = merge true D B.
Proof.
  apply map_eq. intros k. destruct (PyStr.truthy k) eqn:Ht.
  - rewrite (merge_lookup true (merge true D B)) by done.
    rewrite merge_lookup by done. apply key_step_idempotent.
  - by rewrite !merge_lookup_blank.
Qed.

(** ** The loop over the heap refines the loop over values *)

Lemma deref_lookup h (d : gmap string loc) k :
  deref h d !! k = d !! k ≫= (h !!.).
Proof. unfold deref. apply lookup_omap. Qed.

Lemma store_step_refines m st e :
  wf_refs (store st) (refs st) →
  let st' := store_step m st e in
  wf_refs (store st') (refs st')
  ∧ refs st ⊆ refs st'
  ∧ deref (store st') (refs st') = step_data m (deref (store st) (refs st)) e.
Proof.
  intros [Hlive Hinj]. unfold store_step, step_data, key_of, inserted.
  destruct (PyStr.truthy _) eqn:Ht; simpl; [|done].
  rewrite deref_lookup.
  destruct (refs st !! PyStr.strip (Profile_URL e)) as [l|] eqn:Hl; simpl.
  - destruct (Hlive _ _ Hl) as [existing Hex]. rewrite Hex.
    destruct m; simpl; [|done].
    split; [|split; [done|]].
    + split; [|done]. intros k l' Hk.
      destruct (decide (l = l')) as [->|Hne];
        [rewrite lookup_insert_eq | rewrite lookup_insert_ne by done]; eauto.
    + apply map_eq. intros k. rewrite deref_lookup.
      destruct (decide (PyStr.strip (Profile_URL e) = k)) as [<-|Hne].
      * rewrite Hl, lookup_insert_eq. simpl. by rewrite lookup_insert_eq.
      * rewrite (lookup_insert_ne (deref _ _)) by done. rewrite deref_lookup.
        destruct (refs st !! k) as [l'|] eqn:Hk; simpl; [|done].
        rewrite lookup_insert_ne; [done|]. intros ->. apply Hne. eauto.
  - set (l := fresh (dom (store st))).
    assert (Hfresh : store st !! l = None).
    { apply not_elem_of_dom. apply is_fresh. }
    split; [|split].
    + split.
      * intros k l' Hk. apply lookup_insert_Some in Hk as [[_ <-]|[_ Hk]].
        -- rewrite lookup_insert_eq. eauto.
        -- rewrite lookup_insert_ne; [eauto|].
           intros <-. destruct (Hlive _ _ Hk) as [? ?]. congruence.
      * intros k1 k2 l' H1 H2.
        apply lookup_insert_Some in H1 as [[E1 F1]|[Hn1 H1]];
          apply lookup_insert_Some in H2 as [[E2 F2]|[Hn2 H2]].
        -- congruence.
        -- subst l'. destruct (Hlive _ _ H2) as [? ?]. congruence.
        -- subst l'. destruct (Hlive _ _ H1) as [? ?]. congruence.
        -- eauto.
    + by apply insert_subseteq.
    + apply map_eq. intros k. rewrite deref_lookup.
      destruct (decide (PyStr.strip (Profile_URL e) = k)) as [<-|Hne].
      * rewrite !lookup_insert_eq. simpl. by rewrite lookup_insert_eq.
      * rewrite !lookup_insert_ne by done. rewrite deref_lookup.
        destruct (refs st !! k) as [l'|] eqn:Hk; simpl; [|done].
        rewrite lookup_insert_ne; [done|].
        intros <-. destruct (Hlive _ _ Hk) as [? ?]. congruence.
Qed.

Lemma store_fold_refines m employees st :
  wf_refs (store st) (refs st) →
  let st' := fold_left (store_step m) employees st in
  wf_refs (store st') (refs st')
  ∧ refs st ⊆ refs st'
  ∧ deref (store st') (refs st')
    = fold_left (step_data m) employees (deref (store st) (refs st)).
Proof.
  revert st. induction employees as [|e B IH]; intros st Hwf; simpl; [done|].
  destruct (store_step_refines m st e Hwf) as (Hwf1 & Hsub1 & Heq1).
  destruct (IH _ Hwf1) as (Hwf2 & Hsub2 & Heq2).
  split; [done|]. split; [by etrans|]. by rewrite Heq2, Heq1.
Qed.

(** The dataset that the loop over the heap leaves behind is the merge of the
    values, and the dict handed in still refers to its own records, which now
    hold the merged values. *)
Lemma store_loop_refines m d h employees :
  wf_refs h d →
  let st := store_loop m d h employees in
  deref (store st) (refs st) = merge m (deref h d) employees
  ∧ ∀ k, is_Some (d !! k) →
      deref (store st) d !! k = merge m (deref h d) employees !! k.
Proof.
  intros Hwf st.
  destruct (store_fold_refines m employees (StoreState d h 0 0) Hwf)
    as (_ & Hsub & Heq).
  fold (store_loop m d h employees) in Hsub, Heq. fold st in Hsub, Heq.
  simpl in Hsub, Heq. rewrite merge_fold. split; [done|].
  intros k [l Hl]. rewrite <- Heq, !deref_lookup, Hl.
  by rewrite (lookup_weaken _ _ _ _ Hl Hsub).
Qed.

(** ** A failed write (C9) *)

(** C9, as stated, fails.  In fresh mode nothing of the merged dataset
    outlives the call: after a flush of [u1] whose write fails, the next flush
    reloads the store and persists [u2] alone.  In update mode a key inserted
    by the flush is in the merged dataset and not in the caller's dict. *)
Lemma failed_flush_not_retained :
  let s0 := PyState ∅ (Some [fieldnames]) [] in
  let denied := IoEnv None (Some (OpenFails "denied")) in
  let failed :=
    save_employee_data [Employee "u1" "d" "c"] None false None denied s0 in
  let next :=
    save_employee_data [Employee "u2" "" ""] None false None (IoEnv None None)
                       failed.2 in
  let updated :=
    save_employee_data [Employee "u1" "d" "c"] None true (Some ∅) denied s0 in
  failed.1 = Returned
  ∧ output_csv next.2 = Some [fieldnames; ["u2"; ""; ""]]
  ∧ merge true (deref (heap s0) ∅) [Employee "u1" "d" "c"] !! "u1"
    = Some (Employee "u1" "d" "c")
  ∧ deref (heap updated.2) ∅ !! "u1" = None.
Proof. vm_compute. done. Qed.

(** C9, amended: when the write fails the call still returns normally, the
    last thing logged is the error, and memory is exactly what a successful
    flush leaves: for each key of a dict handed in as [all_existing_data], the
    caller's record holds the merged value.  (The merged dict itself, with the
    keys that the flush inserted, is local to the call.) *)
Theorem write_failure_survived (employees : list employee)
    (page_num : option nat) (update_mode : bool)
    (all_existing_data : option (gmap string loc)) (on_read : option string)
    (wf : write_fault) (s : pystate) :
  employees ≠ [] →
  let failed := save_employee_data employees page_num update_mode
                  all_existing_data (IoEnv on_read (Some wf)) s in
  let flushed := save_employee_data employees page_num update_mode
                   all_existing_data (IoEnv on_read None) s in
  failed.1 = Returned
  ∧ (∃ loaded info,
        logs failed.2
        = (logs s ++ loaded)
          ++ [(ERROR, "Error saving data to CSV: " +:+ exn_str (fault_exn wf))]
        ∧ logs flushed.2 = (logs s ++ loaded) ++ [(INFO, info)])
  ∧ heap failed.2 = heap flushed.2
  ∧ ∀ D, all_existing_data = Some D → wf_refs (heap s) D →
      ∀ k, is_Some (D !! k) →
        deref (heap failed.2) D !! k
        = merge update_mode (deref (heap s) D) employees !! k.
Proof.
  intros Hne. destruct employees as [|e B]; [done|].
  unfold save_employee_data.
  destruct all_existing_data as [d|].
  - simpl. split; [done|]. split; [|split; [done|]].
    + eexists [], _. rewrite app_nil_r. split; reflexivity.
    + intros D [= ->] Hwf k Hk.
      apply (proj2 (store_loop_refines update_mode D (heap s) (e :: B) Hwf) k Hk).
  - unfold load_existing_data. simpl.
    destruct (output_csv s) as [f|] eqn:Hf.
    + destruct (match on_read with
                | Some msg => inl (OSError msg)
                | None => load_rows (read_text f)
                end) as [err|m].
      * simpl. split; [done|]. split; [|split; [done|done]].
        eexists [_], _. split; reflexivity.
      * destruct (alloc_dataset m (heap s)) as [d h]. simpl.
        split; [done|]. split; [|split; [done|done]].
        eexists [_], _. split; reflexivity.
    + simpl. split; [done|]. split; [|split; [done|done]].
      eexists [], _. rewrite app_nil_r. split; reflexivity.
Qed.

(** A failed flush of an enrichment: the caller's record holds the merged
    value. *)
Lemma write_failure_survived_witness :
  let s := PyState {[1%positive := Employee "u1" "short" ""]} None [] in
  let D : gmap string loc := {["u1" := 1%positive]} in
  let B := [Employee "u1" "much longer text" "Acme"] in
  let failed :=
    save_employee_data B None true (Some D)
      (IoEnv None (Some (WriteFails 1 "disk full"))) s in
  B ≠ []
  ∧ wf_refs (heap s) D
  ∧ failed.1 = Returned
  ∧ heap failed.2
    = heap (save_employee_data B None true (Some D) (IoEnv None None) s).2
  ∧ deref (heap failed.2) D !! "u1"
    = merge true (deref (heap s) D) B !! "u1".
Proof.
  intros s D B failed.
  assert (HB : B ≠ []) by done.
  assert (Hwf : wf_refs (heap s) D).
  { split.
    - intros k l Hk. apply lookup_singleton_Some in Hk as [_ <-].
      simpl. rewrite lookup_singleton_eq. eauto.
    - intros k1 k2 l H1 H2.
      apply lookup_singleton_Some in H1 as [<- _].
      by apply lookup_singleton_Some in H2 as [<- _]. }
  pose proof (write_failure_survived B None true (Some D) None
                (WriteFails 1 "disk full") s HB) as (H1 & _ & H3 & H4).
  split; [exact HB|]. split; [exact Hwf|]. split; [exact H1|].
  split; [exact H3|].
  apply (H4 D eq_refl Hwf "u1"). unfold D. rewrite lookup_singleton_eq. eauto.
Defined.

(** ** Empty batches and blank urls (C10) *)

Lemma fold_left_skip {A St} (f : St → A → St) (keep : A → bool) (l : list A)
    (a : St) :
  (∀ a x, keep x = false → f a x = a) →
  fold_left f (filter (λ x, keep x = true) l) a = fold_left f l a.
Proof.
  intros Hskip. revert a. induction l as [|x l IH]; intros a; [done|].
  rewrite filter_cons. destruct (keep x) eqn:Hk.
  - rewrite decide_True by done. simpl. apply IH.
  - rewrite decide_False by congruence. simpl. by rewrite Hskip.
Qed.

Lemma merge_step_blank m st e :
  PyStr.truthy (key_of e) = false → merge_step m st e = st.
Proof. unfold merge_step, key_of. by intros ->. Qed.

Lemma store_step_blank m st e :
  PyStr.truthy (key_of e) = false → store_step m st e = st.
Proof. unfold store_step, key_of. by intros ->. Qed.

(** C10: a call with an empty batch returns at once and leaves the whole
    state as it was, the store file, the log (nothing was loaded) and the
    records, whatever the mode, the dict handed in and the file system; a
    non-empty batch whose write succeeds rewrites the store, header first;
    and the records whose url is empty or only whitespace can be dropped from
    a batch without changing what the loop computes, counts included, over
    values and over the heap. *)
Theorem empty_batch_untouched (page_num : option nat) (update_mode : bool)
    (all_existing_data : option (gmap string loc)) (env : io_env)
    (s : pystate) :
  save_employee_data [] page_num update_mode all_existing_data env s
  = (Returned, s)
  ∧ (∀ e B on_read, ∃ rows,
       output_csv (save_employee_data (e :: B) page_num update_mode
                     all_existing_data (IoEnv on_read None) s).2
       = Some (fieldnames :: rows))
  ∧ (∀ D B,
       merge_loop update_mode D (filter (λ e, PyStr.truthy (key_of e) = true) B)
       = merge_loop update_mode D B)
  ∧ (∀ d h B,
       store_loop update_mode d h (filter (λ e, PyStr.truthy (key_of e) = true) B)
       = store_loop update_mode d h B).
Proof.
  split; [done|]. split; [|split].
  - intros e B on_read. unfold save_employee_data.
    destruct (match all_existing_data with
              | Some d => (d, s)
              | None => load_existing_data (IoEnv on_read None) s
              end) as [d s1].
    simpl. eauto.
  - intros D B. unfold merge_loop.
    apply (fold_left_skip _ (λ e, PyStr.truthy (key_of e))).
    intros st e. apply merge_step_blank.
  - intros d h B. unfold store_loop.
    apply (fold_left_skip _ (λ e, PyStr.truthy (key_of e))).
    intros st e. apply store_step_blank.
Qed.

(** ** Writing the store and loading it again (C8) *)

(** C8, as stated, fails: a description with a leading space comes back
    without it. *)
Lemma reload_strips_description :
  reload {["u1" := Employee "u1" " x" ""]}
  = inr {["u1" := Employee "u1" "x" ""]}
  ∧ reload {["u1" := Employee "u1" " x" ""]}
    ≠ inr {["u1" := Employee "u1" " x" ""]}.
Proof.
  assert (H : reload {["u1" := Employee "u1" " x" ""]}
              = inr {["u1" := Employee "u1" "x" ""]}) by (vm_compute; done).
  split; [exact H|]. rewrite H. intros Heq.
  apply (f_equal (λ x : exn + gmap string employee,
                    match x with inr m => m !! "u1" | inl _ => None end)) in Heq.
  rewrite !lookup_singleton_eq in Heq. discriminate.
Qed.

Lemma universal_newlines_id s :
  PyStr.contains (String CR EmptyString) s = false → universal_newlines s = s.
Proof.
  induction s as [|c s IH]; [done|]. simpl.
  destruct (decide (CR = c)) as [<-|Hne]; [done|].
  simpl. intros Hc. rewrite decide_False by congruence.
  by rewrite IH.
Qed.

Lemma insert_sorted_perm {A} (le : A → A → bool) x l :
  insert_sorted le x l ≡ₚ x :: l.
Proof.
  induction l as [|y l IH]; simpl; [done|].
  destruct (le x y); [done|]. rewrite IH. apply Permutation_swap.
Qed.

Lemma sorted_perm {A} (le : A → A → bool) (l : list A) : sorted le l ≡ₚ l.
Proof.
  induction l as [|x l IH]; simpl; [done|].
  fold (sorted le l). by rewrite insert_sorted_perm, IH.
Qed.

Lemma load_row_clean acc r :
  Profile_URL r ≠ EmptyString →
  clean_field (Profile_URL r) → clean_field (Description r) →
  clean_field (Company r) →
  load_row fieldnames (inr acc) (map universal_newlines (writerow r))
  = inr (<[Profile_URL r := r]> acc).
Proof.
  destruct r as [u d c]. cbn [Profile_URL Description Company writerow map].
  intros Hne (Hu & Hu' & Hlu) (Hd & Hd' & Hld) (Hc & Hc' & Hlc).
  rewrite !universal_newlines_id by done.
  unfold load_row, reader_next. cbn [forallb]. rewrite Hlu, Hld, Hlc.
  cbn [andb]. unfold DictReader_row, get_strip. simpl.
  rewrite lookup_insert_ne, lookup_insert_ne, lookup_insert_eq by done.
  simpl. rewrite Hu.
  apply truthy_true in Hne. rewrite Hne.
  rewrite lookup_insert_ne, lookup_insert_eq by done. simpl.
  rewrite lookup_insert_eq. simpl. by rewrite Hd, Hc.
Qed.

Lemma reader_next_fieldnames : reader_next fieldnames = inr fieldnames.
Proof. by vm_compute. Qed.

Lemma load_items_clean items acc :
  (∀ k r, (k, r) ∈ items →
     Profile_URL r = k ∧ k ≠ EmptyString
     ∧ clean_field k ∧ clean_field (Description r) ∧ clean_field (Company r)) →
  fold_left (load_row fieldnames)
    (map (map universal_newlines) (map (λ item, writerow item.2) items))
    (inr acc)
  = inr (fold_left (λ m item, <[item.1 := item.2]> m) items acc).
Proof.
  revert acc. induction items as [|[k r] items IH]; intros acc Hclean; [done|].
  destruct (Hclean k r) as (Hk & Hne & Hck & Hcd & Hcc); [set_solver|].
  subst k. cbn [map fold_left].
  rewrite load_row_clean by done. simpl. apply IH.
  intros k' r' Hin. apply Hclean. set_solver.
Qed.

Lemma fold_insert_list_to_map (items : list (string * employee)) :
  fold_left (λ m item, <[item.1 := item.2]> m) items (∅ : gmap string employee)
  = list_to_map (reverse items).
Proof.
  induction items as [|[k r] items IH] using rev_ind; [done|].
  rewrite fold_left_app, reverse_app. simpl. by rewrite IH.
Qed.

(** C8, amended: for a dataset whose records are stored under their own
    non-empty url and whose fields carry no leading or trailing whitespace,
    no carriage return and no more characters than the reader's field size
    limit, writing the store and loading it again gives the same mapping,
    keys and field values. *)
Theorem reload_clean_dataset (D : gmap string employee) :
  clean_dataset D → reload D = inr D.
Proof.
  intros Hclean. unfold reload, csv_rows_of, read_text.
  cbn [map load_rows].
  change (map universal_newlines fieldnames) with fieldnames.
  rewrite reader_next_fieldnames.
  set (items := sorted item_le (map_to_list D)).
  assert (Hperm : items ≡ₚ map_to_list D) by apply sorted_perm.
  rewrite load_items_clean.
  - f_equal. rewrite fold_insert_list_to_map.
    etrans; [|apply (list_to_map_to_list D)].
    apply list_to_map_proper.
    + rewrite reverse_Permutation, Hperm. apply NoDup_fst_map_to_list.
    + by rewrite reverse_Permutation.
  - intros k r Hin. apply Hclean. apply elem_of_map_to_list.
    by rewrite <- Hperm.
Qed.

(** A one-record dataset that comes back as written. *)
Lemma reload_clean_dataset_witness :
  let D : gmap string employee :=
    {["https://www.linkedin.com/in/ann" :=
        Employee "https://www.linkedin.com/in/ann" "Senior Eng @ Acme Corp." "Acme Corp"]} in
  clean_dataset D ∧ reload D = inr D.
Proof.
  intros D.
  assert (Hclean : clean_dataset D).
  { intros k r Hk. apply lookup_singleton_Some in Hk as [<- <-].
    vm_compute. repeat split; congruence. }
  split; [exact Hclean|]. exact (reload_clean_dataset D Hclean).
Defined.

(** ** Company attribution (C7) *)

Lemma append_cons c s t : String c s +:+ t = String c (s +:+ t).
Proof. done. Qed.

Lemma startswith_spec p s :
  PyStr.startswith p s = true ↔ ∃ post, s = p +:+ post.
Proof.
  revert s. induction p as [|a p IH]; intros s.
  - simpl. split; [intros _; by exists s | done].
  - destruct s as [|b s]; simpl.
    + split; [done | intros [post Hpost]; by rewrite append_cons in Hpost].
    + destruct (decide (a = b)) as [<-|Hne].
      * rewrite IH. split; intros [post Hpost]; exists post.
        -- by rewrite append_cons, Hpost.
        -- rewrite append_cons in Hpost. congruence.
      * split; [done|]. intros [post Hpost].
        rewrite append_cons in Hpost. congruence.
Qed.

Lemma contains_spec sub s : PyStr.contains sub s = true ↔ occurs_in sub s.
Proof.
  unfold occurs_in. induction s as [|c s IH].
  - simpl. rewrite orb_false_r, startswith_spec. split.
    + intros [post Hpost]. by exists EmptyString, post.
    + intros ([|a pre] & post & Hs); [by exists post|].
      by rewrite append_cons in Hs.
  - cbn [PyStr.contains]. rewrite orb_true_iff, IH, startswith_spec. split.
    + intros [[post Hpost]|(pre & post & Hs)].
      * by exists EmptyString, post.
      * exists (String c pre), post. by rewrite append_cons, Hs.
    + intros ([|a pre] & post & Hs).
      * left. by exists post.
      * right. rewrite append_cons in Hs. exists pre, post. congruence.
Qed.

Lemma company_matches_spec description company :
  company_matches (PyStr.lower description) company = true
  ↔ names_company description company.
Proof.
  unfold company_matches, names_company.
  by rewrite orb_true_iff, !contains_spec.
Qed.

Lemma first_company_none dl companies :
  (∀ c, c ∈ companies → company_matches dl c = false) →
  first_company dl companies = EmptyString.
Proof.
  induction companies as [|c cs IH]; intros Hno; simpl; [done|].
  rewrite Hno by set_solver. apply IH. intros c' ?. apply Hno. set_solver.
Qed.

Lemma first_company_first dl before c after :
  (∀ c', c' ∈ before → company_matches dl c' = false) →
  company_matches dl c = true →
  first_company dl (before ++ c :: after) = c.
Proof.
  induction before as [|c0 cs IH]; intros Hno Hyes; simpl.
  - by rewrite Hyes.
  - rewrite Hno by set_solver. apply IH; [|done].
    intros c' ?. apply Hno. set_solver.
Qed.

(** C7, as stated, fails on the dot.  The name [Acme.Corp] with its dot
    turned into a space occurs in [acme corp], yet no company is returned;
    and it is returned for [acmecorp], where neither the name nor the name
    with spaces for punctuation occurs. *)
Lemma attribution_deletes_dots :
  spec_company_matches (PyStr.lower "acme corp") "Acme.Corp" = true
  ∧ assign_company_from_description "acme corp" ["Acme.Corp"] = ""
  ∧ spec_company_matches (PyStr.lower "acmecorp") "Acme.Corp" = false
  ∧ assign_company_from_description "acmecorp" ["Acme.Corp"] = "Acme.Corp".
Proof. vm_compute. done. Qed.

(** C7, amended: the attribution returns the first company in list order
    whose lower-cased name occurs in the lower-cased description, or whose
    lower-cased name with every [.] deleted and every [-] and [_] turned into
    a space occurs in it; it returns the empty string when the description is
    empty or names no company of the list. *)
Theorem attribution_first_match (description : string) (companies : list string) :
  (description = EmptyString →
   assign_company_from_description description companies = EmptyString)
  ∧ ((∀ c, c ∈ companies → ¬ names_company description c) →
     assign_company_from_description description companies = EmptyString)
  ∧ (∀ before c after,
       description ≠ EmptyString →
       companies = before ++ c :: after →
       (∀ c', c' ∈ before → ¬ names_company description c') →
       names_company description c →
       assign_company_from_description description companies = c).
Proof.
  unfold assign_company_from_description. split; [by intros ->|]. split.
  - intros Hno. destruct (PyStr.truthy description); [|done].
    apply first_company_none. intros c Hc.
    apply not_true_iff_false. rewrite company_matches_spec. by apply Hno.
  - intros before c after Hne -> Hno Hyes.
    apply truthy_true in Hne. rewrite Hne.
    apply first_company_first.
    + intros c' Hc'. apply not_true_iff_false.
      rewrite company_matches_spec. by apply Hno.
    + by apply company_matches_spec.
Qed.

(** The example of the specification. *)
Example attribution_example :
  assign_company_from_description "Senior Eng @ Acme Corp."
    ["Acme Corp"; "Other Inc"] = "Acme Corp"
  ∧ assign_company_from_description "no mention" ["Acme Corp"; "Other Inc"] = "".
Proof. vm_compute. done. Qed.

(** ** Page enumeration (C5, C6) *)

Global Instance page_order_trans : Transitive page_order.
Proof. unfold page_order. intros a b c. lia. Qed.

Lemma page_le_order a b : page_le a b = true ↔ page_order a b.
Proof. unfold page_le, page_order. apply N.leb_le. Qed.

Lemma page_le_total a b : page_le a b = false → page_order b a.
Proof. unfold page_le, page_order. rewrite N.leb_gt. lia. Qed.

Lemma insert_sorted_page x l :
  StronglySorted page_order l →
  StronglySorted page_order (insert_sorted page_le x l).
Proof.
  induction 1 as [|y l Hl IH Hy]; simpl.
  - repeat constructor.
  - destruct (page_le x y) eqn:Hxy.
    + apply page_le_order in Hxy. constructor; [by constructor|].
      constructor; [done|].
      eapply Forall_impl; [exact Hy|]. intros z ?. by etrans.
    + apply page_le_total in Hxy. constructor; [done|].
      rewrite insert_sorted_perm. by constructor.
Qed.

Lemma sorted_page l : StronglySorted page_order (sorted page_le l).
Proof.
  induction l as [|x l IH]; simpl; [constructor|].
  by apply insert_sorted_page.
Qed.

Lemma StronglySorted_lookup_lt {A} (R : relation A) l i j a b :
  StronglySorted R l → i < j → l !! i = Some a → l !! j = Some b → R a b.
Proof.
  intros Hl. revert i j. induction Hl as [|x l Hl IH Hx]; intros i j Hij Hi Hj.
  - by rewrite lookup_nil in Hi.
  - destruct j as [|j]; [lia|]. simpl in Hj.
    destruct i as [|i]; simpl in Hi.
    + injection Hi as ->. rewrite Forall_forall in Hx. apply Hx.
      by eapply list_elem_of_lookup_2.
    + apply (IH i j); [lia|done|done].
Qed.

Lemma fmap_key_inj {A B} (f : A → B) (l1 l2 : list A) :
  f <$> l1 = f <$> l2 →
  (∀ a b, a ∈ l1 → b ∈ l2 → f a = f b → a = b) →
  l1 = l2.
Proof.
  revert l2. induction l1 as [|a l1 IH]; intros [|b l2] Heq Hinj; try done.
  simpl in Heq. injection Heq as Hab Heq.
  f_equal; [apply Hinj; [set_solver|set_solver|done]|].
  apply IH; [done|]. intros a' b' ? ?. apply Hinj; set_solver.
Qed.

Lemma get_page_num_sentinel a : search_page a = None → get_page_num a = 999%N.
Proof. unfold get_page_num. by intros ->. Qed.

Section Enumerator.
Context (O : SetOrder).

Lemma page_urls_perm current_url li_elements :
  page_urls current_url (Some li_elements)
  ≡ₚ set_iter (collected current_url li_elements).
Proof. simpl. apply sorted_perm. Qed.

Lemma page_urls_elem current_url li_elements a :
  a ∈ page_urls current_url (Some li_elements)
  ↔ a ∈ collected current_url li_elements.
Proof. by rewrite page_urls_perm, set_iter_elem. Qed.

Lemma page_urls_NoDup current_url li_elements :
  NoDup (page_urls current_url (Some li_elements)).
Proof. rewrite page_urls_perm. apply set_iter_NoDup. Qed.

Lemma page_urls_sorted current_url li_elements :
  StronglySorted page_order (page_urls current_url (Some li_elements)).
Proof. simpl. apply sorted_page. Qed.
End Enumerator.

(** Two runs over controls with the same addresses give the same sequence of
    page keys, whatever the iteration orders of their sets. *)
Lemma page_keys_determined (O O' : SetOrder) current_url lis lis' :
  (∀ a, a ∈ collected current_url lis' ↔ a ∈ collected current_url lis) →
  @page_urls O' current_url (Some lis') ≡ₚ @page_urls O current_url (Some lis)
  ∧ get_page_num <$> @page_urls O' current_url (Some lis')
    = get_page_num <$> @page_urls O current_url (Some lis).
Proof.
  intros Hsame.
  assert (Hperm : @page_urls O' current_url (Some lis')
                  ≡ₚ @page_urls O current_url (Some lis)).
  { apply NoDup_Permutation; [apply page_urls_NoDup..|].
    intros a. by rewrite !page_urls_elem. }
  split; [done|].
  apply (Sorted_unique N.le).
  - eapply Sorted_fmap with (R1 := page_order); [done|].
    apply StronglySorted_Sorted, page_urls_sorted.
  - eapply Sorted_fmap with (R1 := page_order); [done|].
    apply StronglySorted_Sorted, page_urls_sorted.
  - by rewrite Hperm.
Qed.

Lemma page_urls_determined (O O' : SetOrder) current_url lis lis' :
  (∀ a, a ∈ collected current_url lis' ↔ a ∈ collected current_url lis) →
  (∀ a b, a ∈ collected current_url lis → b ∈ collected current_url lis →
          get_page_num a = get_page_num b → a = b) →
  @page_urls O' current_url (Some lis') = @page_urls O current_url (Some lis).
Proof.
  intros Hsame Hinj.
  apply (fmap_key_inj get_page_num).
  - by apply page_keys_determined.
  - intros a b Ha Hb. apply page_urls_elem in Ha, Hb.
    apply Hinj; [by apply Hsame|done].
Qed.

(** C5, as stated, fails twice.  An address without a page number does not
    sort last when another one has a page number above 999: under every
    iteration order the current address, which has none, comes before page
    1000.  And two addresses with the same page key come out in the
    iteration order of the set, which differs from one order to another. *)
Lemma unnumbered_page_not_last :
  let current_url := "https://www.linkedin.com/search/results/people/?keywords=acme" in
  let far := "https://www.linkedin.com/search/results/people/?keywords=acme&page=1000" in
  let other := "https://www.linkedin.com/search/results/people/?keywords=beta" in
  (∀ O : SetOrder,
     @page_urls O current_url
       (Some [LiClickable "" "1000"; LiClickable current_url "Next"])
     = [current_url; far])
  ∧ search_page current_url = None
  ∧ search_page far = Some 1000%N
  ∧ @page_urls first_seen_order current_url
      (Some [LiClickable current_url ""; LiClickable other ""])
    = [current_url; other]
  ∧ @page_urls last_seen_order current_url
      (Some [LiClickable current_url ""; LiClickable other ""])
    = [other; current_url].
Proof.
  intros current_url far other. split; [|by vm_compute].
  intros O.
  rewrite (page_urls_determined first_seen_order O current_url
             [LiClickable "" "1000"; LiClickable current_url "Next"]
             [LiClickable "" "1000"; LiClickable current_url "Next"]).
  - by vm_compute.
  - done.
  - intros a b Ha Hb.
    assert (Hc : collected current_url
                   [LiClickable "" "1000"; LiClickable current_url "Next"]
                 = [far; current_url]) by (by vm_compute).
    rewrite Hc in Ha, Hb.
    apply elem_of_cons in Ha as [->|Ha]; apply elem_of_cons in Hb as [->|Hb];
      try done.
    + apply list_elem_of_singleton in Hb as ->. by vm_compute.
    + apply list_elem_of_singleton in Ha as ->. by vm_compute.
    + apply list_elem_of_singleton in Ha as ->.
      by apply list_elem_of_singleton in Hb as ->.
Qed.

Lemma insert_sorted_stable k x l :
  filter (λ a, get_page_num a = k) (insert_sorted page_le x l)
  = filter (λ a, get_page_num a = k) (x :: l).
Proof.
  induction l as [|y l IH]; [done|]. cbn [insert_sorted].
  destruct (page_le x y) eqn:Hle; [done|].
  unfold page_le in Hle. apply N.leb_gt in Hle.
  rewrite filter_cons, IH, !filter_cons.
  repeat case_decide; try done. lia.
Qed.

(** The sort is stable: the addresses of one key keep their order. *)
Lemma sorted_stable k l :
  filter (λ a, get_page_num a = k) (sorted page_le l)
  = filter (λ a, get_page_num a = k) l.
Proof.
  induction l as [|x l IH]; [done|]. cbn [sorted foldr].
  fold (sorted page_le l). by rewrite insert_sorted_stable, !filter_cons, IH.
Qed.

(** C5, amended: for every collection of pagination controls and every
    iteration order of the set, the enumerator returns the collected addresses
    without duplicates, in ascending order of page key, the key being the
    first page number found in the address, or 999 when there is none; so an
    address without a page number comes after every address whose page number
    is below 999.  The same addresses always give the same sequence of page
    keys, and the same sequence of addresses when no two of them share a
    key; the addresses that share a key are left in the iteration order of
    the set. *)
Theorem page_enumeration_sorted (O : SetOrder) (current_url : string)
    (li_elements : list li_element) :
  let urls := page_urls current_url (Some li_elements) in
  NoDup urls
  ∧ (∀ a, a ∈ urls ↔ a ∈ collected current_url li_elements)
  ∧ StronglySorted page_order urls
  ∧ (∀ a, search_page a = None → get_page_num a = 999%N)
  ∧ (∀ i j a b, urls !! i = Some a → urls !! j = Some b →
       search_page a = None → (get_page_num b < 999)%N → j < i)
  ∧ (∀ (O' : SetOrder) li_elements',
       (∀ a, a ∈ collected current_url li_elements'
             ↔ a ∈ collected current_url li_elements) →
       get_page_num <$> @page_urls O' current_url (Some li_elements')
       = get_page_num <$> urls
       ∧ ((∀ a b, a ∈ collected current_url li_elements →
                  b ∈ collected current_url li_elements →
                  get_page_num a = get_page_num b → a = b) →
          @page_urls O' current_url (Some li_elements') = urls))
  ∧ (∀ k, filter (λ a, get_page_num a = k) urls
          = filter (λ a, get_page_num a = k)
              (set_iter (collected current_url li_elements))).
Proof.
  intros urls. split; [apply page_urls_NoDup|].
  split; [apply page_urls_elem|].
  split; [apply page_urls_sorted|].
  split; [apply get_page_num_sentinel|]. split.
  - intros i j a b Hi Hj Ha Hb.
    apply get_page_num_sentinel in Ha.
    destruct (decide (j < i)) as [|Hge]; [done|].
    destruct (decide (i = j)) as [->|Hne].
    + rewrite Hi in Hj. injection Hj as ->. lia.
    + assert (Hlt : i < j) by lia.
      pose proof (StronglySorted_lookup_lt page_order urls i j a b
                    (page_urls_sorted O current_url li_elements) Hlt Hi Hj) as Hab.
      unfold page_order in Hab. lia.
  - split; [|intros k; apply sorted_stable].
    intros O' lis' Hsame. split.
    + by apply page_keys_determined.
    + by apply page_urls_determined.
Qed.

(** C6: when the pagination list is not found the enumerator returns the
    current address alone; when the list is found and holds no control, or
    none that yields an address, it returns the empty sequence, and the
    current page is not visited. *)
Theorem page_urls_without_controls (O : SetOrder) (current_url : string) :
  page_urls current_url None = [current_url]
  ∧ page_urls current_url (Some []) = []
  ∧ ∀ li_elements, collected current_url li_elements = [] →
      page_urls current_url (Some li_elements) = [].
Proof.
  assert (Hnil : ∀ lis, collected current_url lis = [] →
                        page_urls current_url (Some lis) = []).
  { intros lis Hc. apply Permutation_nil_r.
    rewrite page_urls_perm, Hc.
    destruct (set_iter []) as [|x xs] eqn:Hs; [done|].
    assert (x ∈ set_iter []) as Hx by (rewrite Hs; set_solver).
    apply (proj1 (set_iter_elem [] x)) in Hx. by apply not_elem_of_nil in Hx. }
  split; [done|]. split; [by apply Hnil|done].
Qed.

(** ** What a successful flush writes *)

Lemma alloc_record_refines d h item :
  wf_refs h d →
  wf_refs (alloc_record (d, h) item).2 (alloc_record (d, h) item).1
  ∧ deref (alloc_record (d, h) item).2 (alloc_record (d, h) item).1
    = <[item.1 := item.2]> (deref h d).
Proof.
  intros [Hlive Hinj]. destruct item as [k r]. unfold alloc_record. simpl.
  set (l := fresh (dom h)).
  assert (Hfresh : h !! l = None) by (apply not_elem_of_dom, is_fresh).
  assert (Hnew : ∀ k' l', d !! k' = Some l' → l' ≠ l).
  { intros k' l' Hk' ->. destruct (Hlive _ _ Hk') as [? ?]. congruence. }
  split; [split|].
  - intros k' l' Hk'. apply lookup_insert_Some in Hk' as [[_ <-]|[_ Hk']].
    + rewrite lookup_insert_eq. eauto.
    + rewrite lookup_insert_ne; [eauto|]. intros ->. by eapply Hnew.
  - intros k1 k2 l' H1 H2.
    apply lookup_insert_Some in H1 as [[E1 F1]|[Hn1 H1]];
      apply lookup_insert_Some in H2 as [[E2 F2]|[Hn2 H2]].
    + congruence.
    + subst l'. by destruct (Hnew _ _ H2).
    + subst l'. by destruct (Hnew _ _ H1).
    + eauto.
  - apply map_eq. intros k'. rewrite deref_lookup.
    destruct (decide (k = k')) as [<-|Hne].
    + rewrite !lookup_insert_eq. simpl. by rewrite lookup_insert_eq.
    + rewrite !lookup_insert_ne by done. rewrite deref_lookup.
      destruct (d !! k') as [l'|] eqn:Hk'; simpl; [|done].
      rewrite lookup_insert_ne; [done|]. intros <-. by eapply Hnew.
Qed.

Lemma alloc_fold_refines items d h :
  wf_refs h d →
  wf_refs (fold_left alloc_record items (d, h)).2
          (fold_left alloc_record items (d, h)).1
  ∧ deref (fold_left alloc_record items (d, h)).2
          (fold_left alloc_record items (d, h)).1
    = fold_left (λ m item, <[item.1 := item.2]> m) items (deref h d).
Proof.
  revert d h. induction items as [|item items IH]; intros d h Hwf; [done|].
  simpl. destruct (alloc_record_refines d h item Hwf) as [Hwf1 Heq1].
  destruct (alloc_record (d, h) item) as [d1 h1]. simpl in *.
  destruct (IH d1 h1 Hwf1) as [Hwf2 Heq2]. split; [done|].
  by rewrite Heq2, Heq1.
Qed.

Lemma wf_refs_empty h : wf_refs h ∅.
Proof. split; intros *; by rewrite lookup_empty. Qed.

Lemma deref_empty h : deref h ∅ = ∅.
Proof. unfold deref. apply omap_empty. Qed.

(** Loading allocates one record per entry: the dict returned denotes the
    dataset read. *)
Lemma alloc_dataset_refines m h :
  wf_refs (alloc_dataset m h).2 (alloc_dataset m h).1
  ∧ deref (alloc_dataset m h).2 (alloc_dataset m h).1 = m.
Proof.
  unfold alloc_dataset.
  destruct (alloc_fold_refines (map_to_list m) ∅ h (wf_refs_empty h))
    as [Hwf Heq].
  split; [done|]. rewrite Heq, deref_empty, fold_insert_list_to_map.
  etrans; [|apply (list_to_map_to_list m)].
  apply list_to_map_proper; [|apply reverse_Permutation].
  rewrite reverse_Permutation. apply NoDup_fst_map_to_list.
Qed.

(** The whole function against the loop over values: a flush whose write
    succeeds leaves in the store the rows of the merge of the batch into the
    dataset it started from. *)
Lemma save_writes_merge employees page_num update_mode all_existing_data
    on_read s :
  employees ≠ [] →
  (∀ d, all_existing_data = Some d → wf_refs (heap s) d) →
  output_csv (save_employee_data employees page_num update_mode
                all_existing_data (IoEnv on_read None) s).2
  = Some (csv_rows_of
            (merge update_mode
               (starting_dataset all_existing_data (IoEnv on_read None) s)
               employees)).
Proof.
  intros Hne Hwf. destruct employees as [|e B]; [done|].
  unfold save_employee_data, starting_dataset.
  destruct all_existing_data as [d|].
  - simpl. do 2 f_equal.
    apply (store_loop_refines update_mode d (heap s) (e :: B)). by apply Hwf.
  - unfold load_existing_data. simpl.
    destruct (output_csv s) as [f|].
    + destruct on_read as [msg|]; simpl.
      * do 2 f_equal.
        rewrite <- (deref_empty (heap s)).
        apply (store_loop_refines update_mode ∅ (heap s) (e :: B)).
        apply wf_refs_empty.
      * destruct (load_rows (read_text f)) as [err|m]; simpl.
        -- do 2 f_equal. rewrite <- (deref_empty (heap s)).
           apply (store_loop_refines update_mode ∅ (heap s) (e :: B)).
           apply wf_refs_empty.
        -- destruct (alloc_dataset_refines m (heap s)) as [Hwfm Hm].
           destruct (alloc_dataset m (heap s)) as [d h]. simpl in *.
           do 2 f_equal. rewrite <- Hm.
           by apply (store_loop_refines update_mode d h (e :: B)).
    + simpl. do 2 f_equal. rewrite <- (deref_empty (heap s)).
      apply (store_loop_refines update_mode ∅ (heap s) (e :: B)).
      apply wf_refs_empty.
Qed.

(** ** The scenarios of the specification *)

Example scenario_fresh_insert :
  let st := merge_loop false ∅ [Employee "u1" "" ""] in
  all_data st = {["u1" := Employee "u1" "" ""]} ∧ new_count st = 1.
Proof. vm_compute. done. Qed.

Example scenario_update_enrich :
  let st := merge_loop true {["u1" := Employee "u1" "short" ""]}
              [Employee "u1" "much longer text" "Acme"] in
  all_data st = {["u1" := Employee "u1" "much longer text" "Acme"]}
  ∧ updated_count st = 1.
Proof. vm_compute. done. Qed.

(** * Further properties of the code *)

(** ** More on strings *)

Lemma rstrip_idem s : PyStr.rstrip (PyStr.rstrip s) = PyStr.rstrip s.
Proof.
  induction s as [|c s IH]; [done|]. simpl.
  destruct (PyStr.rstrip s) as [|a r] eqn:Hr.
  - destruct (PyStr.isspace c) eqn:Hc; [done|]. simpl. by rewrite Hc.
  - change (PyStr.rstrip (String c (String a r)))
      with (match PyStr.rstrip (String a r) with
            | EmptyString =>
                if PyStr.isspace c then EmptyString else String c EmptyString
            | r' => String c r'
            end).
    by rewrite IH.
Qed.

Lemma lstrip_head s :
  match PyStr.lstrip s with
  | EmptyString => True
  | String c _ => PyStr.isspace c = false
  end.
Proof.
  induction s as [|c s IH]; [done|]. simpl.
  by destruct (PyStr.isspace c) eqn:Hc.
Qed.

Lemma rstrip_head c s :
  PyStr.isspace c = false → ∃ r, PyStr.rstrip (String c s) = String c r.
Proof.
  intros Hc. simpl. destruct (PyStr.rstrip s); rewrite ?Hc; eauto.
Qed.

Lemma strip_idem s : PyStr.strip (PyStr.strip s) = PyStr.strip s.
Proof.
  unfold PyStr.strip. pose proof (lstrip_head s) as Hh.
  destruct (PyStr.lstrip s) as [|c t]; [done|].
  destruct (rstrip_head c t Hh) as [r Hr]. rewrite Hr.
  cbn [PyStr.lstrip]. rewrite Hh, <- Hr. apply rstrip_idem.
Qed.

Lemma truthy_strip s : PyStr.truthy (PyStr.strip s) = true → PyStr.truthy s = true.
Proof. by destruct s. Qed.

Lemma has_char_cons c a s :
  PyStr.contains (String c EmptyString) (String a s)
  = bool_decide (c = a) || PyStr.contains (String c EmptyString) s.
Proof.
  cbn [PyStr.contains PyStr.startswith].
  destruct (decide (c = a)) as [->|Hne].
  - by rewrite bool_decide_eq_true_2.
  - by rewrite bool_decide_eq_false_2.
Qed.

Lemma lstrip_no_char c s :
  PyStr.contains (String c EmptyString) s = false →
  PyStr.contains (String c EmptyString) (PyStr.lstrip s) = false.
Proof.
  induction s as [|a s IH]; [done|]. intros Hs.
  cbn [PyStr.lstrip]. destruct (PyStr.isspace a); [|done].
  apply IH. rewrite has_char_cons in Hs. by apply orb_false_elim in Hs as [_ ?].
Qed.

Lemma rstrip_no_char c s :
  PyStr.contains (String c EmptyString) s = false →
  PyStr.contains (String c EmptyString) (PyStr.rstrip s) = false.
Proof.
  induction s as [|a s IH]; [done|]. rewrite has_char_cons.
  intros [Ha Hs]%orb_false_elim. specialize (IH Hs).
  cbn [PyStr.rstrip]. destruct (PyStr.rstrip s) as [|b r].
  - destruct (PyStr.isspace a); [done|]. rewrite has_char_cons, Ha. done.
  - by rewrite has_char_cons, Ha, IH.
Qed.

Lemma strip_no_char c s :
  PyStr.contains (String c EmptyString) s = false →
  PyStr.contains (String c EmptyString) (PyStr.strip s) = false.
Proof. intros Hs. by apply rstrip_no_char, lstrip_no_char. Qed.

Lemma universal_newlines_no_CR s :
  PyStr.contains (String CR EmptyString) (universal_newlines s) = false.
Proof.
  assert (H : ∀ n s, String.length s ≤ n →
            PyStr.contains (String CR EmptyString) (universal_newlines s) = false).
  { clear s. induction n as [|n IH]; intros [|c s] Hlen; simpl in Hlen;
      try done; try lia.
    cbn [universal_newlines]. destruct (decide (c = CR)) as [->|Hne].
    - rewrite has_char_cons. rewrite bool_decide_eq_false_2 by done. simpl.
      destruct s as [|c' s']; [done|].
      destruct (decide (c' = LF)); apply IH; simpl in *; lia.
    - rewrite has_char_cons, bool_decide_eq_false_2 by done. simpl.
      apply IH. lia. }
  by apply (H (String.length s)).
Qed.

Lemma lstrip_length s : String.length (PyStr.lstrip s) ≤ String.length s.
Proof.
  induction s as [|c s IH]; [done|]. cbn [PyStr.lstrip].
  destruct (PyStr.isspace c); simpl; lia.
Qed.

Lemma rstrip_length s : String.length (PyStr.rstrip s) ≤ String.length s.
Proof.
  induction s as [|c s IH]; [done|]. cbn [PyStr.rstrip].
  destruct (PyStr.rstrip s) as [|a r]; [destruct (PyStr.isspace c)|];
    simpl in *; lia.
Qed.

Lemma strip_length s : String.length (PyStr.strip s) ≤ String.length s.
Proof.
  unfold PyStr.strip. etrans; [apply rstrip_length|apply lstrip_length].
Qed.

Lemma within_limit_le s t :
  String.length s ≤ String.length t →
  within_limit t = true → within_limit s = true.
Proof.
  unfold within_limit. rewrite !N.leb_le. lia.
Qed.

Lemma strip_within_limit s :
  within_limit s = true → within_limit (PyStr.strip s) = true.
Proof. apply within_limit_le, strip_length. Qed.

Lemma within_limit_forallb row x :
  forallb within_limit row = true → x ∈ row → within_limit x = true.
Proof.
  rewrite forallb_forall. intros H Hx. apply H. by apply list_elem_of_In.
Qed.

(** Whatever the reader accepts is, once stripped, a clean field. *)
Lemma clean_field_read s :
  within_limit (universal_newlines s) = true →
  clean_field (PyStr.strip (universal_newlines s)).
Proof.
  intros Hlim. split; [apply strip_idem|]. split.
  - apply strip_no_char, universal_newlines_no_CR.
  - by apply strip_within_limit.
Qed.

(** ** Loading the store: [load_existing_data] *)

Lemma zip_restval_value names row k v :
  (k, Some v) ∈ zip_restval names row → v ∈ row.
Proof.
  revert row. induction names as [|n names IH]; intros row Hin.
  - by destruct row; apply not_elem_of_nil in Hin.
  - destruct row as [|x row]; simpl in Hin.
    + apply elem_of_cons in Hin as [[=]|Hin]. by apply IH in Hin.
    + apply elem_of_cons in Hin as [[= _ ->]|Hin]; [left|right; by apply IH].
Qed.

Lemma fold_insert_lookup (l : list (string * option string))
    (d : gmap string (option string)) k x :
  fold_left (λ d kv, <[kv.1 := kv.2]> d) l d !! k = Some x →
  d !! k = Some x ∨ (k, x) ∈ l.
Proof.
  revert d. induction l as [|[k' x'] l IH]; intros d Hl; simpl in Hl; [by left|].
  apply IH in Hl as [Hl|Hl]; [|right; by right].
  apply lookup_insert_Some in Hl as [[<- <-]|[_ Hl]]; [right; left|by left].
Qed.

Lemma DictReader_row_value names row k v :
  DictReader_row names row !! k = Some (Some v) → v ∈ row.
Proof.
  unfold DictReader_row. intros [Hl|Hl]%fold_insert_lookup.
  - by rewrite lookup_empty in Hl.
  - by eapply zip_restval_value.
Qed.

(** A field that [get_strip] returns is a stripped field of the row, or the
    empty default. *)
Lemma get_strip_value names row k s :
  get_strip (DictReader_row names row) k = inr s →
  s = EmptyString ∨ ∃ x, x ∈ row ∧ s = PyStr.strip x.
Proof.
  unfold get_strip.
  destruct (DictReader_row names row !! k) as [[v|]|] eqn:Hk; simpl.
  - intros [= <-]. right. exists v. split; [|done].
    by eapply DictReader_row_value.
  - done.
  - intros [= <-]. by left.
Qed.

(** What one row does to the data loaded so far. *)
Lemma load_row_inr names acc row acc' :
  load_row names (inr acc) row = inr acc' →
  acc' = acc
  ∨ ∃ url description company,
      acc' = <[url := Employee url description company]> acc
      ∧ url ≠ EmptyString
      ∧ (∀ x, x ∈ row → within_limit x = true)
      ∧ (∃ x, x ∈ row ∧ url = PyStr.strip x)
      ∧ (description = EmptyString ∨ ∃ x, x ∈ row ∧ description = PyStr.strip x)
      ∧ (company = EmptyString ∨ ∃ x, x ∈ row ∧ company = PyStr.strip x).
Proof.
  unfold load_row, reader_next.
  destruct (forallb within_limit row) eqn:Hlim; [|done].
  destruct row as [|x0 row0]; [intros [= <-]; by left|].
  set (row := x0 :: row0) in *.
  destruct (get_strip _ "Profile_URL") as [e|url] eqn:Hu; [done|].
  destruct (PyStr.truthy url) eqn:Ht; [|intros [= <-]; by left].
  destruct (get_strip _ "Description") as [e|description] eqn:Hd; [done|].
  destruct (get_strip _ "Company") as [e|company] eqn:Hc; [done|].
  intros [= <-]. right. exists url, description, company.
  apply truthy_true in Ht. split; [done|]. split; [done|].
  split; [intros x Hx; by eapply within_limit_forallb|].
  apply get_strip_value in Hu as [->|Hu]; [done|].
  apply get_strip_value in Hd. apply get_strip_value in Hc. done.
Qed.

Lemma load_fold_inl names rows e :
  fold_left (load_row names) rows (inl e) = inl e.
Proof. induction rows as [|row rows IH]; [done|]. apply IH. Qed.

Lemma load_fold_clean names rows acc m :
  (∀ row x, row ∈ rows → x ∈ row →
     PyStr.contains (String CR EmptyString) x = false) →
  clean_dataset acc →
  fold_left (load_row names) rows (inr acc) = inr m →
  clean_dataset m.
Proof.
  revert acc. induction rows as [|row rows IH]; intros acc Hrows Hacc Hm.
  - by injection Hm as <-.
  - cbn [fold_left] in Hm.
    destruct (load_row names (inr acc) row) as [e|acc'] eqn:Hrow.
    { by rewrite load_fold_inl in Hm. }
    apply (IH acc'); [intros; eapply Hrows; [by right|done] | | done].
    apply load_row_inr in Hrow
      as [->|(u & d & c & -> & Hne & Hlim & Hu & Hd & Hc)]; [done|].
    assert (Hfield : ∀ s, s = EmptyString ∨ (∃ x, x ∈ row ∧ s = PyStr.strip x) →
                          clean_field s).
    { intros s [->|(x & Hx & ->)]; [done|].
      split; [apply strip_idem|]. split.
      - apply strip_no_char. apply (Hrows row x); [by left|done].
      - apply strip_within_limit. by apply Hlim. }
    intros k r [[<- <-]|[_ Hk]]%lookup_insert_Some; [|by apply Hacc].
    simpl. repeat split; try done; try (by apply Hfield); apply Hfield; eauto.
Qed.

(** Every dataset that loading produces has its records under their own
    non-empty url, with clean fields. *)
Lemma load_rows_clean f m :
  load_rows (read_text f) = inr m → clean_dataset m.
Proof.
  destruct f as [|names rows]; cbn [read_text map load_rows].
  - intros [= <-]. intros k r. by rewrite lookup_empty.
  - destruct (reader_next (map universal_newlines names)) as [e|names'];
      [done|].
    apply load_fold_clean.
    + intros row x Hrow Hx.
      apply list_elem_of_fmap in Hrow as (row0 & -> & _).
      apply list_elem_of_fmap in Hx as (x0 & -> & _).
      apply universal_newlines_no_CR.
    + intros k r. by rewrite lookup_empty.
Qed.

Lemma alloc_fold_keeps items d h l e :
  h !! l = Some e →
  (fold_left alloc_record items (d, h)).2 !! l = Some e.
Proof.
  revert d h. induction items as [|item items IH]; intros d h Hl; [done|].
  simpl. unfold alloc_record at 2. simpl. apply IH.
  rewrite lookup_insert_ne; [done|]. intros Heq.
  apply (is_fresh (dom h)). rewrite Heq. apply elem_of_dom. eauto.
Qed.

(** What [load_existing_data] returns and leaves behind. *)
Lemma load_existing_data_spec (env : io_env) (s : pystate) :
  let loaded := load_existing_data env s in
  wf_refs (heap loaded.2) loaded.1
  ∧ deref (heap loaded.2) loaded.1 = starting_dataset None env s
  ∧ clean_dataset (starting_dataset None env s)
  ∧ output_csv loaded.2 = output_csv s
  ∧ ∀ l e, heap s !! l = Some e → heap loaded.2 !! l = Some e.
Proof.
  unfold load_existing_data, starting_dataset.
  assert (Hempty : clean_dataset ∅) by (intros k r; by rewrite lookup_empty).
  destruct (output_csv s) as [f|] eqn:Hf; simpl.
  - destruct (on_read env) as [msg|]; simpl.
    + rewrite deref_empty. split; [apply wf_refs_empty|]. done.
    + destruct (load_rows (read_text f)) as [err|m] eqn:Hload; simpl.
      * rewrite deref_empty. split; [apply wf_refs_empty|]. done.
      * destruct (alloc_dataset_refines m (heap s)) as [Hwf Hm].
        pose proof (alloc_fold_keeps (map_to_list m) ∅ (heap s)) as Hkeep.
        fold (alloc_dataset m (heap s)) in Hkeep.
        destruct (alloc_dataset m (heap s)) as [d h]. simpl in *.
        split; [done|]. split; [done|].
        split; [by eapply load_rows_clean|]. done.
  - rewrite deref_empty. split; [apply wf_refs_empty|]. done.
Qed.

(** X1.  Whatever the file and the file system, [load_existing_data] returns
    a dict of live, unshared records that denotes the dataset loaded; that
    dataset has every record under its own non-empty url with clean fields
    (stripped, without carriage return, within the reader's size limit); the
    records that existed before are untouched and so is the file. *)
Theorem load_existing_data_clean (env : io_env) (s : pystate) :
  let loaded := load_existing_data env s in
  wf_refs (heap loaded.2) loaded.1
  ∧ deref (heap loaded.2) loaded.1 = starting_dataset None env s
  ∧ clean_dataset (starting_dataset None env s)
  ∧ output_csv loaded.2 = output_csv s
  ∧ ∀ l e, heap s !! l = Some e → heap loaded.2 !! l = Some e.
Proof. apply load_existing_data_spec. Qed.

Lemma load_row_short acc u rest :
  (rest = [] ∨ ∃ d, rest = [d]) →
  PyStr.truthy (PyStr.strip u) = true →
  ∃ e, load_row fieldnames (inr acc) (u :: rest) = inl e.
Proof.
  intros Hrest Ht. unfold load_row.
  destruct (reader_next (u :: rest)) as [e|row'] eqn:Hnext; [by eexists|].
  assert (row' = u :: rest) as ->.
  { unfold reader_next in Hnext.
    destruct (forallb within_limit (u :: rest)); congruence. }
  exists (AttributeError "'NoneType' object has no attribute 'strip'").
  unfold get_strip, DictReader_row.
  destruct Hrest as [->|[d ->]]; simpl.
  - rewrite lookup_insert_ne, lookup_insert_ne, lookup_insert_eq by done.
    simpl. rewrite Ht.
    by rewrite lookup_insert_ne, lookup_insert_eq by done.
  - rewrite lookup_insert_ne, lookup_insert_ne, lookup_insert_eq by done.
    simpl. rewrite Ht.
    rewrite lookup_insert_ne, lookup_insert_eq by done. simpl.
    by rewrite lookup_insert_eq.
Qed.

Lemma load_fold_short pre acc u rest post :
  (rest = [] ∨ ∃ d, rest = [d]) →
  PyStr.truthy (PyStr.strip u) = true →
  ∃ e, fold_left (load_row fieldnames) (pre ++ (u :: rest) :: post) acc = inl e.
Proof.
  intros Hrest Ht. rewrite fold_left_app. cbn [fold_left].
  match goal with
  | |- context [load_row _ ?r (u :: rest)] => destruct r as [e|m]
  end.
  - exists e. change (load_row fieldnames (inl e) (u :: rest))
      with (inl e : exn + gmap string employee).
    apply load_fold_inl.
  - destruct (load_row_short m u rest Hrest Ht) as [e He].
    rewrite He. exists e. apply load_fold_inl.
Qed.

(** X2.  One short row is enough to lose the whole load: when the store has
    the usual header and some row with a non-blank url and fewer than three
    fields, [load_existing_data] logs an error and returns the empty dict,
    whatever the other rows hold. *)
Theorem load_short_row (on_write : option write_fault) (s : pystate)
    (pre post : csv_file) (u : string) (rest : csv_row) :
  output_csv s = Some (fieldnames :: pre ++ (u :: rest) :: post) →
  (rest = [] ∨ ∃ d, rest = [d]) →
  PyStr.truthy (PyStr.strip (universal_newlines u)) = true →
  ∃ msg,
    load_existing_data (IoEnv None on_write) s
    = (∅, PyState (heap s) (output_csv s)
            (logs s ++ [(ERROR, "Error loading existing data: " +:+ msg)])).
Proof.
  intros Hf Hrest Ht. unfold load_existing_data. rewrite Hf.
  cbn [on_read]. unfold read_text. cbn [map load_rows].
  change (map universal_newlines fieldnames) with fieldnames.
  rewrite reader_next_fieldnames, map_app. cbn [map].
  destruct (load_fold_short (map (map universal_newlines) pre) (inr ∅)
              (universal_newlines u) (map universal_newlines rest)
              (map (map universal_newlines) post)) as [e He]; [|done|].
  - destruct Hrest as [->|[d ->]]; [by left|right; by eexists].
  - match goal with
    | |- context [match ?t with inl _ => _ | inr _ => _ end] =>
        assert (Hload : t = inl e) by exact He; rewrite Hload
    end.
    by eexists.
Qed.

(** Two complete records around a row that lost its last two columns. *)
Lemma load_short_row_witness :
  let f := [fieldnames; ["u1"; "d1"; "c1"]; ["u2"]; ["u3"; "d3"; "c3"]] in
  let s := PyState ∅ (Some f) [] in
  output_csv s = Some (fieldnames :: [["u1"; "d1"; "c1"]] ++ ["u2"] :: [["u3"; "d3"; "c3"]])
  ∧ PyStr.truthy (PyStr.strip (universal_newlines "u2")) = true
  ∧ ∃ msg,
      load_existing_data (IoEnv None None) s
      = (∅, PyState (heap s) (output_csv s)
              (logs s ++ [(ERROR, "Error loading existing data: " +:+ msg)])).
Proof.
  intros f s. split; [reflexivity|]. split; [reflexivity|].
  apply (load_short_row None s [["u1"; "d1"; "c1"]] [["u3"; "d3"; "c3"]] "u2" []);
    [reflexivity | by left | reflexivity].
Defined.

Lemma load_fold_over names rows acc :
  forallb (forallb within_limit) rows = false →
  ∃ e, fold_left (load_row names) rows acc = inl e.
Proof.
  revert acc. induction rows as [|row rows IH]; intros acc Hlim; [done|].
  cbn [fold_left]. destruct acc as [e|existing_data].
  { exists e. apply load_fold_inl. }
  cbn [forallb] in Hlim. unfold load_row at 2, reader_next.
  destruct (forallb within_limit row); [|eexists; apply load_fold_inl].
  by apply IH.
Qed.

(** X28.  The reader's field size limit.  Either every field of the store,
    as it is read, has at most [csv.field_size_limit()] characters, or the
    load fails: [load_existing_data] logs one error and returns the empty
    dict, whatever the other rows hold, and leaves the file and the records
    as they are. *)
Theorem load_over_limit (h : gmap loc employee) (f : csv_file)
    (lg : list log_record) (on_write : option write_fault) :
  forallb (forallb within_limit) (read_text f) = true
  ∨ ∃ msg,
      load_existing_data (IoEnv None on_write) (PyState h (Some f) lg)
      = (∅, PyState h (Some f)
              (lg ++ [(ERROR, "Error loading existing data: " +:+ msg)])).
Proof.
  destruct (forallb (forallb within_limit) (read_text f)) eqn:Hlim;
    [by left|right].
  unfold load_existing_data. cbn [output_csv on_read heap logs].
  destruct f as [|names rows]; [done|].
  cbn [read_text map forallb load_rows] in *. unfold reader_next.
  destruct (forallb within_limit (map universal_newlines names)).
  - destruct (load_fold_over (map universal_newlines names)
                (map (map universal_newlines) rows) (inr ∅) Hlim) as [e He].
    rewrite He. by eexists.
  - by eexists.
Qed.

(** ** More on the flush: [save_employee_data] *)

(** X3.  When the store exists and cannot be loaded, because reading fails
    or a row makes the load fail, a flush without [all_existing_data] whose
    write succeeds replaces the store by the rows of the batch alone; its keys
    are the non-empty stripped urls of the batch. *)
Theorem flush_after_failed_load (employees : list employee)
    (page_num : option nat) (update_mode : bool) (on_read : option string)
    (s : pystate) (f : csv_file) :
  employees ≠ [] →
  output_csv s = Some f →
  (is_Some on_read ∨ ∃ e, load_rows (read_text f) = inl e) →
  output_csv (save_employee_data employees page_num update_mode None
                (IoEnv on_read None) s).2
  = Some (csv_rows_of (merge update_mode ∅ employees))
  ∧ dom (merge update_mode ∅ employees) = batch_keys employees.
Proof.
  intros Hne Hf Hfail. split.
  - rewrite save_writes_merge by done. do 3 f_equal.
    unfold starting_dataset. rewrite Hf. simpl.
    destruct on_read as [msg|]; [done|].
    destruct Hfail as [[? [=]]|[e ->]]. done.
  - rewrite dom_merge, dom_empty_L. set_solver.
Qed.

Lemma flush_after_failed_load_witness :
  let f := [fieldnames; ["u1"; "d1"; "c1"]; ["u2"]] in
  let s := PyState ∅ (Some f) [] in
  let B := [Employee "u9" "d9" "c9"] in
  B ≠ [] ∧ output_csv s = Some f
  ∧ output_csv (save_employee_data B None false None (IoEnv None None) s).2
    = Some (csv_rows_of (merge false ∅ B)).
Proof.
  intros f s B.
  assert (HB : B ≠ []) by done.
  assert (Hfail : is_Some (None : option string)
                  ∨ ∃ e, load_rows (read_text f) = inl e).
  { right. eexists. reflexivity. }
  split; [exact HB|]. split; [reflexivity|].
  exact (proj1 (flush_after_failed_load B None false None s f HB eq_refl Hfail)).
Defined.

Lemma enrich_url existing e : Profile_URL (enrich existing e) = Profile_URL existing.
Proof. by rewrite enrich_fields. Qed.

Lemma step_data_keyed m D e : keyed_dataset D → keyed_dataset (step_data m D e).
Proof.
  intros HD. unfold step_data.
  destruct (PyStr.truthy (key_of e)) eqn:Ht; [|done].
  destruct (D !! key_of e) as [existing|] eqn:Hk.
  - destruct m; [|done].
    intros k r [[<- <-]|[_ Hr]]%lookup_insert_Some; [|by apply HD].
    rewrite enrich_url. by apply HD.
  - intros k r [[<- <-]|[_ Hr]]%lookup_insert_Some; [|by apply HD].
    simpl. split; [done|]. split; [by apply truthy_true|]. apply strip_idem.
Qed.

(** X4.  The merge keeps the dataset keyed: if every record of [D] is
    stored under its own non-empty stripped url, so is every record of the
    merged dataset, in both modes and for every batch. *)
Theorem merge_keyed (update_mode : bool) (D : gmap string employee)
    (B : list employee) :
  keyed_dataset D → keyed_dataset (merge update_mode D B).
Proof.
  revert D. induction B as [|e B IH]; intros D HD.
  - by rewrite merge_nil.
  - rewrite merge_cons. by apply IH, step_data_keyed.
Qed.

Lemma merge_keyed_witness :
  let D : gmap string employee := {["u1" := Employee "u1" "short" ""]} in
  let B := [Employee "  u2  " "d" "c"; Employee "u1" "longer text" "Acme"] in
  keyed_dataset D ∧ keyed_dataset (merge true D B).
Proof.
  intros D B.
  assert (HD : keyed_dataset D).
  { intros k r [<- <-]%lookup_singleton_Some. by vm_compute. }
  split; [exact HD|]. exact (merge_keyed true D B HD).
Defined.

Lemma merge_step_counts m st e :
  let st' := merge_step m st e in
  size (all_data st') + new_count st = size (all_data st) + new_count st'
  ∧ (if m
     then new_count st' + updated_count st'
          = new_count st + updated_count st
            + (if PyStr.truthy (key_of e) then 1 else 0)
     else updated_count st' = updated_count st).
Proof.
  unfold merge_step. fold (key_of e).
  destruct (PyStr.truthy (key_of e)) eqn:Ht; [|destruct m; simpl; lia].
  destruct (all_data st !! key_of e) as [existing|] eqn:Hk.
  - destruct m; simpl; [|lia]. split; [|lia].
    rewrite map_size_insert_Some by eauto. lia.
  - simpl. rewrite map_size_insert_None by done. destruct m; lia.
Qed.

Lemma merge_fold_counts m B st :
  let st' := fold_left (merge_step m) B st in
  size (all_data st') + new_count st = size (all_data st) + new_count st'
  ∧ (if m
     then new_count st' + updated_count st'
          = new_count st + updated_count st + length (filed B)
     else updated_count st' = updated_count st).
Proof.
  revert st. induction B as [|e B IH]; intros st; simpl.
  - destruct m; simpl; lia.
  - destruct (IH (merge_step m st e)) as [IH1 IH2].
    destruct (merge_step_counts m st e) as [H1 H2].
    split; [lia|]. unfold filed in *. rewrite filter_cons.
    destruct m; [|lia].
    destruct (PyStr.truthy (key_of e)) eqn:Ht.
    + rewrite decide_True by done. simpl. lia.
    + rewrite decide_False by congruence. lia.
Qed.

(** X5.  The tallies of the loop are exact: the merged dataset has as many
    records as [D] plus [new_count]; in update mode every batch record with a
    non-blank url is counted once, as new or as updated, whether or not it
    changed anything; in fresh mode nothing is counted as updated. *)
Theorem merge_counts (update_mode : bool) (D : gmap string employee)
    (B : list employee) :
  let st := merge_loop update_mode D B in
  size (all_data st) = size D + new_count st
  ∧ (if update_mode
     then new_count st + updated_count st = length (filed B)
     else updated_count st = 0).
Proof.
  destruct (merge_fold_counts update_mode B (MergeState D 0 0)) as [H1 H2].
  fold (merge_loop update_mode D B) in H1, H2. simpl in *.
  split; [lia|]. destruct update_mode; lia.
Qed.

(** The loop over the heap counts as the loop over values does. *)
Lemma store_step_counts m st e mst :
  wf_refs (store st) (refs st) →
  all_data mst = deref (store st) (refs st) →
  new_count mst = st_new_count st →
  updated_count mst = st_updated_count st →
  new_count (merge_step m mst e) = st_new_count (store_step m st e)
  ∧ updated_count (merge_step m mst e) = st_updated_count (store_step m st e).
Proof.
  intros [Hlive _] Hdata Hn Hu. unfold merge_step, store_step.
  destruct (PyStr.truthy _); [|done].
  rewrite Hdata, deref_lookup.
  destruct (refs st !! PyStr.strip (Profile_URL e)) as [l|] eqn:Hl; simpl.
  - destruct (Hlive _ _ Hl) as [existing Hex]. rewrite Hex.
    destruct m; simpl; [split; congruence|done].
  - split; congruence.
Qed.

Lemma store_fold_counts m B st mst :
  wf_refs (store st) (refs st) →
  all_data mst = deref (store st) (refs st) →
  new_count mst = st_new_count st →
  updated_count mst = st_updated_count st →
  new_count (fold_left (merge_step m) B mst)
  = st_new_count (fold_left (store_step m) B st)
  ∧ updated_count (fold_left (merge_step m) B mst)
    = st_updated_count (fold_left (store_step m) B st).
Proof.
  revert st mst. induction B as [|e B IH]; intros st mst Hwf Hdata Hn Hu.
  - done.
  - simpl. destruct (store_step_refines m st e Hwf) as (Hwf1 & _ & Heq1).
    destruct (store_step_counts m st e mst Hwf Hdata Hn Hu) as [Hn1 Hu1].
    apply IH; try done. by rewrite merge_step_data, Hdata, Heq1.
Qed.

Lemma store_loop_counts m d h B :
  wf_refs h d →
  st_new_count (store_loop m d h B) = new_count (merge_loop m (deref h d) B)
  ∧ st_updated_count (store_loop m d h B)
    = updated_count (merge_loop m (deref h d) B).
Proof.
  intros Hwf.
  destruct (store_fold_counts m B (StoreState d h 0 0)
              (MergeState (deref h d) 0 0) Hwf eq_refl eq_refl eq_refl).
  done.
Qed.

(** The dict that a call starts from, with the state after a load. *)
Lemma existing_data_spec all_existing_data env s :
  (∀ d, all_existing_data = Some d → wf_refs (heap s) d) →
  let p := match all_existing_data with
           | Some d => (d, s)
           | None => load_existing_data env s
           end in
  wf_refs (heap p.2) p.1
  ∧ deref (heap p.2) p.1 = starting_dataset all_existing_data env s
  ∧ output_csv p.2 = output_csv s
  ∧ ∀ l e, heap s !! l = Some e → heap p.2 !! l = Some e.
Proof.
  intros Hwf. destruct all_existing_data as [d|]; simpl.
  - split; [by apply Hwf|done].
  - destruct (load_existing_data_spec env s) as (H1 & H2 & _ & H4 & H5). done.
Qed.

Lemma save_nonempty employees page_num update_mode all_existing_data env s :
  employees ≠ [] →
  save_employee_data employees page_num update_mode all_existing_data env s
  = let p := match all_existing_data with
             | Some d => (d, s)
             | None => load_existing_data env s
             end in
    let st := store_loop update_mode p.1 (heap p.2) employees in
    match write_and_report update_mode page_num env st p.2 with
    | inr s2 => (Returned, s2)
    | inl (e, s2) =>
        (Returned,
         PyState (heap s2) (output_csv s2)
           (logs s2 ++ [(ERROR, "Error saving data to CSV: " +:+ exn_str e)]))
    end.
Proof.
  intros Hne. destruct employees as [|e B]; [done|].
  unfold save_employee_data.
  by destruct (match all_existing_data with
               | Some d => (d, s)
               | None => load_existing_data env s
               end).
Qed.

(** What a flush whose write succeeds does, against the loop over values. *)
Lemma flush_spec employees page_num update_mode all_existing_data on_read s :
  employees ≠ [] →
  (∀ d, all_existing_data = Some d → wf_refs (heap s) d) →
  let st := merge_loop update_mode
              (starting_dataset all_existing_data (IoEnv on_read None) s)
              employees in
  let flushed := save_employee_data employees page_num update_mode
                   all_existing_data (IoEnv on_read None) s in
  flushed.1 = Returned
  ∧ output_csv flushed.2 = Some (csv_rows_of (all_data st))
  ∧ last (logs flushed.2)
    = Some (INFO, flush_message update_mode page_num
                    (new_count st) (updated_count st)).
Proof.
  intros Hne Hwf. rewrite save_nonempty by done.
  destruct (existing_data_spec all_existing_data (IoEnv on_read None) s Hwf)
    as (Hwfp & Hderef & Hfile & Hkeep).
  destruct (match all_existing_data with
            | Some d => (d, s)
            | None => load_existing_data (IoEnv on_read None) s
            end) as [d s1]. simpl in Hwfp, Hderef, Hfile, Hkeep.
  cbn [fst snd]. unfold write_and_report. cbn [on_write].
  destruct (store_loop_refines update_mode d (heap s1) employees Hwfp)
    as [Hdata _].
  destruct (store_loop_counts update_mode d (heap s1) employees Hwfp)
    as [Hn Hu].
  rewrite Hderef in Hdata, Hn, Hu. cbn [fst snd output_csv logs heap].
  split; [done|]. split; [by rewrite Hdata|].
  rewrite last_snoc, Hn, Hu. unfold flush_message. by destruct update_mode.
Qed.

(** X6.  A flush whose write succeeds returns normally, leaves in the store
    the rows of the merged dataset, and logs last the message of lines 168 and
    170 with the tallies of the merge, whatever the dict handed in (if its
    records are live and unshared) and whether or not the store could be
    read. *)
Theorem flush_writes_merge (employees : list employee) (page_num : option nat)
    (update_mode : bool) (all_existing_data : option (gmap string loc))
    (on_read : option string) (s : pystate) :
  employees ≠ [] →
  (∀ d, all_existing_data = Some d → wf_refs (heap s) d) →
  let st := merge_loop update_mode
              (starting_dataset all_existing_data (IoEnv on_read None) s)
              employees in
  let flushed := save_employee_data employees page_num update_mode
                   all_existing_data (IoEnv on_read None) s in
  flushed.1 = Returned
  ∧ output_csv flushed.2 = Some (csv_rows_of (all_data st))
  ∧ last (logs flushed.2)
    = Some (INFO, flush_message update_mode page_num
                    (new_count st) (updated_count st)).
Proof.
  intros Hne Hwf.
  destruct (flush_spec employees page_num update_mode all_existing_data
              on_read s Hne Hwf) as (H1 & H2 & H3).
  done.
Qed.

Lemma flush_writes_merge_witness :
  let s := PyState {[1%positive := Employee "u1" "short" ""]} None [] in
  let D : gmap string loc := {["u1" := 1%positive]} in
  let B := [Employee "u1" "much longer text" "Acme"; Employee "u2" "" ""] in
  let flushed := save_employee_data B (Some 3) true (Some D) (IoEnv None None) s in
  B ≠ []
  ∧ wf_refs (heap s) D
  ∧ output_csv flushed.2
    = Some (csv_rows_of (merge true (deref (heap s) D) B))
  ∧ last (logs flushed.2)
    = Some (INFO, "Updated 1 records, added 1 new (page 3)").
Proof.
  intros s D B flushed.
  assert (HB : B ≠ []) by done.
  assert (Hwf : ∀ d, Some D = Some d → wf_refs (heap s) d).
  { intros d [= <-]. split.
    - intros k l [_ <-]%lookup_singleton_Some.
      simpl. rewrite lookup_singleton_eq. eauto.
    - intros k1 k2 l [<- _]%lookup_singleton_Some [<- _]%lookup_singleton_Some.
      done. }
  destruct (flush_writes_merge B (Some 3) true (Some D) None s HB Hwf)
    as (_ & H2 & H3).
  split; [exact HB|]. split; [exact (Hwf D eq_refl)|].
  split; [exact H2|]. etrans; [exact H3|]. vm_compute. reflexivity.
Defined.

(** X7.  In fresh mode a flush never changes a record that was in memory
    before it: every record of the heap is afterwards what it was, whether
    the write succeeds or not. *)
Theorem fresh_flush_keeps_records (employees : list employee)
    (page_num : option nat) (all_existing_data : option (gmap string loc))
    (env : io_env) (s : pystate) :
  heap s ⊆ heap (save_employee_data employees page_num false
                   all_existing_data env s).2.
Proof.
  apply map_subseteq_spec. intros l e Hl.
  destruct employees as [|x B]; [done|].
  rewrite save_nonempty by done.
  assert (Hkeep : ∀ l e, heap s !! l = Some e →
            heap (match all_existing_data with
                  | Some d => (d, s)
                  | None => load_existing_data env s
                  end).2 !! l = Some e).
  { destruct all_existing_data as [d|]; [done|].
    apply load_existing_data_spec. }
  destruct (match all_existing_data with
            | Some d => (d, s)
            | None => load_existing_data env s
            end) as [d s1]. simpl in Hkeep.
  cbn [fst snd]. apply Hkeep in Hl.
  assert (H : ∀ B st, store st !! l = Some e →
              store (fold_left (store_step false) B st) !! l = Some e).
  { clear. induction B as [|x B IH]; intros st Hst; [done|]. simpl. apply IH.
    unfold store_step. destruct (PyStr.truthy _); [|done].
    destruct (refs st !! _); [done|]. simpl.
    rewrite lookup_insert_ne; [done|]. intros Heq.
    apply (is_fresh (dom (store st))). rewrite Heq. apply elem_of_dom. eauto. }
  unfold write_and_report.
  destruct (on_write env) as [wf|]; simpl; by apply H.
Qed.

(** ** The order of the rows *)

Lemma ascii_compare_N a b :
  Ascii.compare a b = (N_of_ascii a ?= N_of_ascii b)%N.
Proof. done. Qed.

Lemma string_compare_refl s : String.compare s s = Eq.
Proof.
  induction s as [|a s IH]; [done|]. simpl.
  by rewrite ascii_compare_N, N.compare_refl.
Qed.

Lemma string_leb_trans s1 s2 s3 :
  String.leb s1 s2 = true → String.leb s2 s3 = true → String.leb s1 s3 = true.
Proof.
  unfold String.leb. revert s2 s3.
  induction s1 as [|a s1 IH]; intros [|b s2] [|c s3]; simpl; try done.
  rewrite !ascii_compare_N.
  destruct (N.compare_spec (N_of_ascii a) (N_of_ascii b)) as [Hab|Hab|Hab];
    destruct (N.compare_spec (N_of_ascii b) (N_of_ascii c)) as [Hbc|Hbc|Hbc];
    try done.
  - rewrite Hab, Hbc, N.compare_refl. apply IH.
  - intros _ _. rewrite Hab. by apply N.compare_lt_iff in Hbc as ->.
  - intros _ _. rewrite <- Hbc. by apply N.compare_lt_iff in Hab as ->.
  - intros _ _.
    assert (N_of_ascii a < N_of_ascii c)%N as ->%N.compare_lt_iff by lia. done.
Qed.

Lemma string_ltb_leb s1 s2 :
  String.ltb s1 s2 = true ↔ String.leb s1 s2 = true ∧ s1 ≠ s2.
Proof.
  unfold String.ltb, String.leb. split.
  - destruct (String.compare s1 s2) eqn:Hc; try done.
    intros _. split; [done|]. intros ->.
    by rewrite string_compare_refl in Hc.
  - intros [Hle Hne]. destruct (String.compare s1 s2) eqn:Hc; try done.
    by apply String.compare_eq_iff in Hc.
Qed.

(** Insertion into a sorted list, for any order that the test decides. *)
Lemma insert_sorted_sorted {A} (le : A → A → bool) (R : relation A)
    `{!Transitive R} x l :
  (∀ a b, le a b = true → R a b) →
  (∀ a b, le a b = false → R b a) →
  StronglySorted R l → StronglySorted R (insert_sorted le x l).
Proof.
  intros Hle Htot. induction 1 as [|y l Hl IH Hy]; simpl.
  - repeat constructor.
  - destruct (le x y) eqn:Hxy.
    + apply Hle in Hxy. constructor; [by constructor|].
      constructor; [done|].
      eapply Forall_impl; [exact Hy|]. intros z ?. by etrans.
    + apply Htot in Hxy. constructor; [done|].
      rewrite insert_sorted_perm. by constructor.
Qed.

Lemma sorted_sorted {A} (le : A → A → bool) (R : relation A)
    `{!Transitive R} l :
  (∀ a b, le a b = true → R a b) →
  (∀ a b, le a b = false → R b a) →
  StronglySorted R (sorted le l).
Proof.
  intros Hle Htot. induction l as [|x l IH]; simpl; [constructor|].
  by apply insert_sorted_sorted.
Qed.

Lemma StronglySorted_NoDup_strict {A B} (f : A → B) (R : relation B) l :
  StronglySorted (λ x y, R (f x) (f y)) l → NoDup (f <$> l) →
  StronglySorted (λ x y, R (f x) (f y) ∧ f x ≠ f y) l.
Proof.
  induction 1 as [|x l Hl IH Hx]; intros Hnd; [constructor|].
  rewrite fmap_cons in Hnd. apply NoDup_cons in Hnd as [Hx' Hnd].
  constructor; [by apply IH|].
  rewrite Forall_forall in Hx |- *. intros y Hy. split; [by apply Hx|].
  intros Heq. apply Hx'. rewrite Heq. apply list_elem_of_fmap. eauto.
Qed.

Lemma StronglySorted_weaken {A} (R1 R2 : relation A) l :
  (∀ x y, R1 x y → R2 x y) → StronglySorted R1 l → StronglySorted R2 l.
Proof.
  intros HR. induction 1 as [|x l Hl IH Hx]; constructor; [done|].
  eapply Forall_impl; [exact Hx|]. intros y. apply HR.
Qed.

Lemma StronglySorted_map {A B} (f : A → B) (R : relation B) l :
  StronglySorted (λ x y, R (f x) (f y)) l → StronglySorted R (map f l).
Proof.
  induction 1 as [|x l Hl IH Hx]; simpl; constructor; [done|].
  rewrite Forall_forall in Hx. rewrite Forall_forall. intros y Hy.
  apply list_elem_of_In, in_map_iff in Hy as (z & <- & Hz).
  by apply Hx, list_elem_of_In.
Qed.

Lemma sorted_items (D : gmap string employee) :
  StronglySorted item_lt (sorted item_le (map_to_list D)).
Proof.
  assert (Hs : StronglySorted (λ x y : string * employee,
                                 String.leb x.1 y.1 = true)
                 (sorted item_le (map_to_list D))).
  { apply sorted_sorted.
    - intros x y z. apply string_leb_trans.
    - done.
    - intros a b Hab. unfold item_le in Hab.
      destruct (String.leb_total a.1 b.1) as [H|H]; [congruence|done]. }
  apply (StronglySorted_NoDup_strict fst (λ a b, String.leb a b = true)) in Hs.
  - eapply StronglySorted_weaken; [|exact Hs].
    intros x y. apply string_ltb_leb.
  - rewrite sorted_perm. apply NoDup_fst_map_to_list.
Qed.

(** X8.  The rows that a flush writes are the header followed by one row
    per record of the dataset, in strictly ascending order of key; for a keyed
    dataset the first column of each row is that key. *)
Theorem csv_rows_sorted (D : gmap string employee) :
  ∃ items,
    csv_rows_of D = fieldnames :: map (λ item, writerow item.2) items
    ∧ items ≡ₚ map_to_list D
    ∧ length (csv_rows_of D) = S (size D)
    ∧ StronglySorted item_lt items
    ∧ (keyed_dataset D →
       StronglySorted (λ a b, String.ltb a b = true)
         (map (λ row, default EmptyString (head row))
              (map (λ item, writerow item.2) items))).
Proof.
  exists (sorted item_le (map_to_list D)).
  split; [done|]. split; [apply sorted_perm|]. split.
  - unfold csv_rows_of. simpl. rewrite length_map, sorted_perm.
    by rewrite length_map_to_list.
  - split; [apply sorted_items|]. intros HD.
    rewrite map_map. simpl.
    assert (Heq : map (λ x : string * employee, Profile_URL x.2)
                    (sorted item_le (map_to_list D))
                  = map fst (sorted item_le (map_to_list D))).
    { apply map_ext_in. intros [k r] Hin. simpl.
      apply list_elem_of_In in Hin. rewrite sorted_perm in Hin.
      apply elem_of_map_to_list in Hin. by apply HD in Hin as [? _]. }
    rewrite Heq. apply StronglySorted_map. apply sorted_items.
Qed.

(** ** Batches that change nothing *)

Lemma enrich_self e : enrich e e = e.
Proof.
  apply enrich_absorbed. split.
  - unfold wants_description. destruct (PyStr.truthy (Description e)); [|done].
    simpl. apply Nat.ltb_irrefl.
  - unfold wants_company. by destruct (PyStr.truthy (Company e)).
Qed.

(** X9.  Flushing a dataset into itself, as [update_existing_profiles] does
    with [list(existing_data.values())], changes no record: when every batch
    record is the entry of a keyed dataset under its own url, the update merge
    returns the dataset, counts no record as new and counts each batch record
    as updated. *)
Theorem update_self_merge (D : gmap string employee) (B : list employee) :
  keyed_dataset D →
  (∀ e, e ∈ B → D !! Profile_URL e = Some e) →
  merge_loop true D B = MergeState D 0 (length B).
Proof.
  intros HD HB. unfold merge_loop.
  assert (H : ∀ n, fold_left (merge_step true) B (MergeState D 0 n)
                   = MergeState D 0 (n + length B)).
  { induction B as [|e B IH]; intros n; simpl; [f_equal; lia|].
    assert (He : D !! Profile_URL e = Some e) by (apply HB; by left).
    destruct (HD _ _ He) as (_ & Hne & Hs).
    apply truthy_true in Hne.
    assert (Hstep : merge_step true (MergeState D 0 n) e
                    = MergeState D 0 (S n)).
    { unfold merge_step. simpl. rewrite Hs, Hne, He, enrich_self.
      f_equal. by apply insert_id. }
    rewrite Hstep, IH; [f_equal; lia|]. intros e' ?. apply HB. by right. }
  apply (H 0).
Qed.

Lemma update_self_merge_witness :
  let D : gmap string employee :=
    {["u1" := Employee "u1" "short" ""; "u2" := Employee "u2" "" "Acme"]} in
  let B := [Employee "u2" "" "Acme"; Employee "u1" "short" ""] in
  keyed_dataset D
  ∧ (∀ e, e ∈ B → D !! Profile_URL e = Some e)
  ∧ merge_loop true D B = MergeState D 0 2.
Proof.
  intros D B.
  assert (HD : keyed_dataset D).
  { intros k r Hk. apply lookup_insert_Some in Hk as [[<- <-]|[_ Hk]].
    - by vm_compute.
    - apply lookup_singleton_Some in Hk as [<- <-]. by vm_compute. }
  assert (HB : ∀ e, e ∈ B → D !! Profile_URL e = Some e).
  { intros e He. apply elem_of_cons in He as [->|He]; [reflexivity|].
    apply list_elem_of_singleton in He as ->. reflexivity. }
  split; [exact HD|]. split; [exact HB|]. exact (update_self_merge D B HD HB).
Defined.

Lemma fresh_merge_known (M : gmap string employee) B :
  (∀ e, e ∈ B → PyStr.truthy (key_of e) = true → key_of e ∈ dom M) →
  merge false M B = M.
Proof.
  induction B as [|e B IH]; intros HB; [by rewrite merge_nil|].
  rewrite merge_cons.
  assert (Hstep : step_data false M e = M).
  { unfold step_data. destruct (PyStr.truthy (key_of e)) eqn:Ht; [|done].
    assert (Hin : key_of e ∈ dom M) by (apply HB; [by left|done]).
    apply elem_of_dom in Hin as [r ->]. done. }
  rewrite Hstep. apply IH. intros e' ? ?. apply HB; [by right|done].
Qed.

(** X10.  In fresh mode a second flush of records whose urls were all seen
    adds nothing: after merging [B] into [D], merging any batch whose non-blank
    keys are keys of [D] or of [B] leaves the dataset as it is.  This is the
    final flush of [process_company] after the flushes of the pages. *)
Theorem fresh_reflush (D : gmap string employee) (B B' : list employee) :
  (∀ e, e ∈ B' → PyStr.truthy (key_of e) = true →
        key_of e ∈ dom D ∪ batch_keys B) →
  merge false (merge false D B) B' = merge false D B.
Proof.
  intros HB'. apply fresh_merge_known. intros e He Ht.
  rewrite dom_merge. by apply HB'.
Qed.

Lemma fresh_reflush_witness :
  let D : gmap string employee := {["u1" := Employee "u1" "short" ""]} in
  let B := [Employee "u2" "d2" "c2"] in
  let B' := [Employee "u2" "another description" ""; Employee " u1 " "" ""] in
  (∀ e, e ∈ B' → PyStr.truthy (key_of e) = true →
        key_of e ∈ dom D ∪ batch_keys B)
  ∧ merge false (merge false D B) B' = merge false D B.
Proof.
  intros D B B'.
  assert (HB' : ∀ e, e ∈ B' → PyStr.truthy (key_of e) = true →
                     key_of e ∈ dom D ∪ batch_keys B).
  { intros e He _. apply elem_of_cons in He as [->|He].
    - apply elem_of_union_r. unfold batch_keys. vm_compute key_of.
      apply elem_of_list_to_set. vm_compute. left.
    - apply list_elem_of_singleton in He as ->.
      apply elem_of_union_l. apply elem_of_dom. vm_compute. eauto. }
  split; [exact HB'|]. exact (fresh_reflush D B B' HB').
Defined.

(** ** Flushes and loads in sequence *)

Lemma clean_field_empty : clean_field EmptyString.
Proof. done. Qed.

Lemma step_data_clean m D e :
  clean_dataset D →
  PyStr.contains (String CR EmptyString) (Profile_URL e) = false →
  within_limit (key_of e) = true →
  clean_field (Description e) → clean_field (Company e) →
  clean_dataset (step_data m D e).
Proof.
  intros HD Hu Hl Hd Hc. unfold step_data.
  destruct (PyStr.truthy (key_of e)) eqn:Ht; [|done].
  destruct (D !! key_of e) as [existing|] eqn:Hk.
  - destruct m; [|done].
    intros k r [[<- <-]|[_ Hr]]%lookup_insert_Some; [|by apply HD].
    destruct (HD _ _ Hk) as (H1 & H2 & H3 & H4 & H5).
    rewrite enrich_fields. simpl.
    split; [done|]. split; [done|]. split; [done|]. split.
    + by destruct (wants_description existing e).
    + by destruct (wants_company existing e).
  - intros k r [[<- <-]|[_ Hr]]%lookup_insert_Some; [|by apply HD].
    simpl. split; [done|]. split; [by apply truthy_true|].
    split; [|done]. split; [apply strip_idem|].
    split; [by apply strip_no_char|done].
Qed.

Lemma merge_clean m D B :
  clean_dataset D → clean_batch B → clean_dataset (merge m D B).
Proof.
  revert D. induction B as [|e B IH]; intros D HD HB.
  - by rewrite merge_nil.
  - rewrite merge_cons. apply IH.
    + destruct (HB e) as (Hu & Hl & Hd & Hc); [by left|].
      by apply step_data_clean.
    + intros e' ?. apply HB. by right.
Qed.

Lemma merge_app m D B1 B2 :
  merge m D (B1 ++ B2) = merge m (merge m D B1) B2.
Proof. by rewrite !merge_fold, fold_left_app. Qed.

(** Loading what was written from a clean dataset. *)
Lemma load_written D :
  clean_dataset D → load_rows (read_text (csv_rows_of D)) = inr D.
Proof.
  intros Hclean. unfold csv_rows_of, read_text. cbn [map load_rows].
  change (map universal_newlines fieldnames) with fieldnames.
  rewrite reader_next_fieldnames, load_items_clean.
  - f_equal. rewrite fold_insert_list_to_map.
    etrans; [|apply (list_to_map_to_list D)].
    apply list_to_map_proper; [|by rewrite reverse_Permutation, sorted_perm].
    rewrite reverse_Permutation, sorted_perm. apply NoDup_fst_map_to_list.
  - intros k r Hin. apply Hclean, elem_of_map_to_list.
    by rewrite <- (sorted_perm item_le).
Qed.

Lemma starting_dataset_clean all_existing_data env s :
  (∀ d, all_existing_data = Some d → clean_dataset (deref (heap s) d)) →
  clean_dataset (starting_dataset all_existing_data env s).
Proof.
  intros Hd. destruct all_existing_data as [d|]; [by apply Hd|].
  apply load_existing_data_spec.
Qed.

(** The dataset that the next load finds after a flush. *)
Lemma flush_then_load_spec employees page_num update_mode all_existing_data
    rd wr s :
  employees ≠ [] →
  clean_batch employees →
  (∀ d, all_existing_data = Some d →
        wf_refs (heap s) d ∧ clean_dataset (deref (heap s) d)) →
  starting_dataset None (IoEnv None wr)
    (save_employee_data employees page_num update_mode all_existing_data
       (IoEnv rd None) s).2
  = merge update_mode
      (starting_dataset all_existing_data (IoEnv rd None) s) employees.
Proof.
  intros Hne HB Hd.
  destruct (flush_spec employees page_num update_mode all_existing_data
              rd s Hne) as (_ & Hfile & _).
  { intros d Hsome. by apply Hd. }
  unfold starting_dataset at 1. rewrite Hfile. cbn [on_read].
  fold (merge update_mode
          (starting_dataset all_existing_data (IoEnv rd None) s) employees).
  rewrite load_written; [done|].
  apply merge_clean; [|done]. apply starting_dataset_clean.
  intros d Hsome. by apply Hd.
Qed.

(** X11.  What a flush wrote, the next load reads: after a flush of a batch
    with clean fields - stripped description and company, no carriage
    return, and no field longer than the reader's field size limit - whose
    write succeeds, [load_existing_data] returns a dict that denotes exactly
    the merged dataset. *)
Theorem flush_then_load (employees : list employee) (page_num : option nat)
    (update_mode : bool) (all_existing_data : option (gmap string loc))
    (on_read : option string) (on_write : option write_fault) (s : pystate) :
  employees ≠ [] →
  clean_batch employees →
  (∀ d, all_existing_data = Some d →
        wf_refs (heap s) d ∧ clean_dataset (deref (heap s) d)) →
  let flushed := save_employee_data employees page_num update_mode
                   all_existing_data (IoEnv on_read None) s in
  let loaded := load_existing_data (IoEnv None on_write) flushed.2 in
  deref (heap loaded.2) loaded.1
  = merge update_mode
      (starting_dataset all_existing_data (IoEnv on_read None) s) employees.
Proof.
  intros Hne HB Hd flushed loaded.
  destruct (load_existing_data_spec (IoEnv None on_write) flushed.2)
    as (_ & Hloaded & _).
  etrans; [exact Hloaded|]. by apply flush_then_load_spec.
Qed.

Lemma flush_then_load_witness :
  let s := PyState ∅ None [] in
  let B := [Employee " u2 " "d2" "c2"; Employee "u1" "d1" ""] in
  let flushed := save_employee_data B None false None (IoEnv None None) s in
  let loaded := load_existing_data (IoEnv None None) flushed.2 in
  B ≠ [] ∧ clean_batch B
  ∧ deref (heap loaded.2) loaded.1 = merge false ∅ B.
Proof.
  intros s B flushed loaded.
  assert (HB : B ≠ []) by done.
  assert (Hclean : clean_batch B).
  { intros e He. apply elem_of_cons in He as [->|He]; [by vm_compute|].
    apply list_elem_of_singleton in He as ->. by vm_compute. }
  split; [exact HB|]. split; [exact Hclean|].
  apply (flush_then_load B None false None None None s HB Hclean).
  intros d Hd. discriminate Hd.
Defined.

(** X12.  Flushing page by page is flushing at once: two successive flushes
    without [all_existing_data], of batches with clean fields (none longer
    than the reader's field size limit) and with successful writes, leave in
    the store the rows of the merge of the two batches, one after the other,
    into what the first flush started from. *)
Theorem two_flushes_compose (B1 B2 : list employee) (page1 page2 : option nat)
    (update_mode : bool) (on_read : option string) (s : pystate) :
  B1 ≠ [] → B2 ≠ [] → clean_batch B1 → clean_batch B2 →
  let s1 := (save_employee_data B1 page1 update_mode None
               (IoEnv on_read None) s).2 in
  let s2 := (save_employee_data B2 page2 update_mode None
               (IoEnv None None) s1).2 in
  output_csv s2
  = Some (csv_rows_of
            (merge update_mode
               (starting_dataset None (IoEnv on_read None) s) (B1 ++ B2))).
Proof.
  intros H1 H2 Hc1 Hc2 s1 s2. unfold s2.
  rewrite save_writes_merge by done. unfold s1.
  rewrite flush_then_load_spec by done. by rewrite merge_app.
Qed.

Lemma two_flushes_compose_witness :
  let s := PyState ∅ None [] in
  let B1 := [Employee "u2" "d2" "c2"] in
  let B2 := [Employee "u1" "d1" ""; Employee "u2" "a longer description" ""] in
  let s1 := (save_employee_data B1 (Some 1) false None (IoEnv None None) s).2 in
  let s2 := (save_employee_data B2 (Some 2) false None (IoEnv None None) s1).2 in
  B1 ≠ [] ∧ B2 ≠ [] ∧ clean_batch B1 ∧ clean_batch B2
  ∧ output_csv s2 = Some (csv_rows_of (merge false ∅ (B1 ++ B2))).
Proof.
  intros s B1 B2 s1 s2.
  assert (H1 : B1 ≠ []) by done.
  assert (H2 : B2 ≠ []) by done.
  assert (Hc1 : clean_batch B1).
  { intros e He. apply list_elem_of_singleton in He as ->. by vm_compute. }
  assert (Hc2 : clean_batch B2).
  { intros e He. apply elem_of_cons in He as [->|He]; [by vm_compute|].
    apply list_elem_of_singleton in He as ->. by vm_compute. }
  split; [exact H1|]. split; [exact H2|]. split; [exact Hc1|].
  split; [exact Hc2|].
  exact (two_flushes_compose B1 B2 (Some 1) (Some 2) false None s H1 H2 Hc1 Hc2).
Defined.

(** ** The list of companies *)

Lemma company_row_inr names acc row acc' :
  company_row names (inr acc) row = inr acc' →
  acc' = acc
  ∨ ∃ x, x ∈ row ∧ within_limit x = true
         ∧ PyStr.strip x ≠ EmptyString ∧ acc' = acc ++ [PyStr.strip x].
Proof.
  unfold company_row, reader_next.
  destruct (forallb within_limit row) eqn:Hlim; [|done].
  destruct row as [|x0 row0]; [intros [= <-]; by left|].
  set (row := x0 :: row0) in *.
  destruct (get_strip _ "Name") as [e|name] eqn:Hn; [done|].
  destruct (PyStr.truthy name) eqn:Ht; [|intros [= <-]; by left].
  intros [= <-]. right. apply truthy_true in Ht.
  apply get_strip_value in Hn as [->|(x & Hx & ->)]; [done|].
  exists x. split; [done|]. split; [by eapply within_limit_forallb|done].
Qed.

Lemma company_fold_inl names rows e :
  fold_left (company_row names) rows (inl e) = inl e.
Proof. induction rows as [|row rows IH]; [done|]. apply IH. Qed.

Lemma company_fold_names names rows acc companies :
  fold_left (company_row names) rows (inr acc) = inr companies →
  ∀ c, c ∈ companies →
    c ∈ acc ∨ ∃ row x, row ∈ rows ∧ x ∈ row ∧ within_limit x = true
                       ∧ c = PyStr.strip x ∧ c ≠ EmptyString.
Proof.
  revert acc. induction rows as [|row rows IH]; intros acc Hc c Hin.
  - injection Hc as <-. by left.
  - cbn [fold_left] in Hc.
    destruct (company_row names (inr acc) row) as [e|acc'] eqn:Hrow.
    { by rewrite company_fold_inl in Hc. }
    destruct (IH _ Hc c Hin) as [Hacc|(row' & x & ? & ? & ? & ? & ?)].
    + apply company_row_inr in Hrow as [->|(x & Hx & Hlim & Hne & ->)];
        [by left|].
      apply elem_of_app in Hacc as [?|Hx']; [by left|].
      apply list_elem_of_singleton in Hx' as ->.
      right. exists row, x. split; [by left|done].
    + right. exists row', x. split; [by right|done].
Qed.

(** The names that [read_companies] returns. *)
Lemma read_companies_names path companies_csv on_read c :
  c ∈ (read_companies path companies_csv on_read).1 →
  c ≠ EmptyString ∧ clean_field c.
Proof.
  unfold read_companies. destruct companies_csv as [f|]; [|by intros ?%not_elem_of_nil].
  destruct on_read as [msg|]; [by intros ?%not_elem_of_nil|].
  destruct (company_rows (read_text f)) as [e|companies] eqn:Hc;
    [by intros ?%not_elem_of_nil|].
  simpl. intros Hin. destruct f as [|names rows];
    cbn [read_text map company_rows] in Hc.
  { injection Hc as <-. by apply not_elem_of_nil in Hin. }
  destruct (reader_next (map universal_newlines names)) as [e|names'];
    [done|].
  destruct (company_fold_names _ _ _ _ Hc c Hin)
    as [?%not_elem_of_nil|(row & x & Hrow & Hx & Hlim & -> & Hne)]; [done|].
  split; [done|].
  apply list_elem_of_fmap in Hrow as (row0 & -> & _).
  apply list_elem_of_fmap in Hx as (x0 & -> & _).
  by apply clean_field_read.
Qed.

Lemma fold_insert_other (l : list (string * option string))
    (d : gmap string (option string)) k :
  k ∉ l.*1 →
  fold_left (λ d kv, <[kv.1 := kv.2]> d) l d !! k = d !! k.
Proof.
  revert d. induction l as [|[k' x] l IH]; intros d Hk; [done|].
  simpl. rewrite fmap_cons in Hk. apply not_elem_of_cons in Hk as [Hne Hk].
  rewrite IH by done. by apply lookup_insert_ne.
Qed.

Lemma zip_restval_keys names row k :
  k ∈ (zip_restval names row).*1 → k ∈ names.
Proof.
  revert row. induction names as [|n names IH]; intros row.
  - by destruct row.
  - destruct row as [|x row]; simpl;
      intros [->|Hk]%elem_of_cons; (by left) || (right; by eapply IH).
Qed.

Lemma company_row_first others acc x rest :
  "Name" ∉ others →
  forallb within_limit (x :: rest) = true →
  company_row ("Name" :: others) (inr acc) (x :: rest)
  = inr (if PyStr.truthy (PyStr.strip x) then acc ++ [PyStr.strip x] else acc).
Proof.
  intros Hother Hlim. unfold company_row, reader_next. rewrite Hlim.
  unfold get_strip, DictReader_row.
  cbn [zip_restval fold_left fst snd].
  rewrite fold_insert_other.
  - rewrite lookup_insert_eq. simpl. by destruct (PyStr.truthy _).
  - intros Hin. by apply zip_restval_keys in Hin.
Qed.

Lemma company_fold_first others rows acc :
  "Name" ∉ others →
  forallb (forallb within_limit) rows = true →
  fold_left (company_row ("Name" :: others)) rows (inr acc)
  = inr (acc ++ filter (λ c, PyStr.truthy c = true)
                  (map (λ row, PyStr.strip (default EmptyString (head row))) rows)).
Proof.
  intros Hother. revert acc. induction rows as [|row rows IH]; intros acc Hlim.
  - simpl. by rewrite app_nil_r.
  - cbn [forallb] in Hlim. apply andb_true_iff in Hlim as [Hrow Hrows].
    cbn [fold_left map]. rewrite filter_cons. destruct row as [|x rest].
    + simpl. by apply IH.
    + rewrite company_row_first by done. simpl.
      destruct (PyStr.truthy (PyStr.strip x)) eqn:Ht.
      * rewrite decide_True by done. rewrite IH by done.
        by rewrite <- app_assoc.
      * rewrite decide_False by congruence. by apply IH.
Qed.

(** One field over the limit, in any row, and the loop ends in an
    exception. *)
Lemma company_fold_over names rows acc :
  forallb (forallb within_limit) rows = false →
  ∃ e, fold_left (company_row names) rows acc = inl e.
Proof.
  revert acc. induction rows as [|row rows IH]; intros acc Hlim; [done|].
  cbn [fold_left]. destruct acc as [e|companies].
  { exists e. apply company_fold_inl. }
  cbn [forallb] in Hlim. unfold company_row at 2, reader_next.
  destruct (forallb within_limit row); [|eexists; apply company_fold_inl].
  by apply IH.
Qed.

Lemma universal_newlines_no_LF s :
  PyStr.contains (String LF EmptyString) (universal_newlines s) = false →
  PyStr.contains (String CR EmptyString) s = false.
Proof.
  induction s as [|c s IH]; [done|].
  cbn [universal_newlines]. destruct (decide (c = CR)) as [->|Hne].
  - by rewrite has_char_cons.
  - rewrite !has_char_cons. intros [_ Hs]%orb_false_elim.
    rewrite bool_decide_eq_false_2 by congruence. by apply IH.
Qed.

(** A text without line feed that comes out of the translation went in as
    it is. *)
Lemma universal_newlines_inv s t :
  universal_newlines s = t →
  PyStr.contains (String LF EmptyString) t = false → s = t.
Proof.
  intros <- Hlf. symmetry. by apply universal_newlines_id, universal_newlines_no_LF.
Qed.

(** X13.  [read_companies] returns only non-empty names, stripped, free
    of carriage returns and within the reader's field size limit, whatever
    the file holds; when the file does not exist, or cannot be read, it
    returns the empty list and logs one error; and when [Name] is the first
    column and no other column has that name, it returns the stripped first
    fields of the rows, in file order, without the blank ones - or the empty
    list, when some field of the file is over the reader's limit. *)
Theorem read_companies_spec (path : string) (companies_csv : option csv_file)
    (on_read : option string) :
  (∀ c, c ∈ (read_companies path companies_csv on_read).1 →
        c ≠ EmptyString ∧ clean_field c)
  ∧ (∀ msg, read_companies path None on_read
            = ([], [(ERROR, "File " +:+ path +:+ " not found")])
            ∧ read_companies path companies_csv (Some msg)
              = ([], [(ERROR, match companies_csv with
                              | Some _ => "Error reading CSV file: " +:+ msg
                              | None => "File " +:+ path +:+ " not found"
                              end)]))
  ∧ (∀ others rows,
       "Name" ∉ others →
       (read_companies path (Some (("Name" :: others) :: rows)) None).1
       = if forallb (forallb within_limit)
              (read_text (("Name" :: others) :: rows))
         then filter (λ c, PyStr.truthy c = true)
                (map (λ row, PyStr.strip
                               (universal_newlines
                                  (default EmptyString (head row))))
                     rows)
         else []).
Proof.
  split; [intros c; apply read_companies_names|]. split.
  - intros msg. split; [done|]. by destruct companies_csv.
  - intros others rows Hother. unfold read_companies, company_rows, read_text.
    cbn [map forallb]. change (universal_newlines "Name") with "Name".
    unfold reader_next. cbn [forallb].
    change (within_limit "Name") with true. cbn [andb].
    destruct (forallb within_limit (map universal_newlines others)) eqn:Ho;
      [|done].
    cbn [andb].
    destruct (forallb (forallb within_limit)
                (map (map universal_newlines) rows)) eqn:Hr.
    + rewrite company_fold_first; [|..|done].
      * simpl. f_equal. rewrite map_map. apply map_ext. by intros [|x rest].
      * intros Hin. apply Hother.
        apply list_elem_of_In, in_map_iff in Hin as (o & Ho' & Hin).
        apply list_elem_of_In in Hin.
        apply universal_newlines_inv in Ho'; [by subst|done].
    + destruct (company_fold_over ("Name" :: map universal_newlines others)
                  (map (map universal_newlines) rows) (inr []) Hr) as [e He].
      by rewrite He.
Qed.

(** ** More on the attribution *)

Lemma first_company_result dl companies :
  first_company dl companies = EmptyString
  ∨ (first_company dl companies ∈ companies
     ∧ company_matches dl (first_company dl companies) = true).
Proof.
  induction companies as [|c cs IH]; simpl; [by left|].
  destruct (company_matches dl c) eqn:Hc.
  - right. split; [by left|done].
  - destruct IH as [?|[? ?]]; [by left|right]. split; [by right|done].
Qed.

(** X14.  The attribution never invents a name: its result is the empty
    string, or a company of the list that the description names. *)
Theorem attribution_result (description : string) (companies : list string) :
  let company := assign_company_from_description description companies in
  company = EmptyString
  ∨ (company ∈ companies ∧ description ≠ EmptyString
     ∧ names_company description company).
Proof.
  unfold assign_company_from_description.
  destruct (PyStr.truthy description) eqn:Ht; [|by left].
  destruct (first_company_result (PyStr.lower description) companies)
    as [?|[Hin Hm]]; [by left|right].
  split; [done|]. split; [by apply truthy_true|].
  by apply company_matches_spec.
Qed.

Lemma first_company_empty dl companies :
  (∀ c, c ∈ companies → c ≠ EmptyString) →
  first_company dl companies = EmptyString →
  ∀ c, c ∈ companies → company_matches dl c = false.
Proof.
  induction companies as [|c cs IH]; intros Hne Hres c' Hin;
    [by apply not_elem_of_nil in Hin|].
  simpl in Hres. destruct (company_matches dl c) eqn:Hc.
  - subst c. exfalso. by apply (Hne EmptyString); [left|].
  - apply elem_of_cons in Hin as [->|Hin]; [done|].
    apply IH; [|done|done]. intros c'' ?. apply Hne. by right.
Qed.

Lemma attribution_empty_iff description companies :
  (∀ c, c ∈ companies → c ≠ EmptyString) →
  assign_company_from_description description companies = EmptyString
  ↔ description = EmptyString
    ∨ ∀ c, c ∈ companies → ¬ names_company description c.
Proof.
  intros Hne. unfold assign_company_from_description.
  destruct (PyStr.truthy description) eqn:Ht.
  - split.
    + intros Hres. right. intros c Hc.
      rewrite <- company_matches_spec.
      by rewrite (first_company_empty _ _ Hne Hres c Hc).
    + intros [->|Hno]; [done|]. apply first_company_none. intros c Hc.
      apply not_true_iff_false. rewrite company_matches_spec. by apply Hno.
  - apply truthy_false in Ht. split; [by left|done].
Qed.

(** X15.  With the companies that [read_companies] returns, an empty
    attribution means exactly that the description is empty or names none of
    them: no name of the list is empty, so none can match by accident and hide
    the companies after it. *)
Theorem attribution_of_read_companies (path : string)
    (companies_csv : option csv_file) (on_read : option string)
    (description : string) :
  let companies := (read_companies path companies_csv on_read).1 in
  assign_company_from_description description companies = EmptyString
  ↔ description = EmptyString
    ∨ ∀ c, c ∈ companies → ¬ names_company description c.
Proof.
  intros companies. apply attribution_empty_iff.
  intros c Hc. by apply read_companies_names in Hc as [? _].
Qed.

Lemma lower_char_idem c : PyStr.lower_char (PyStr.lower_char c) = PyStr.lower_char c.
Proof. by destruct c as [[] [] [] [] [] [] [] []]. Qed.

Lemma lower_idem s : PyStr.lower (PyStr.lower s) = PyStr.lower s.
Proof.
  induction s as [|c s IH]; [done|]. simpl. by rewrite lower_char_idem, IH.
Qed.

Lemma truthy_lower s : PyStr.truthy (PyStr.lower s) = PyStr.truthy s.
Proof. by destruct s. Qed.

(** X16.  The attribution ignores the case of the description: two
    descriptions with the same lower-case form get the same company, and a
    description gets the company of its lower-case form. *)
Theorem attribution_case_insensitive (description description' : string)
    (companies : list string) :
  (PyStr.lower description = PyStr.lower description' →
   assign_company_from_description description companies
   = assign_company_from_description description' companies)
  ∧ assign_company_from_description (PyStr.lower description) companies
    = assign_company_from_description description companies.
Proof.
  assert (H : ∀ d d', PyStr.lower d = PyStr.lower d' →
            assign_company_from_description d companies
            = assign_company_from_description d' companies).
  { intros d d' Heq. unfold assign_company_from_description.
    rewrite <- (truthy_lower d), <- (truthy_lower d'), Heq. done. }
  split; [apply H|]. apply H, lower_idem.
Qed.

(** ** Validation *)

Lemma rstrip_empty s :
  PyStr.rstrip s = EmptyString → PyStr.all_chars PyStr.isspace s = true.
Proof.
  induction s as [|c s IH]; [done|]. simpl.
  destruct (PyStr.rstrip s); [|done].
  destruct (PyStr.isspace c); [|done]. intros _. by apply IH.
Qed.

Lemma truthy_rstrip s :
  PyStr.truthy (PyStr.rstrip s) = negb (PyStr.all_chars PyStr.isspace s).
Proof.
  induction s as [|c s IH]; [done|]. simpl.
  destruct (PyStr.rstrip s) as [|a r] eqn:Hr.
  - rewrite (rstrip_empty s Hr), andb_true_r. by destruct (PyStr.isspace c).
  - simpl in IH. symmetry in IH. apply negb_true_iff in IH. rewrite IH.
    by rewrite andb_false_r.
Qed.

Lemma all_space_lstrip s :
  PyStr.all_chars PyStr.isspace (PyStr.lstrip s)
  = PyStr.all_chars PyStr.isspace s.
Proof.
  induction s as [|c s IH]; [done|]. simpl.
  destruct (PyStr.isspace c) eqn:Hc; [done|]. simpl. by rewrite Hc.
Qed.

(** A string strips to something exactly when it has a character that is
    not white space. *)
Lemma truthy_strip_spec s :
  PyStr.truthy (PyStr.strip s) = negb (PyStr.all_chars PyStr.isspace s).
Proof. unfold PyStr.strip. by rewrite truthy_rstrip, all_space_lstrip. Qed.

Lemma all_chars_app p s t :
  PyStr.all_chars p (s +:+ t) = PyStr.all_chars p s && PyStr.all_chars p t.
Proof.
  induction s as [|c s IH]; [done|]. rewrite append_cons. simpl.
  by rewrite IH, andb_assoc.
Qed.

Lemma contains_profile_not_blank s :
  PyStr.contains "/in/" s = true → PyStr.truthy (PyStr.strip s) = true.
Proof.
  intros (pre & post & ->)%contains_spec.
  rewrite truthy_strip_spec, !all_chars_app. simpl.
  by rewrite andb_false_r.
Qed.

(** X17.  A record is valid exactly when its first or last name is not
    blank and its url contains [/in/]: the test that the url is not blank adds
    nothing.  A dict with the three keys that the scraper writes has no name
    and is never valid. *)
Theorem validate_employee_data_spec (employee : gmap string string) :
  (validate_employee_data employee = true
   ↔ (PyStr.strip (py_get employee "First_Name") ≠ EmptyString
      ∨ PyStr.strip (py_get employee "Last_Name") ≠ EmptyString)
     ∧ occurs_in "/in/" (py_get employee "Profile_URL"))
  ∧ ∀ e, validate_employee_data (record_dict e) = false.
Proof.
  split.
  - unfold validate_employee_data.
    rewrite !andb_true_iff, orb_true_iff, !truthy_true, contains_spec.
    split; [tauto|]. intros [Hname Hurl]. split; [done|]. split; [|done].
    apply truthy_true, contains_profile_not_blank. by apply contains_spec.
  - intros e. unfold validate_employee_data, record_dict, py_get.
    rewrite !lookup_insert_ne by done. rewrite !lookup_singleton_ne by done.
    done.
Qed.

(** ** The company of the records of a page *)

Lemma attribution_result_aux description companies :
  assign_company_from_description description companies = EmptyString
  ∨ (assign_company_from_description description companies ∈ companies
     ∧ description ≠ EmptyString
     ∧ names_company description
         (assign_company_from_description description companies)).
Proof.
  unfold assign_company_from_description.
  destruct (PyStr.truthy description) eqn:Ht; [|by left].
  destruct (first_company_result (PyStr.lower description) companies)
    as [?|[Hin Hm]]; [by left|right].
  split; [done|]. split; [by apply truthy_true|].
  by apply company_matches_spec.
Qed.

Lemma assign_page_company_provenance company_name companies_list emp :
  company_provenance company_name companies_list emp
    (assign_page_company company_name companies_list emp).
Proof.
  unfold assign_page_company, company_provenance.
  destruct (negb (PyStr.truthy (Company emp)) || _) eqn:Hc.
  - destruct (PyStr.truthy (Description emp)) eqn:Hd.
    + destruct (PyStr.truthy (assign_company_from_description _ _)) eqn:Ha.
      * simpl. split; [done|]. split; [done|]. right. right.
        apply truthy_true in Ha.
        destruct (attribution_result_aux (Description emp) companies_list)
          as [?|(? & ? & ?)]; [done|]. done.
      * destruct (PyStr.truthy company_name) eqn:Hn; simpl; [|tauto].
        apply truthy_true in Hn. tauto.
    + destruct (PyStr.truthy company_name) eqn:Hn; simpl; [|tauto].
      apply truthy_true in Hn. tauto.
  - apply orb_false_elim in Hc as [Hc _]. rewrite Hc. tauto.
Qed.

Lemma assign_page_company_filled company_name companies_list emp :
  company_name ≠ EmptyString →
  Company (assign_page_company company_name companies_list emp) ≠ EmptyString.
Proof.
  intros Hn. apply truthy_true in Hn. unfold assign_page_company.
  destruct (PyStr.truthy (Company emp)) eqn:Hc; simpl.
  - destruct (bool_decide (Company emp = company_name)) eqn:Heq.
    + destruct (PyStr.truthy (Description emp)).
      * destruct (PyStr.truthy (assign_company_from_description _ _)) eqn:Ha;
          simpl; [by apply truthy_true|]. rewrite Hn. simpl. by apply truthy_true.
      * rewrite Hn. simpl. by apply truthy_true.
    + by apply truthy_true.
  - destruct (PyStr.truthy (Description emp)).
    + destruct (PyStr.truthy (assign_company_from_description _ _)) eqn:Ha;
        simpl; [by apply truthy_true|]. rewrite Hn. simpl. by apply truthy_true.
    + rewrite Hn. simpl. by apply truthy_true.
Qed.

Lemma assign_page_company_idem company_name companies_list emp :
  assign_page_company company_name companies_list
    (assign_page_company company_name companies_list emp)
  = assign_page_company company_name companies_list emp.
Proof.
  unfold assign_page_company, with_company.
  destruct (PyStr.truthy (Company emp)) eqn:Hc;
    destruct (bool_decide (Company emp = company_name)) eqn:He;
    destruct (PyStr.truthy (Description emp)) eqn:Hd;
    destruct (PyStr.truthy (assign_company_from_description (Description emp)
                              companies_list)) eqn:Ha;
    destruct (PyStr.truthy company_name) eqn:Hn;
    simpl;
    rewrite ?Hc, ?He, ?Hd, ?Ha, ?Hn, ?bool_decide_eq_true_2 by done;
    simpl; rewrite ?Hd, ?Ha, ?Hn, ?orb_true_r; simpl; try done;
    match goal with
    | |- context [bool_decide ?P] => by destruct (bool_decide P)
    end.
Qed.

(** X18.  The company pass over a page keeps the records in place, with
    their urls and descriptions; the company of a record afterwards is the one
    it had, or the company being scraped, or a company of the list that the
    description names; a record whose company was set to another company is
    left alone; and when there is a list and a company being scraped, no
    record is left without a company. *)
Theorem company_pass_spec (company_name : string) (companies_list : list string)
    (visible : list employee) :
  let page := extract_employees_from_current_page company_name companies_list
                visible in
  Forall2 (company_provenance company_name companies_list) visible page
  ∧ (∀ i emp, visible !! i = Some emp →
       Company emp ≠ EmptyString → Company emp ≠ company_name →
       page !! i = Some emp)
  ∧ (companies_list ≠ [] → company_name ≠ EmptyString →
     ∀ emp, emp ∈ page → Company emp ≠ EmptyString).
Proof.
  unfold extract_employees_from_current_page.
  destruct companies_list as [|c0 cs] eqn:Hlist.
  - split; [|split; [done|done]].
    apply Forall2_same_length_lookup_2; [done|].
    intros i a b Ha Hb. rewrite Ha in Hb. injection Hb as <-.
    unfold company_provenance. tauto.
  - rewrite <- Hlist. split; [|split].
    + apply Forall2_same_length_lookup_2; [by rewrite length_map|].
      intros i a b Ha Hb.
      assert (Hb' : map (assign_page_company company_name companies_list) visible
                    !! i = Some (assign_page_company company_name companies_list a)).
      { change (map ?f ?l) with (f <$> l). by rewrite list_lookup_fmap, Ha. }
      rewrite Hb' in Hb. injection Hb as <-.
      apply assign_page_company_provenance.
    + intros i emp Hi Hne Hother.
      change (map ?f ?l) with (f <$> l). rewrite list_lookup_fmap, Hi. simpl.
      f_equal. unfold assign_page_company.
      apply truthy_true in Hne. rewrite Hne. simpl.
      by rewrite bool_decide_eq_false_2.
    + intros _ Hn emp Hin.
      apply list_elem_of_In, in_map_iff in Hin as (emp0 & <- & _).
      by apply assign_page_company_filled.
Qed.

(** X19.  The company pass is idempotent: running it again over its own
    result changes nothing. *)
Theorem company_pass_idempotent (company_name : string)
    (companies_list : list string) (visible : list employee) :
  extract_employees_from_current_page company_name companies_list
    (extract_employees_from_current_page company_name companies_list visible)
  = extract_employees_from_current_page company_name companies_list visible.
Proof.
  unfold extract_employees_from_current_page.
  destruct companies_list as [|c0 cs]; [done|].
  rewrite map_map. apply map_ext. intros emp. apply assign_page_company_idem.
Qed.

(** ** Filling in existing profiles *)

Lemma fill_fields data emp :
  (fill data emp).1
  = Employee (Profile_URL data)
      (if PyStr.truthy (Description data) then Description data
       else Description emp)
      (if PyStr.truthy (Company data) then Company data else Company emp)
  ∧ (fill data emp).2
    = (negb (PyStr.truthy (Description data)) && PyStr.truthy (Description emp))
      || (negb (PyStr.truthy (Company data)) && PyStr.truthy (Company emp)).
Proof.
  unfold fill. destruct data as [u d c], emp as [u' d' c']. simpl.
  destruct (PyStr.truthy d) eqn:Hd, (PyStr.truthy d') eqn:Hd',
    (PyStr.truthy c) eqn:Hc, (PyStr.truthy c') eqn:Hc'; simpl;
    rewrite ?Hc; simpl; split; try done;
    repeat match goal with
           | H : PyStr.truthy ?s = false |- _ =>
               apply truthy_false in H; subst s
           end; done.
Qed.

Lemma fill_step_data st emp :
  fill_existing_data (fill_step st emp)
  = if PyStr.truthy (Profile_URL emp) then
      match fill_existing_data st !! Profile_URL emp with
      | Some data => <[Profile_URL emp := (fill data emp).1]> (fill_existing_data st)
      | None => fill_existing_data st
      end
    else fill_existing_data st.
Proof.
  unfold fill_step. destruct (PyStr.truthy _); [|done].
  destruct (fill_existing_data st !! _) as [data|]; [|done].
  by destruct (fill data emp) as [data' []].
Qed.

Lemma fill_page_lookup page st k :
  fill_existing_data (fill_page st page) !! k
  = (λ r, fold_left (λ d e, (fill d e).1)
            (filter (λ e, Profile_URL e = k ∧ PyStr.truthy k = true) page) r)
    <$> fill_existing_data st !! k.
Proof.
  unfold fill_page. revert st. induction page as [|e page IH]; intros st.
  - simpl. by destruct (fill_existing_data st !! k).
  - cbn [fold_left]. rewrite IH, fill_step_data, filter_cons.
    destruct (decide (Profile_URL e = k ∧ PyStr.truthy k = true)) as [[<- Ht]|Hk].
    + rewrite Ht. destruct (fill_existing_data st !! Profile_URL e) as [data|] eqn:Hd.
      * by rewrite lookup_insert_eq.
      * by rewrite Hd.
    + destruct (PyStr.truthy (Profile_URL e)) eqn:Ht; [|done].
      destruct (fill_existing_data st !! Profile_URL e) as [data|]; [|done].
      rewrite lookup_insert_ne; [done|]. intros <-. tauto.
Qed.

Lemma filled_from_fold es r :
  filled_from es r (fold_left (λ d e, (fill d e).1) es r).
Proof.
  induction es as [|e es IH] using rev_ind.
  - by split.
  - rewrite fold_left_app. cbn [fold_left].
    set (r1 := fold_left (λ d e, (fill d e).1) es r) in *.
    destruct IH as [Hu Hdk Hck Hd Hc].
    destruct (fill_fields r1 e) as [-> _]. split; simpl.
    + done.
    + intros Hne. rewrite (Hdk Hne). apply truthy_true in Hne. by rewrite Hne.
    + intros Hne. rewrite (Hck Hne). apply truthy_true in Hne. by rewrite Hne.
    + destruct (PyStr.truthy (Description r1)) eqn:Ht.
      * intros Hne. destruct (Hd Hne) as (e0 & ? & ? & ?).
        exists e0. split; [set_solver|done].
      * intros Hne. exists e. split; [set_solver|]. split; [done|].
        apply truthy_false in Ht. intros Hempty. apply Hne.
        rewrite Hempty. destruct (decide (Description r = EmptyString)) as [->|Hr];
          [done|]. rewrite <- (Hdk Hr). done.
    + destruct (PyStr.truthy (Company r1)) eqn:Ht.
      * intros Hne. destruct (Hc Hne) as (e0 & ? & ? & ?).
        exists e0. split; [set_solver|done].
      * intros Hne. exists e. split; [set_solver|]. split; [done|].
        apply truthy_false in Ht. intros Hempty. apply Hne.
        rewrite Hempty. destruct (decide (Company r = EmptyString)) as [->|Hr];
          [done|]. rewrite <- (Hck Hr). done.
Qed.

Lemma fill_step_counts st emp :
  let st' := fill_step st emp in
  fill_updated_count st' + fill_skipped_count st'
  = fill_updated_count st + fill_skipped_count st
    + length (known (fill_existing_data st) [emp])
  ∧ fill_company_updated st' + fill_updated_count st
    = fill_company_updated st + fill_updated_count st'
  ∧ dom (fill_existing_data st') = dom (fill_existing_data st).
Proof.
  unfold fill_step, known. rewrite filter_cons, filter_nil.
  destruct (PyStr.truthy (Profile_URL emp)) eqn:Ht.
  - destruct (fill_existing_data st !! Profile_URL emp) as [data|] eqn:Hd.
    + rewrite decide_True by eauto.
      assert (Hdom : ∀ x, dom (<[Profile_URL emp := x]> (fill_existing_data st))
                          = dom (fill_existing_data st)).
      { intros x. rewrite dom_insert_L.
        assert (Profile_URL emp ∈ dom (fill_existing_data st))
          by (apply elem_of_dom; eauto).
        set_solver. }
      destruct (fill data emp) as [data' []]; simpl; rewrite Hdom;
        repeat split; lia.
    + rewrite decide_False by (intros [_ [? ?]]; congruence). simpl.
      repeat split; lia.
  - rewrite decide_False by (intros [? _]; congruence). simpl.
    repeat split; lia.
Qed.

Lemma known_dom D D' page : dom D = dom D' → known D page = known D' page.
Proof.
  intros Hdom. unfold known. apply list_filter_iff. intros emp.
  by rewrite <- !elem_of_dom, Hdom.
Qed.

Lemma fill_page_counts page st :
  let st' := fill_page st page in
  fill_updated_count st' + fill_skipped_count st'
  = fill_updated_count st + fill_skipped_count st
    + length (known (fill_existing_data st) page)
  ∧ fill_company_updated st' + fill_updated_count st
    = fill_company_updated st + fill_updated_count st'
  ∧ dom (fill_existing_data st') = dom (fill_existing_data st).
Proof.
  unfold fill_page. revert st. induction page as [|e page IH]; intros st.
  - simpl. repeat split; lia.
  - cbn [fold_left].
    destruct (fill_step_counts st e) as (H1 & H2 & H3).
    destruct (IH (fill_step st e)) as (I1 & I2 & I3).
    rewrite (known_dom _ (fill_existing_data st)) in I1 by done.
    assert (Hk : length (known (fill_existing_data st) (e :: page))
                 = length (known (fill_existing_data st) [e])
                   + length (known (fill_existing_data st) page)).
    { unfold known. rewrite !filter_cons, filter_nil.
      destruct (decide _); simpl; lia. }
    repeat split; [lia|lia|congruence].
Qed.

(** X20.  The fill loop of [update_existing_profiles] never adds or removes
    a key and never overwrites a field that has a value: each record keeps
    its url and its non-empty fields, and a field that changed was empty and
    is now the non-empty field of a page record with that url.  Every page
    record whose url is a key of the dataset is counted once, as updated or as
    skipped, and [company_updated] moves with [updated_count]. *)
Theorem fill_page_spec (st : fill_state) (page_employees : list employee) :
  let st' := fill_page st page_employees in
  dom (fill_existing_data st') = dom (fill_existing_data st)
  ∧ (∀ k r, fill_existing_data st !! k = Some r →
       ∃ r', fill_existing_data st' !! k = Some r'
             ∧ filled_from (filter (λ e, Profile_URL e = k) page_employees) r r')
  ∧ fill_updated_count st' + fill_skipped_count st'
    = fill_updated_count st + fill_skipped_count st
      + length (known (fill_existing_data st) page_employees)
  ∧ fill_company_updated st' + fill_updated_count st
    = fill_company_updated st + fill_updated_count st'.
Proof.
  intros st'. destruct (fill_page_counts page_employees st) as (H1 & H2 & H3).
  split; [done|]. split; [|done].
  intros k r Hk. unfold st'. rewrite fill_page_lookup, Hk. simpl.
  eexists. split; [done|].
  destruct (PyStr.truthy k) eqn:Ht.
  - assert (Heq : filter (λ e, Profile_URL e = k ∧ true = true) page_employees
                  = filter (λ e, Profile_URL e = k) page_employees).
    { apply list_filter_iff. tauto. }
    rewrite Heq. apply filled_from_fold.
  - assert (Heq : filter (λ e, Profile_URL e = k ∧ false = true) page_employees
                  = []).
    { clear. induction page_employees as [|e l IH]; [done|].
      rewrite filter_cons, decide_False by (intros [_ ?]; done). done. }
    rewrite Heq. simpl. by split.
Qed.

Lemma fill_unchanged d e : (fill d e).2 = false → (fill d e).1 = d.
Proof.
  destruct (fill_fields d e) as [-> ->].
  intros [H1 H2]%orb_false_elim. destruct d as [u dd dc]. simpl in *.
  destruct (PyStr.truthy dd) eqn:Hd, (PyStr.truthy dc) eqn:Hc; simpl in *;
    repeat match goal with
           | H : PyStr.truthy ?s = false |- _ => apply truthy_false in H
           end; congruence.
Qed.

Lemma fill_settled_after d e : (fill (fill d e).1 e).2 = false.
Proof.
  destruct (fill_fields (fill d e).1 e) as [_ ->].
  destruct (fill_fields d e) as [-> _]. simpl.
  destruct (PyStr.truthy (Description d)) eqn:Hd,
    (PyStr.truthy (Company d)) eqn:Hc; simpl; rewrite ?Hd, ?Hc; simpl;
    by destruct (PyStr.truthy (Description e)), (PyStr.truthy (Company e)).
Qed.

Lemma fill_settled_kept d e2 e :
  (fill d e).2 = false → (fill (fill d e2).1 e).2 = false.
Proof.
  destruct (fill_fields d e) as [_ ->].
  destruct (fill_fields (fill d e2).1 e) as [_ ->].
  destruct (fill_fields d e2) as [-> _]. simpl.
  destruct (PyStr.truthy (Description d)) eqn:Hd,
    (PyStr.truthy (Company d)) eqn:Hc; simpl; rewrite ?Hd, ?Hc; simpl;
    destruct (PyStr.truthy (Description e)), (PyStr.truthy (Company e));
    simpl; try done;
    by destruct (PyStr.truthy (Description e2)), (PyStr.truthy (Company e2)).
Qed.

Lemma fill_fold_settled_kept es d e :
  (fill d e).2 = false →
  (fill (fold_left (λ d e, (fill d e).1) es d) e).2 = false.
Proof.
  revert d. induction es as [|e2 es IH]; intros d Hd; [done|].
  simpl. apply IH. by apply fill_settled_kept.
Qed.

Lemma fill_fold_settled es d e :
  e ∈ es → (fill (fold_left (λ d e, (fill d e).1) es d) e).2 = false.
Proof.
  revert d. induction es as [|e2 es IH]; intros d Hin; [by inversion Hin|].
  cbn [fold_left]. apply elem_of_cons in Hin as [->|Hin]; [|by apply IH].
  apply fill_fold_settled_kept, fill_settled_after.
Qed.

Lemma fill_page_settled D page u s c :
  (∀ e data, e ∈ page → PyStr.truthy (Profile_URL e) = true →
     D !! Profile_URL e = Some data → (fill data e).2 = false) →
  fill_page (FillState D u s c) page
  = FillState D u (s + length (known D page)) c.
Proof.
  unfold fill_page. revert s. induction page as [|e page IH]; intros s Hset.
  - simpl. f_equal. lia.
  - cbn [fold_left].
    assert (Hstep : fill_step (FillState D u s c) e
                    = FillState D u (s + length (known D [e])) c).
    { unfold fill_step, known. rewrite filter_cons, filter_nil.
      cbn [fill_existing_data fill_updated_count fill_skipped_count
           fill_company_updated].
      destruct (PyStr.truthy (Profile_URL e)) eqn:Ht.
      - destruct (D !! Profile_URL e) as [data|] eqn:Hd.
        + rewrite decide_True by eauto.
          pose proof (Hset e data (list_elem_of_here _ _) Ht Hd) as Hs.
          pose proof (fill_unchanged _ _ Hs) as Hu.
          destruct (fill data e) as [data' needs]. cbn [fst snd] in Hs, Hu.
          subst. rewrite insert_id by done. f_equal. simpl. lia.
        + rewrite decide_False by (intros [_ [? ?]]; congruence).
          f_equal. simpl. lia.
      - rewrite decide_False by (intros [? _]; congruence). f_equal. simpl. lia. }
    rewrite Hstep, IH.
    + f_equal. unfold known. rewrite !filter_cons, filter_nil.
      destruct (decide _); simpl; lia.
    + intros e' data ? ? ?. eapply Hset; [by right|done|done].
Qed.

(** X21.  The fill loop is idempotent: a second pass over the same page
    changes no record and no update count, and counts every page record found
    in the dataset as skipped. *)
Theorem fill_page_idempotent (st : fill_state) (page_employees : list employee) :
  let st1 := fill_page st page_employees in
  fill_page st1 page_employees
  = FillState (fill_existing_data st1) (fill_updated_count st1)
      (fill_skipped_count st1
       + length (known (fill_existing_data st) page_employees))
      (fill_company_updated st1).
Proof.
  intros st1.
  destruct (fill_page_counts page_employees st) as (_ & _ & Hdom).
  rewrite <- (known_dom (fill_existing_data st1) (fill_existing_data st))
    by exact Hdom.
  transitivity (fill_page (FillState (fill_existing_data st1)
                             (fill_updated_count st1) (fill_skipped_count st1)
                             (fill_company_updated st1)) page_employees).
  { by destruct st1. }
  apply fill_page_settled. intros e data He Ht Hd.
  unfold st1 in Hd. rewrite fill_page_lookup in Hd.
  destruct (fill_existing_data st !! Profile_URL e) as [r|]; [|done].
  injection Hd as <-. apply fill_fold_settled.
  apply list_elem_of_filter. by rewrite Ht.
Qed.

Lemma fill_fold_complete es d :
  complete d = true → complete (fold_left (λ d e, (fill d e).1) es d) = true.
Proof.
  intros Hc. destruct (filled_from_fold es d) as [_ Hd Hk _ _].
  unfold complete in *. apply andb_true_iff in Hc as [H1 H2].
  rewrite Hd, Hk, H1, H2 by (by apply truthy_true). done.
Qed.

(** X22.  The fill loop never makes a complete record incomplete, so the
    number of profiles that need an update, as line 739 counts them, does not
    grow. *)
Theorem fill_page_needing_update (st : fill_state)
    (page_employees : list employee) :
  profiles_needing_update (fill_existing_data (fill_page st page_employees))
  ≤ profiles_needing_update (fill_existing_data st).
Proof.
  unfold profiles_needing_update. rewrite <- !size_dom.
  apply subseteq_size. intros k [r' Hk]%elem_of_dom.
  apply map_lookup_filter_Some in Hk as [Hk Hinc]. simpl in Hinc.
  rewrite fill_page_lookup in Hk.
  destruct (fill_existing_data st !! k) as [r|] eqn:Hr; [|done].
  injection Hk as <-. apply elem_of_dom. exists r.
  apply map_lookup_filter_Some. split; [done|]. simpl.
  apply not_true_iff_false. intros Hc. apply not_true_iff_false in Hinc.
  apply Hinc. by apply fill_fold_complete.
Qed.

(** ** Collecting the records of a company *)

Lemma collect_step_fresh st emp :
  (∀ m, m ∈ all_employees st → ∃ e, m = Own e) →
  let st' := collect_step false st emp in
  collect_existing_data st' = collect_existing_data st
  ∧ (∀ m, m ∈ all_employees st' → ∃ e, m = Own e)
  ∧ (st' = st
     ∨ (PyStr.truthy (Profile_URL emp) = true
        ∧ (emp ∉ collected_employees st)
        ∧ all_employees st' = all_employees st ++ [Own emp])).
Proof.
  intros Hown. unfold collect_step.
  destruct (PyStr.truthy (Profile_URL emp)) eqn:Ht; [|by eauto].
  case_bool_decide as Hin; [by eauto|]. simpl.
  split; [done|]. split; [|by right].
  intros m [Hm|Hm%list_elem_of_singleton]%elem_of_app; subst; eauto.
Qed.

Lemma collected_own (D : gmap string employee) (l : list member) :
  (∀ m, m ∈ l → ∃ e, m = Own e) →
  ∀ e, e ∈ omap (member_value D) l ↔ Own e ∈ l.
Proof.
  intros Hown e. rewrite list_elem_of_omap. split.
  - intros (m & Hm & Hv). destruct (Hown m Hm) as [e' ->].
    simpl in Hv. by injection Hv as ->.
  - intros Hin. by exists (Own e).
Qed.

Lemma collect_fold_fresh page st :
  (∀ m, m ∈ all_employees st → ∃ e, m = Own e) →
  NoDup (all_employees st) →
  let st' := fold_left (collect_step false) page st in
  collect_existing_data st' = collect_existing_data st
  ∧ (∀ m, m ∈ all_employees st' → ∃ e, m = Own e)
  ∧ NoDup (all_employees st')
  ∧ (∃ new, all_employees st' = all_employees st ++ map Own new
            ∧ ∀ e, e ∈ new → e ∈ page ∧ PyStr.truthy (Profile_URL e) = true)
  ∧ ∀ e, e ∈ page → PyStr.truthy (Profile_URL e) = true →
         Own e ∈ all_employees st'.
Proof.
  revert st. induction page as [|emp page IH]; intros st Hown Hnd.
  - simpl. split; [done|]. split; [exact Hown|]. split; [done|]. split.
    + exists []. simpl. rewrite app_nil_r. split; [done|].
      intros e He. by apply not_elem_of_nil in He.
    + intros e He. by apply not_elem_of_nil in He.
  - cbn [fold_left].
    destruct (collect_step_fresh st emp Hown) as (HD & Hown1 & Hstep).
    assert (Hnd1 : NoDup (all_employees (collect_step false st emp))).
    { destruct Hstep as [Heq|(_ & Hnew & Heq)]; rewrite Heq; [done|].
      apply NoDup_app. split; [done|]. split; [|apply NoDup_singleton].
      intros m Hm Hm'%list_elem_of_singleton. subst m. apply Hnew.
      by apply collected_own. }
    destruct (IH _ Hown1 Hnd1) as (HD2 & Hown2 & Hnd2 & (new & Hall & Hnew) & Hin).
    split; [congruence|]. split; [done|]. split; [done|]. split.
    + destruct Hstep as [Heq|(Ht & _ & Happ)].
      * exists new. rewrite Hall, Heq. split; [done|].
        intros e He. destruct (Hnew e He). split; [by right|done].
      * exists (emp :: new). rewrite Hall, Happ, <- app_assoc. split; [done|].
        intros e [->|He]%elem_of_cons; [split; [by left|done]|].
        destruct (Hnew e He). split; [by right|done].
    + intros e [->|He]%elem_of_cons Ht; [|by apply Hin].
      rewrite Hall. apply elem_of_app. left.
      destruct Hstep as [Heq|(_ & _ & Happ)].
      * rewrite Heq. apply (collected_own (collect_existing_data st)); [done|].
        unfold collect_step in Heq. rewrite Ht in Heq.
        case_bool_decide as Hc; [done|].
        exfalso. apply (f_equal (λ s, length (all_employees s))) in Heq.
        simpl in Heq. rewrite length_app in Heq. simpl in Heq. lia.
      * rewrite Happ. apply elem_of_app. right. by left.
Qed.

Lemma first_occurrences_snoc {A} `{EqDecision A} (l : list A) (x : A) :
  first_occurrences (l ++ [x])
  = if decide (x ∈ l) then first_occurrences l else first_occurrences l ++ [x].
Proof.
  unfold first_occurrences. rewrite reverse_app. cbn [reverse app remove_dups].
  change (reverse [x]) with [x]. cbn [app remove_dups].
  destruct (decide_rel elem_of x (reverse l)) as [Hin|Hin];
    rewrite elem_of_reverse in Hin.
  - by rewrite decide_True.
  - by rewrite decide_False, reverse_cons.
Qed.

Lemma elem_of_first_occurrences {A} `{EqDecision A} (l : list A) (x : A) :
  x ∈ first_occurrences l ↔ x ∈ l.
Proof.
  unfold first_occurrences.
  by rewrite elem_of_reverse, elem_of_remove_dups, elem_of_reverse.
Qed.

Lemma NoDup_first_occurrences {A} `{EqDecision A} (l : list A) :
  NoDup (first_occurrences l).
Proof.
  unfold first_occurrences. rewrite reverse_Permutation.
  apply NoDup_remove_dups.
Qed.

Lemma collected_map_Own D l :
  omap (member_value D) (map Own l) = l.
Proof. induction l as [|x l IH]; [done|]. simpl. f_equal. exact IH. Qed.

(** The list after the loop, in fresh mode: what was there, then the new
    values in the order in which the page first shows them. *)
Lemma collect_fold_order D seen page :
  let st' := fold_left (collect_step false) page
               (CollectState D (map Own seen)) in
  collect_existing_data st' = D
  ∧ all_employees st'
    = map Own
        (seen ++ first_occurrences
                   (filter (λ e, PyStr.truthy (Profile_URL e) = true ∧ e ∉ seen)
                      page)).
Proof.
  induction page as [|emp page IH] using rev_ind.
  - simpl. by rewrite app_nil_r.
  - cbn zeta in *. rewrite fold_left_app. cbn [fold_left].
    destruct IH as [HD Hall].
    set (st1 := fold_left (collect_step false) page
                  (CollectState D (map Own seen))) in *.
    set (P := λ e : employee, PyStr.truthy (Profile_URL e) = true ∧ e ∉ seen)
      in *.
    assert (Hval : collected_employees st1
                   = seen ++ first_occurrences (filter P page)).
    { unfold collected_employees. rewrite Hall. apply collected_map_Own. }
    assert (Hstep : collect_step false st1 emp
                    = if decide (P emp) then
                        if decide (emp ∈ filter P page) then st1
                        else CollectState (collect_existing_data st1)
                               (all_employees st1 ++ [Own emp])
                      else st1).
    { unfold collect_step. destruct (decide (P emp)) as [[Ht Hs]|Hn].
      - rewrite Ht. destruct (decide (emp ∈ filter P page)) as [Hf|Hf].
        + rewrite bool_decide_eq_true_2; [done|].
          rewrite Hval. apply elem_of_app. right.
          by apply elem_of_first_occurrences.
        + rewrite bool_decide_eq_false_2; [done|].
          rewrite Hval. intros [?|Hin]%elem_of_app; [done|].
          apply Hf. by apply elem_of_first_occurrences.
      - destruct (PyStr.truthy (Profile_URL emp)) eqn:Ht; [|done].
        rewrite bool_decide_eq_true_2; [done|].
        rewrite Hval. apply elem_of_app. left.
        destruct (decide (emp ∈ seen)) as [?|Hs]; [done|].
        exfalso. by apply Hn. }
    rewrite Hstep, filter_app, filter_cons, filter_nil.
    destruct (decide (P emp)) as [HP|HP].
    + rewrite first_occurrences_snoc.
      destruct (decide (emp ∈ filter P page)) as [Hf|Hf]; [done|].
      cbn [collect_existing_data all_employees]. split; [done|].
      by rewrite Hall, !map_app, app_assoc.
    + by rewrite app_nil_r.
Qed.

(** X23.  In fresh mode the collection loop of [extract_employees] leaves
    [existing_data] alone and appends to [all_employees] the page records
    whose url is not empty and whose value is not yet in the list, each once,
    in the order in which the page first shows them; the list never repeats a
    value, and every page record with a non-empty url is in it afterwards. *)
Theorem collect_fresh_spec (existing_data : gmap string employee)
    (seen page_employees : list employee) :
  NoDup seen →
  let st' := fold_left (collect_step false) page_employees
               (CollectState existing_data (map Own seen)) in
  collect_existing_data st' = existing_data
  ∧ NoDup (collected_employees st')
  ∧ collected_employees st'
    = seen ++ first_occurrences
                (filter (λ e, PyStr.truthy (Profile_URL e) = true ∧ e ∉ seen)
                   page_employees)
  ∧ ∀ e, e ∈ page_employees → PyStr.truthy (Profile_URL e) = true →
         e ∈ collected_employees st'.
Proof.
  intros Hnd st'.
  destruct (collect_fold_order existing_data seen page_employees)
    as [HD Hall].
  fold st' in HD, Hall.
  assert (Hval : collected_employees st'
                 = seen ++ first_occurrences
                             (filter (λ e, PyStr.truthy (Profile_URL e) = true
                                           ∧ e ∉ seen) page_employees)).
  { unfold collected_employees. rewrite Hall. apply collected_map_Own. }
  split; [done|]. split; [|split; [done|]].
  - rewrite Hval. apply NoDup_app. split; [done|].
    split; [|apply NoDup_first_occurrences].
    intros e Hs Hin.
    apply (proj1 (elem_of_first_occurrences _ _)) in Hin.
    apply list_elem_of_filter in Hin as [[_ Hns] _]. done.
  - intros e He Ht. rewrite Hval. apply elem_of_app.
    destruct (decide (e ∈ seen)) as [?|Hns]; [by left|right].
    apply elem_of_first_occurrences, list_elem_of_filter. done.
Qed.

Lemma collect_fresh_spec_witness :
  let seen := [Employee "u1" "d1" "Acme"] in
  let page := [Employee "u2" "d2" "Acme"; Employee "" "x" ""; Employee "u1" "d1" "Acme";
               Employee "u2" "d2" "Acme"] in
  NoDup seen
  ∧ collected_employees
      (fold_left (collect_step false) page (CollectState ∅ (map Own seen)))
    = [Employee "u1" "d1" "Acme"; Employee "u2" "d2" "Acme"]
  ∧ NoDup (collected_employees
             (fold_left (collect_step false) page (CollectState ∅ (map Own seen)))).
Proof.
  intros seen page.
  assert (Hnd : NoDup seen) by (apply NoDup_singleton).
  split; [exact Hnd|]. split; [vm_compute; reflexivity|].
  exact (proj1 (proj2 (collect_fresh_spec ∅ seen page Hnd))).
Defined.

Lemma fill_complete d e : complete d = true → (fill d e).1 = d.
Proof.
  unfold complete. intros [Hd Hc]%andb_true_iff.
  destruct (fill_fields d e) as [-> _]. rewrite Hd, Hc. by destruct d.
Qed.

Lemma collect_step_data st emp :
  collect_existing_data (collect_step true st emp)
  = fill_existing_data
      (fill_step (FillState (collect_existing_data st) 0 0 0) emp).
Proof.
  rewrite fill_step_data. unfold collect_step. cbn [fill_existing_data].
  destruct (PyStr.truthy (Profile_URL emp)); [|done].
  destruct (collect_existing_data st !! Profile_URL emp) as [existing|] eqn:He.
  - destruct (complete existing) eqn:Hc.
    + rewrite fill_complete by done. by rewrite insert_id.
    + by case_bool_decide.
  - by case_bool_decide.
Qed.

Lemma fill_step_data_only st st' emp :
  fill_existing_data st = fill_existing_data st' →
  fill_existing_data (fill_step st emp) = fill_existing_data (fill_step st' emp).
Proof. intros Heq. by rewrite !fill_step_data, Heq. Qed.

(** X24.  In update mode the collection loop of [extract_employees] does to
    [existing_data] exactly what the fill loop of [update_existing_profiles]
    does: skipping the complete records changes nothing, since filling never
    touches a field that has a value. *)
Theorem collect_update_is_fill (st : collect_state) (fs : fill_state)
    (page_employees : list employee) :
  collect_existing_data st = fill_existing_data fs →
  collect_existing_data (fold_left (collect_step true) page_employees st)
  = fill_existing_data (fill_page fs page_employees).
Proof.
  unfold fill_page. revert st fs.
  induction page_employees as [|emp page IH]; intros st fs Heq; [done|].
  cbn [fold_left]. apply IH. rewrite collect_step_data.
  apply fill_step_data_only. by rewrite <- Heq.
Qed.

Lemma collect_update_is_fill_witness :
  let D : gmap string employee :=
    {["u1" := Employee "u1" "" ""; "u2" := Employee "u2" "d2" "Acme"]} in
  let page := [Employee "u1" "found" "Beta"; Employee "u2" "other" "Beta"] in
  collect_existing_data (CollectState D []) = fill_existing_data (FillState D 0 0 0)
  ∧ collect_existing_data
      (fold_left (collect_step true) page (CollectState D []))
    = fill_existing_data (fill_page (FillState D 0 0 0) page).
Proof.
  intros D page. split; [reflexivity|].
  exact (collect_update_is_fill (CollectState D []) (FillState D 0 0 0) page
           eq_refl).
Defined.


(** ** The flushes of a company *)

Lemma page_records_snoc pages p :
  page_records (pages ++ [p]) = page_records pages ++ p.2.
Proof.
  unfold page_records. rewrite map_app, concat_app. simpl.
  by rewrite app_nil_r.
Qed.

Lemma clean_batch_app B1 B2 :
  clean_batch (B1 ++ B2) ↔ clean_batch B1 ∧ clean_batch B2.
Proof.
  unfold clean_batch. split.
  - intros H. split; intros e He; apply H; set_solver.
  - intros [H1 H2] e [?|?]%elem_of_app; [by apply H1|by apply H2].
Qed.

(** The flushes of the pages, one after the other. *)
Lemma flush_pages_spec update_mode pages s :
  clean_batch (page_records pages) →
  let env := IoEnv None None in
  let s' := fold_left (flush_page update_mode env) pages s in
  starting_dataset None env s'
  = merge update_mode (starting_dataset None env s) (page_records pages)
  ∧ (page_records pages ≠ [] →
     output_csv s'
     = Some (csv_rows_of (merge update_mode (starting_dataset None env s)
                            (page_records pages))))
  ∧ (page_records pages = [] → s' = s).
Proof.
  intros Hclean env. induction pages as [|p pages IH] using rev_ind.
  - simpl. by rewrite merge_nil.
  - rewrite page_records_snoc in Hclean |- *.
    apply clean_batch_app in Hclean as [Hc1 Hc2].
    destruct (IH Hc1) as (Hstart & Hfile & Hsame). clear IH.
    rewrite fold_left_app. cbn [fold_left].
    set (s1 := fold_left (flush_page update_mode env) pages s) in *.
    unfold flush_page. destruct (p.2) as [|e page] eqn:Hp.
    + rewrite app_nil_r. done.
    + assert (Hne : e :: page ≠ []) by done.
      split; [|split].
      * unfold env. rewrite flush_then_load_spec by done.
        fold env. by rewrite Hstart, merge_app.
      * intros _. unfold env. rewrite save_writes_merge by done.
        fold env. by rewrite Hstart, merge_app.
      * intros Heq. by apply app_eq_nil in Heq as [_ ?].
Qed.

Lemma collect_pages_concat update_mode st pages :
  collect_pages update_mode st pages
  = fold_left (collect_step update_mode) (page_records pages) st.
Proof.
  unfold collect_pages, page_records. revert st.
  induction pages as [|p pages IH]; intros st; [done|].
  simpl. by rewrite IH, fold_left_app.
Qed.

(** X25.  The store after a company, in fresh mode.  When the records of
    the pages have clean fields, none longer than the reader's field size
    limit, and nothing fails, the flushes of the pages
    followed by the final flush of [process_company] leave in the store the
    rows of the merge of all the page records, in the order of the visit, into
    the dataset that the store held before; the final flush of the collected
    records changes no row.  When no page shows a record, the store is not
    touched. *)
Theorem company_flush_spec (existing_data : gmap string employee)
    (pages : list (nat * list employee)) (s : pystate) :
  clean_batch (page_records pages) →
  let env := IoEnv None None in
  let s1 := fold_left (flush_page false env) pages s in
  let st := collect_pages false (CollectState existing_data []) pages in
  let s2 := final_flush env s1 (collected_employees st) in
  output_csv s2
  = match page_records pages with
    | [] => output_csv s
    | _ => Some (csv_rows_of (merge false (starting_dataset None env s)
                                (page_records pages)))
    end
  ∧ output_csv s2 = output_csv s1
  ∧ starting_dataset None env s2
    = merge false (starting_dataset None env s) (page_records pages).
Proof.
  intros Hclean env s1 st s2.
  destruct (flush_pages_spec false pages s Hclean) as (Hstart & Hfile & Hsame).
  fold env in Hstart, Hfile, Hsame. fold s1 in Hstart, Hfile, Hsame.
  assert (Hown0 : ∀ m : member, m ∈ ([] : list member) → ∃ e, m = Own e)
    by (intros m Hm; by apply not_elem_of_nil in Hm).
  destruct (collect_fold_fresh (page_records pages)
              (CollectState existing_data []) Hown0 (NoDup_nil_2))
    as (_ & Hown & _ & (new & Hall & Hnew) & _).
  rewrite <- collect_pages_concat in Hown, Hall. fold st in Hown, Hall.
  simpl in Hall.
  assert (Hval : collected_employees st = new).
  { unfold collected_employees. rewrite Hall. clear.
    induction new as [|x l IH]; [done|]. simpl. f_equal. exact IH. }
  subst s2. rewrite Hval. clear Hval Hall Hown.
  assert (Hkeys : ∀ e, e ∈ new → PyStr.truthy (key_of e) = true →
            key_of e ∈ dom (merge false (starting_dataset None env s)
                              (page_records pages))).
  { intros e He Ht. rewrite dom_merge. apply elem_of_union_r.
    unfold batch_keys. apply elem_of_list_to_set, list_elem_of_filter.
    split; [done|]. apply list_elem_of_fmap. exists e. split; [done|].
    by apply Hnew. }
  assert (Hcnew : clean_batch new).
  { intros e He. apply Hclean. by apply Hnew. }
  destruct new as [|e0 new'] eqn:Hn.
  - simpl. split; [|done].
    destruct (page_records pages) as [|r rs] eqn:Hr.
    + by rewrite Hsame.
    + by apply Hfile.
  - assert (Hne : e0 :: new' ≠ []) by done.
    assert (Hrec : page_records pages ≠ []).
    { intros Hr. destruct (Hnew e0) as [Hin _]; [by left|].
      rewrite Hr in Hin. by apply not_elem_of_nil in Hin. }
    unfold final_flush.
    assert (Hout : output_csv (save_employee_data (e0 :: new') None false None
                                 env s1).2
                   = Some (csv_rows_of (merge false (starting_dataset None env s)
                                          (page_records pages)))).
    { unfold env. rewrite save_writes_merge by done. fold env.
      by rewrite Hstart, fresh_merge_known. }
    split; [|split].
    + rewrite Hout. by destruct (page_records pages).
    + by rewrite Hout, Hfile.
    + unfold env. rewrite flush_then_load_spec by done. fold env.
      by rewrite Hstart, fresh_merge_known.
Qed.

Lemma company_flush_spec_witness :
  let pages := [(1, [Employee "u1" "d1" "Acme"; Employee "u2" "" "Acme"]);
                (2, []);
                (3, [Employee "u1" "a longer d1" "Acme"; Employee "u3" "d3" "Beta"])] in
  let s := PyState ∅ None [] in
  let env := IoEnv None None in
  let s1 := fold_left (flush_page false env) pages s in
  let st := collect_pages false (CollectState ∅ []) pages in
  let s2 := final_flush env s1 (collected_employees st) in
  clean_batch (page_records pages)
  ∧ output_csv s2
    = Some [fieldnames; ["u1"; "d1"; "Acme"]; ["u2"; ""; "Acme"];
            ["u3"; "d3"; "Beta"]].
Proof.
  intros pages s env s1 st s2.
  assert (Hclean : clean_batch (page_records pages)).
  { intros e He. vm_compute in He.
    repeat (apply elem_of_cons in He as [->|He]; [by vm_compute|]).
    by apply not_elem_of_nil in He. }
  split; [exact Hclean|].
  etrans; [exact (proj1 (company_flush_spec ∅ pages s Hclean))|].
  vm_compute. reflexivity.
Defined.

(** ** The page enumerator: addresses built from numbered controls *)

Lemma startswith_prefix p s : PyStr.startswith p (p +:+ s) = true.
Proof.
  induction p as [|c p IH]; [done|]. rewrite append_cons. simpl.
  by rewrite decide_True.
Qed.

Lemma startswith_app p a b :
  PyStr.startswith p a = true → PyStr.startswith p (a +:+ b) = true.
Proof.
  revert a. induction p as [|c p IH]; intros a; [done|].
  destruct a as [|x a]; [done|]. rewrite append_cons. simpl.
  destruct (decide (c = x)); [apply IH|done].
Qed.

Lemma before_first_prefix sep s :
  ∃ rest, s = PyStr.before_first sep s +:+ rest.
Proof.
  induction s as [|c s [rest IH]].
  - exists EmptyString. simpl. by destruct (PyStr.startswith sep EmptyString).
  - cbn [PyStr.before_first]. destruct (PyStr.startswith sep (String c s)).
    + by exists (String c s).
    + exists rest. rewrite append_cons. f_equal. exact IH.
Qed.

Lemma before_first_no_sep sep s :
  sep ≠ EmptyString → PyStr.contains sep (PyStr.before_first sep s) = false.
Proof.
  intros Hsep. induction s as [|c s IH].
  - simpl. destruct (PyStr.startswith sep EmptyString) eqn:E; simpl.
    + by destruct sep.
    + by destruct sep.
  - cbn [PyStr.before_first].
    destruct (PyStr.startswith sep (String c s)) eqn:E.
    + by destruct sep.
    + cbn [PyStr.contains]. rewrite IH, orb_false_r.
      destruct (PyStr.startswith sep (String c (PyStr.before_first sep s)))
        eqn:E'; [|done].
      destruct (before_first_prefix sep s) as [rest Hrest].
      apply (startswith_app _ _ rest) in E'. rewrite append_cons in E'.
      rewrite <- Hrest in E'. congruence.
Qed.

Lemma contains_app_false sub a b :
  PyStr.contains sub (a +:+ b) = false → PyStr.contains sub a = false.
Proof.
  induction a as [|c a IH].
  - simpl. destruct sub; [|done]. by destruct b.
  - rewrite append_cons. cbn [PyStr.contains]. intros [H1 H2]%orb_false_iff.
    rewrite (IH H2), orb_false_r.
    destruct (PyStr.startswith sub (String c a)) eqn:E; [|done].
    apply (startswith_app _ _ b) in E. rewrite append_cons in E. congruence.
Qed.

(** X26.  The base address of the enumerator.  [base_url_of] returns a
    prefix of the current address that holds no [&page=]; when the current
    address holds no [&page=], the result holds no [?page=] either. *)
Theorem base_url_without_page (current_url : string) :
  (∃ rest, current_url = base_url_of current_url +:+ rest)
  ∧ PyStr.contains "&page=" (base_url_of current_url) = false
  ∧ (PyStr.contains "&page=" current_url = false →
     PyStr.contains "?page=" (base_url_of current_url) = false).
Proof.
  unfold base_url_of.
  destruct (PyStr.contains "&page=" current_url) eqn:E1; [|
    destruct (PyStr.contains "?page=" current_url) eqn:E2].
  - split; [apply before_first_prefix|]. split; [|done].
    by apply before_first_no_sep.
  - split; [apply before_first_prefix|]. split.
    + destruct (before_first_prefix "?page=" current_url) as [rest Hrest].
      rewrite Hrest in E1. by apply contains_app_false in E1.
    + intros _. by apply before_first_no_sep.
  - split; [|done]. exists EmptyString. clear.
    induction current_url as [|c s IH]; [done|]. rewrite append_cons.
    by rewrite <- IH.
Qed.

Lemma base_url_without_page_witness :
  PyStr.contains "&page=" "https://x/people/?page=2" = false
  ∧ PyStr.contains "?page=" (base_url_of "https://x/people/?page=2") = false.
Proof.
  split; [reflexivity|].
  exact (proj2 (proj2 (base_url_without_page "https://x/people/?page=2"))
           eq_refl).
Defined.

Lemma digit_value_of_digit (k : nat) :
  (k < 10)%nat →
  PyStr.digit_value (ascii_of_nat (48 + k)) = Some (N.of_nat k).
Proof.
  intros Hk. do 10 (destruct k as [|k]; [reflexivity|]). lia.
Qed.

Lemma digits_value_uint acc d :
  digits_value acc (DecimalString.NilEmpty.string_of_uint d) = uint_value acc d.
Proof.
  revert acc. induction d; intros acc; simpl; try done;
    rewrite <- IHd; f_equal; lia.
Qed.

Lemma uint_value_pos p d :
  uint_value (N.pos p) d = N.pos (Pos.of_uint_acc d p).
Proof.
  revert p. induction d; intros p; simpl; [done|..];
    (etrans; [|apply IHd]); f_equal; lia.
Qed.

Lemma uint_value_of_uint d : uint_value 0 d = N.of_uint d.
Proof.
  unfold N.of_uint. induction d; simpl; [done|exact IHd|..];
    apply (uint_value_pos _ d).
Qed.

Lemma digits_value_str n : digits_value 0 (PyStr.str n) = n.
Proof.
  unfold PyStr.str, DecimalString.NilZero.string_of_uint.
  rewrite <- (DecimalN.Unsigned.of_to n) at 2.
  destruct (N.to_uint n) eqn:E; [done|..];
    rewrite <- E, digits_value_uint; apply uint_value_of_uint.
Qed.

Lemma leading_int_str n : leading_int (PyStr.str n) = Some n.
Proof.
  pose proof (digits_value_str n) as Hv.
  unfold PyStr.str, DecimalString.NilZero.string_of_uint in *.
  destruct (N.to_uint n); simpl in *; by rewrite ?Hv.
Qed.

Lemma digits_value_app acc a c r :
  PyStr.digit_value c = None →
  digits_value acc (a +:+ String c r) = digits_value acc a.
Proof.
  intros Hc. revert acc. induction a as [|x a IH]; intros acc.
  - simpl. by rewrite Hc.
  - rewrite append_cons. simpl. destruct (PyStr.digit_value x); [apply IH|done].
Qed.

Lemma leading_int_app a c r :
  PyStr.digit_value c = None →
  leading_int (a +:+ String c r) = leading_int a.
Proof.
  intros Hc. destruct a as [|x a].
  - simpl. by rewrite Hc.
  - rewrite append_cons. unfold leading_int.
    destruct (PyStr.digit_value x); [|done].
    by rewrite <- append_cons, digits_value_app.
Qed.

Lemma page_match_at_app a c r :
  PyStr.digit_value c = None →
  c ∉ ["p"; "a"; "g"; "e"; "="]%char →
  page_match_at (a +:+ String c r) = page_match_at a.
Proof.
  intros Hd Hc. unfold page_match_at.
  assert (Hne : ∀ x, x ∈ ["p"; "a"; "g"; "e"; "="]%char → x ≠ c)
    by (intros x Hx ->; done).
  do 5 (destruct a as [|? a];
        [simpl; rewrite ?decide_True by done;
         rewrite decide_False; [done|apply Hne; set_solver]|];
        rewrite append_cons; cbn [PyStr.startswith drop_chars];
        case_decide; [|done]).
  by apply leading_int_app.
Qed.

Lemma search_page_eq url :
  search_page url
  = match page_match_at url with
    | Some n => Some n
    | None => match url with
              | EmptyString => None
              | String _ url' => search_page url'
              end
    end.
Proof. by destruct url. Qed.

Lemma search_page_app a c r :
  PyStr.digit_value c = None →
  c ∉ ["p"; "a"; "g"; "e"; "="]%char →
  search_page (a +:+ String c r)
  = match search_page a with
    | Some k => Some k
    | None => search_page (String c r)
    end.
Proof.
  intros Hd Hc. induction a as [|x a IH]; [done|].
  rewrite (search_page_eq (String x a)), search_page_eq.
  rewrite page_match_at_app by done.
  destruct (page_match_at (String x a)); [done|].
  rewrite append_cons. exact IH.
Qed.

Lemma search_page_numbered c n :
  c ≠ "p"%char →
  search_page (String c ("page=" +:+ PyStr.str n)) = Some n.
Proof.
  intros Hc. rewrite search_page_eq. unfold page_match_at.
  cbn [PyStr.startswith]. rewrite decide_False by done.
  rewrite search_page_eq. unfold page_match_at.
  rewrite startswith_prefix.
  change (drop_chars 5 ("page=" +:+ PyStr.str n)) with (PyStr.str n).
  by rewrite leading_int_str.
Qed.

Lemma get_page_num_numbered base_url n :
  get_page_num (numbered_page_url base_url n)
  = match search_page base_url with Some k => k | None => n end.
Proof.
  unfold get_page_num, numbered_page_url.
  destruct (PyStr.contains "?" base_url).
  - change (base_url +:+ "&page=" +:+ PyStr.str n)
      with (base_url +:+ String "&" ("page=" +:+ PyStr.str n)).
    rewrite search_page_app; [|done|set_solver].
    rewrite search_page_numbered by done. by destruct (search_page base_url).
  - change (base_url +:+ "?page=" +:+ PyStr.str n)
      with (base_url +:+ String "?" ("page=" +:+ PyStr.str n)).
    rewrite search_page_app; [|done|set_solver].
    rewrite search_page_numbered by done. by destruct (search_page base_url).
Qed.

(** X27.  The address of a numbered control.  When a pagination control
    has no usable [href] and the enumerator builds an address for it, the
    text of the control reads as a number [n], the address is the base
    address followed by [?page=n] or [&page=n], and the key under which the
    address is sorted is [n] - unless the base address already holds a
    [page=] followed by digits, in which case the key is the number found
    there, whatever [n] is. *)
Theorem numbered_control_key (base_url href text url : string) :
  PyStr.truthy href && PyStr.contains "/search/results/people/" href = false →
  li_page_url base_url (LiClickable href text) = Some url →
  ∃ n, PyStr.int (PyStr.strip text) = Some n
       ∧ url = numbered_page_url base_url n
       ∧ get_page_num url
         = match search_page base_url with Some k => k | None => n end.
Proof.
  intros Hhref. unfold li_page_url. rewrite Hhref.
  destruct (PyStr.truthy (PyStr.strip text) && PyStr.isdigit (PyStr.strip text));
    [|done].
  destruct (PyStr.int (PyStr.strip text)) as [n|]; [|done].
  intros Hurl. exists n. split; [done|].
  assert (url = numbered_page_url base_url n) as ->.
  { unfold numbered_page_url.
    destruct (PyStr.contains "?" base_url); congruence. }
  split; [done|]. apply get_page_num_numbered.
Qed.

Lemma numbered_control_key_witness :
  ∃ n, PyStr.int (PyStr.strip " 12 ") = Some n
       ∧ "https://x/people/?page=12" = numbered_page_url "https://x/people/" n
       ∧ get_page_num "https://x/people/?page=12"
         = match search_page "https://x/people/" with
           | Some k => k
           | None => n
           end.
Proof.
  exact (numbered_control_key "https://x/people/" "" " 12 "
           "https://x/people/?page=12" eq_refl eq_refl).
Defined.
